(** * kube-arangodb: reconciliation core, shallow embedding

    The development follows the Go packages of the operator:

    - [Agency]    : pkg/deployment/agency (agent set, leader discovery,
                    agency cache reload);
    - [Conn]      : pkg/util/arangod/conn (authentication wrapper);
    - [Reconcile] : pkg/deployment/reconcile (action timeouts, runtime
                    container image update);
    - [Throttle]  : pkg/util/k8sutil/inspector/throttle;
    - [Inspector] : pkg/deployment/resources/inspector (the resource
                    cache and its refresh);
    - [Immutable] : the spec-acceptance check on immutable fields.

    Go maps are [gmap]s; a nil pointer or nil interface is [None]; a Go
    [error] is a message; network peers and the clock are explicit inputs
    (a "world") and every outbound call that matters is logged. *)

From Stdlib Require Import ZArith NArith Lia Ascii.
From stdpp Require Import gmap strings list fin_maps functions pretty.

Open Scope string_scope.

(** ** Shared vocabulary *)

(** A Go [error] value; [nil] is [None] at the use sites. *)
Definition error := string.

(** errors.Wrap(err, msg) *)
Definition Wrap (err : error) (msg : string) : error := msg +:+ ": " +:+ err.

(** The outcome of a fallible call returning [(T, error)]. *)
Inductive result (A : Type) : Type :=
| Ok (a : A)
| Err (e : error).
Arguments Ok {A} a.
Arguments Err {A} e.

(** A [driver.Connection] is identified by the endpoint it talks to. *)
Definition Connection := string.

(** * pkg/deployment/agency *)
Module Agency.

(** agencyConfig, config.go *)
Record agencyConfig := {
  LeaderId : option string;
  CommitIndex : N;
  ConfigurationID : string;
  Pool : gmap string string;
  Active : list string
}.

(** agencyConfigResult, config.go *)
Record agencyConfigResult := {
  acr_config : option agencyConfig;
  acr_err : option error;
  acr_conn : option Connection
}.

(** agentSetResult *)
Record agentSetResult := {
  asr_id : string;
  asr_result : agencyConfig;
  asr_conn : option Connection
}.

(** agentSet (the mutex and the connection factory carry no data the
    refresh reads). *)
Record agentSet := {
  clients : gmap string Connection;
  health : gmap string bool;
  result_ : option agentSetResult
}.

Section WithState.

(** The agency [State] document is decoded elsewhere; here it is opaque. *)
Context {State : Type}.
Context (emptyState : State).

(** What the network answers during one call: the reply of every agent to
    GET /_api/agency/config, the order in which Go ranges over the result
    map, and the reply to the full state read issued by [loadState]. *)
Record World := {
  getAgencyConfig : Connection -> result agencyConfig;
  rangeOrder : list string;
  loadState : option Connection -> result State
}.

(** getAgencyConfigResult *)
Definition getAgencyConfigResult (w : World) (conn : Connection) : agencyConfigResult :=
  match getAgencyConfig w conn with
  | Ok c => {| acr_config := Some c; acr_err := None; acr_conn := Some conn |}
  | Err e => {| acr_config := None; acr_err := Some e; acr_conn := Some conn |}
  end.

(** getAgencyConfigResults: one entry per known connection, all filled in
    once the wait group is done. *)
Definition getAgencyConfigResults (w : World) (connections : gmap string Connection)
  : gmap string agencyConfigResult :=
  getAgencyConfigResult w <$> connections.

(** The [for _, v := range r] loop of [refresh]: the first visited entry
    without error whose config names a leader decides. *)
Fixpoint findLeader (r : gmap string agencyConfigResult) (order : list string) : option string :=
  match order with
  | [] => None
  | k :: rest =>
      match r !! k with
      | None => findLeader r rest
      | Some v =>
          match acr_err v with
          | Some _ => findLeader r rest
          | None =>
              match acr_config v with
              | Some cfg =>
                  match LeaderId cfg with
                  | Some l => Some l
                  | None => findLeader r rest
                  end
              | None => findLeader r rest
              end
          end
      end
  end.

(** The [for _, z := range cfg.Active] loop of [refresh]. *)
Definition markActive (r : gmap string agencyConfigResult) (h : gmap string bool) (z : string)
  : gmap string bool :=
  match r !! z with
  | Some q => match acr_err q with None => <[z := true]> h | Some _ => h end
  | None => h
  end.

(** agentSet.refresh: the deferred function stores [result] and [health]
    on every path. *)
Definition refresh (w : World) (a : agentSet) : agentSet * option error :=
  let store (res : option agentSetResult) (h : gmap string bool) :=
    {| clients := clients a; health := h; result_ := res |} in
  let r := getAgencyConfigResults w (clients a) in
  match findLeader r (rangeOrder w) with
  | None => (store None ∅, Some "NoLeader in Agency")
  | Some leader =>
      match r !! leader with
      | None => (store None ∅, Some "Leader not in result list")
      | Some res =>
          match acr_err res with
          | Some err => (store None ∅, Some (Wrap err "Error while fetching from agency"))
          | None =>
              match acr_config res with
              | None => (store None ∅, Some "Config result is missing")
              | Some cfg =>
                  let h := foldl (markActive r) (<[leader := true]> ∅) (Active cfg) in
                  (store (Some {| asr_id := leader; asr_result := cfg; asr_conn := None |}) h,
                   None)
              end
          end
      end
  end.

(** agentSet.Health *)
Definition Health (a : agentSet) : gmap string bool := health a.

(** agentSet.Leader *)
Definition Leader (a : agentSet) : string * N * option Connection * bool :=
  match result_ a with
  | None => ("", 0%N, None, false)
  | Some z => (asr_id z, CommitIndex (asr_result z), asr_conn z, true)
  end.

(** cache, cache.go *)
Record cache := {
  valid : bool;
  commitIndex : N;
  data : State;
  set : agentSet
}.

(** NewAgencyCache *)
Definition NewAgencyCache : cache :=
  {| valid := false; commitIndex := 0%N; data := emptyState;
     set := {| clients := ∅; health := ∅; result_ := None |} |}.

(** cache.Data *)
Definition Data (c : cache) : State * bool := (data c, valid c).

(** What one [Reload] leaves behind: the cache, the returned pair and the
    connections handed to [loadState], in call order. *)
Record ReloadOutcome := {
  after : cache;
  index : N;
  failure : option error;
  fetched : list (option Connection)
}.

(** cache.Reload *)
Definition Reload (w : World) (c : cache) : ReloadOutcome :=
  let '(s, rerr) := refresh w (set c) in
  let c1 := {| valid := valid c; commitIndex := commitIndex c; data := data c; set := s |} in
  match rerr with
  | Some err => {| after := c1; index := 0%N; failure := Some err; fetched := [] |}
  | None =>
      let '(_, ci, conn, ok) := Leader s in
      if negb ok then
        {| after := c1; index := 0%N;
           failure := Some "Set did not refresh properly"; fetched := [] |}
      else if (ci =? commitIndex c)%N && valid c then
        {| after := c1; index := ci; failure := None; fetched := [] |}
      else
        match loadState w conn with
        | Err err =>
            {| after := {| valid := false; commitIndex := commitIndex c;
                           data := data c; set := s |};
               index := ci; failure := Some err; fetched := [conn] |}
        | Ok d =>
            {| after := {| valid := true; commitIndex := ci; data := d; set := s |};
               index := ci; failure := None; fetched := [conn] |}
        end
  end.

(** The commit index a [Reload] sees at the leader: what [refresh] followed
    by [Leader] hands to the comparison with the cached index. *)
Definition observed (w : World) (c : cache) : option N :=
  match refresh w (set c) with
  | (s, None) =>
      match Leader s with
      | (_, ci, _, true) => Some ci
      | _ => None
      end
  | (_, Some _) => None
  end.

(** "The agent's config request returned without error." *)
Definition responded (w : World) (a : agentSet) (id : string) : Prop :=
  ∃ conn cfg, clients a !! id = Some conn ∧ getAgencyConfig w conn = Ok cfg.

(** The replacement rule as the specification words it: new data only
    for a strictly greater index or an invalid cache, and an equal or older
    index changes nothing. *)
Definition replaced_only_when_newer (w : World) (c : cache) : Prop :=
  (data (after (Reload w c)) ≠ data c →
     ∃ ci, observed w c = Some ci ∧ ((commitIndex c < ci)%N ∨ valid c = false))
  ∧ (∀ ci, observed w c = Some ci → (ci <= commitIndex c)%N → valid c = true →
       data (after (Reload w c)) = data c).

(** The health rule as the specification words it: healthy exactly when
    the agent answered and the leader lists it as active. *)
Definition healthy_iff_responded_and_active (w : World) (a : agentSet) : Prop :=
  ∀ a' z, refresh w a = (a', None) → result_ a' = Some z →
    ∀ id, Health a' !! id = Some true ↔
          (responded w a id ∧ id ∈ Active (asr_result z)).

(** *** Facts about [refresh] *)

Lemma lookup_results w (cs : gmap string Connection) id :
  getAgencyConfigResults w cs !! id = getAgencyConfigResult w <$> cs !! id.
Proof. unfold getAgencyConfigResults. apply lookup_fmap. Qed.

Lemma result_no_error w conn :
  acr_err (getAgencyConfigResult w conn) = None ↔ ∃ cfg, getAgencyConfig w conn = Ok cfg.
Proof.
  unfold getAgencyConfigResult.
  destruct (getAgencyConfig w conn) as [cfg|e]; simpl; split.
  - eauto.
  - done.
  - discriminate.
  - intros [cfg H]. discriminate.
Qed.

Lemma result_config w conn cfg :
  acr_config (getAgencyConfigResult w conn) = Some cfg ↔ getAgencyConfig w conn = Ok cfg.
Proof.
  unfold getAgencyConfigResult.
  destruct (getAgencyConfig w conn) as [cfg'|e]; simpl; split; congruence.
Qed.

Lemma no_error_responded w a id :
  (∃ q, getAgencyConfigResults w (clients a) !! id = Some q ∧ acr_err q = None)
  ↔ responded w a id.
Proof.
  unfold responded. rewrite lookup_results. split.
  - intros (q & Hq & Herr). destruct (clients a !! id) as [conn|] eqn:Hc; simplify_eq/=.
    apply result_no_error in Herr as [cfg Hcfg]. eauto.
  - intros (conn & cfg & Hc & Hcfg). rewrite Hc. simpl. eexists. split; [done|].
    apply result_no_error. eauto.
Qed.

(** No visited reply names a leader: the range loop ends without one. *)
Lemma findLeader_none r order :
  (∀ id q cfg, r !! id = Some q → acr_config q = Some cfg → LeaderId cfg = None) →
  findLeader r order = None.
Proof.
  intros Hno. induction order as [|k rest IH]; simpl; [done|].
  destruct (r !! k) as [v|] eqn:Hk; [|done].
  destruct (acr_err v); [done|].
  destruct (acr_config v) as [cfg|] eqn:Hcfg; [|done].
  by rewrite (Hno _ _ _ Hk Hcfg).
Qed.

(** The marking loop only ever adds [true] entries, for listed agents that
    answered. *)
Lemma markActive_healthy r (l : list string) (h : gmap string bool) id :
  foldl (markActive r) h l !! id = Some true ↔
  h !! id = Some true ∨ (id ∈ l ∧ ∃ q, r !! id = Some q ∧ acr_err q = None).
Proof.
  revert h. induction l as [|z l IH]; intros h; simpl.
  - split; [by left|]. intros [H|[H _]]; [done|]. by apply elem_of_nil in H.
  - rewrite IH. unfold markActive at 1. split.
    + intros [H|[Hin Hq]].
      * destruct (r !! z) as [q|] eqn:Hz; [|by left].
        destruct (acr_err q) eqn:He; [by left|].
        destruct (decide (z = id)) as [->|Hne].
        -- right. split; [left|]; eauto.
        -- rewrite lookup_insert_ne in H by done. by left.
      * right. split; [by right|done].
    + intros [H|[Hin Hq]].
      * left. destruct (r !! z) as [q|]; [|done].
        destruct (acr_err q); [done|].
        destruct (decide (z = id)) as [->|Hne].
        -- by rewrite lookup_insert_eq.
        -- by rewrite lookup_insert_ne.
      * apply elem_of_cons in Hin as [->|Hin].
        -- left. destruct Hq as (q & -> & ->). by rewrite lookup_insert_eq.
        -- right. done.
Qed.

(** What a successful [refresh] has established. *)
Lemma refresh_success w a a' :
  refresh w a = (a', None) →
  ∃ leader res cfg,
    let r := getAgencyConfigResults w (clients a) in
    findLeader r (rangeOrder w) = Some leader ∧
    r !! leader = Some res ∧ acr_err res = None ∧ acr_config res = Some cfg ∧
    a' = {| clients := clients a;
            health := foldl (markActive r) (<[leader := true]> ∅) (Active cfg);
            result_ := Some {| asr_id := leader; asr_result := cfg; asr_conn := None |} |}.
Proof.
  unfold refresh. intros H.
  destruct (findLeader _ _) as [leader|] eqn:Hl; [|discriminate].
  destruct (_ !! leader) as [res|] eqn:Hres; [|discriminate].
  destruct (acr_err res) eqn:Herr; [discriminate|].
  destruct (acr_config res) as [cfg|] eqn:Hcfg; [|discriminate].
  exists leader, res, cfg. simpl. by simplify_eq.
Qed.

(** What a failed [refresh] leaves in the set. *)
Lemma refresh_failure w a a' e :
  refresh w a = (a', Some e) →
  a' = {| clients := clients a; health := ∅; result_ := None |}.
Proof.
  unfold refresh. intros H.
  repeat (match type of H with
          | context [match ?x with _ => _ end] => destruct x
          end; simplify_eq/=); done.
Qed.

Lemma refresh_no_leader w a :
  (∀ id conn cfg, clients a !! id = Some conn →
     getAgencyConfig w conn = Ok cfg → LeaderId cfg = None) →
  refresh w a = ({| clients := clients a; health := ∅; result_ := None |},
                 Some "NoLeader in Agency").
Proof.
  intros Hno. unfold refresh. rewrite findLeader_none; [done|].
  intros id q cfg Hq Hcfg. rewrite lookup_results in Hq.
  destruct (clients a !! id) as [conn|] eqn:Hc; simplify_eq/=.
  apply result_config in Hcfg. eauto.
Qed.

(** *** Facts about [Reload] *)

Lemma observed_some w c ci :
  observed w c = Some ci →
  ∃ s id, refresh w (set c) = (s, None) ∧ Leader s = (id, ci, None, true).
Proof.
  unfold observed. destruct (refresh w (set c)) as [s [e|]] eqn:Hr; [discriminate|].
  destruct (refresh_success _ _ _ Hr) as (leader & res & cfg & _ & _ & _ & _ & ->).
  unfold Leader. simpl. intros [= <-]. eauto.
Qed.

Lemma Reload_same_index w c :
  observed w c = Some (commitIndex c) → valid c = true →
  Reload w c =
    {| after := {| valid := valid c; commitIndex := commitIndex c; data := data c;
                   set := (refresh w (set c)).1 |};
       index := commitIndex c; failure := None; fetched := [] |}.
Proof.
  intros Hobs Hv. apply observed_some in Hobs as (s & id & Hr & Hl).
  unfold Reload. rewrite Hr, Hl. simpl. rewrite N.eqb_refl, Hv. done.
Qed.

Lemma Reload_data_cases w c :
  data (after (Reload w c)) = data c ∨
  ∃ ci d, observed w c = Some ci ∧ ((ci =? commitIndex c)%N && valid c = false) ∧
          loadState w None = Ok d ∧ after (Reload w c) =
            {| valid := true; commitIndex := ci; data := d; set := (refresh w (set c)).1 |}.
Proof.
  unfold Reload, observed.
  destruct (refresh w (set c)) as [s [e|]] eqn:Hr; [by left|].
  destruct (refresh_success _ _ _ Hr) as (leader & res & cfg & _ & _ & _ & _ & ->).
  unfold Leader. simpl.
  destruct ((CommitIndex cfg =? commitIndex c)%N && valid c) eqn:Hsame; [by left|].
  destruct (loadState w None) as [d|e] eqn:Hload; [|by left].
  right. exists (CommitIndex cfg), d. done.
Qed.

(** The replacement rule of the code: new data only when the observed
    index differs from the cached one or the cache is invalid, and the same
    index on a valid cache changes nothing. *)
Definition replaced_only_when_changed (w : World) (c : cache) : Prop :=
  (data (after (Reload w c)) ≠ data c →
     ∃ ci, observed w c = Some ci ∧ (ci ≠ commitIndex c ∨ valid c = false))
  ∧ (observed w c = Some (commitIndex c) → valid c = true →
       data (after (Reload w c)) = data c).

(** C1 (as amended): for every Reload, the cached State is replaced only
    when the index observed at the leader differs from the cached
    commitIndex (in either direction) or the cache holds no valid data; a
    Reload that observes the cached index on a valid cache leaves the State
    unchanged. *)
Theorem Reload_replaces_only_on_index_change (w : World) (c : cache) :
  replaced_only_when_changed w c.
Proof.
  split.
  - intros Hne. destruct (Reload_data_cases w c) as [Heq|(ci & d & Hobs & Hsame & _)].
    + by destruct Hne.
    + exists ci. split; [done|].
      apply andb_false_iff in Hsame as [Hsame|Hv]; [left|by right].
      by apply N.eqb_neq.
  - intros Hobs Hv. by rewrite Reload_same_index.
Qed.

(** C2: when the leader's observed commitIndex equals the cached one and
    the cache is valid, Reload issues no state fetch, leaves data, validity
    and cached index as they were and returns the cached index with no
    error. *)
Theorem Reload_same_index_is_noop (w : World) (c : cache) :
  observed w c = Some (commitIndex c) → valid c = true →
  fetched (Reload w c) = [] ∧
  Data (after (Reload w c)) = Data c ∧
  commitIndex (after (Reload w c)) = commitIndex c ∧
  index (Reload w c) = commitIndex c ∧
  failure (Reload w c) = None.
Proof. intros Hobs Hv. by rewrite Reload_same_index. Qed.

(** C4: when no polled agent's reply carries a leaderId, Reload fails (with
    the NoLeader error, without any state fetch) and the cached State and
    its validity flag, hence the answer of Data, are what they were. *)
Theorem Reload_no_leader_keeps_data (w : World) (c : cache) :
  (∀ id conn cfg, clients (set c) !! id = Some conn →
     getAgencyConfig w conn = Ok cfg → LeaderId cfg = None) →
  failure (Reload w c) = Some "NoLeader in Agency" ∧
  index (Reload w c) = 0%N ∧
  fetched (Reload w c) = [] ∧
  data (after (Reload w c)) = data c ∧
  valid (after (Reload w c)) = valid c ∧
  Data (after (Reload w c)) = Data c.
Proof.
  intros Hno. unfold Reload. by rewrite (refresh_no_leader _ _ Hno).
Qed.

(** C7 (as amended): after a successful refresh an agent is marked healthy
    if and only if its config request returned without error and it is
    either the leader itself or listed in the leader's active-peer list. *)
Theorem refresh_health_iff (w : World) (a a' : agentSet) (z : agentSetResult) :
  refresh w a = (a', None) → result_ a' = Some z →
  ∀ id, Health a' !! id = Some true ↔
        (responded w a id ∧ (id = asr_id z ∨ id ∈ Active (asr_result z))).
Proof.
  intros Hr Hz id.
  destruct (refresh_success _ _ _ Hr) as (leader & res & cfg & _ & Hres & Herr & _ & ->).
  simpl in Hz. simplify_eq/=. unfold Health. simpl.
  rewrite markActive_healthy, no_error_responded. split.
  - intros [H|[Hin Hresp]].
    + destruct (decide (leader = id)) as [->|Hne].
      * split; [|by left]. apply no_error_responded. eauto.
      * by rewrite lookup_insert_ne in H.
    + split; [done|by right].
  - intros [Hresp [->|Hin]].
    + left. by rewrite lookup_insert_eq.
    + by right.
Qed.

(** C10: after a successful refresh the stored leader result has a nil
    connection, Leader reports ok with that nil connection, and whenever
    Reload fetches the agency state it passes nil. *)
Theorem refresh_leader_connection_nil (w : World) (a a' : agentSet) :
  refresh w a = (a', None) →
  (∃ z, result_ a' = Some z ∧ asr_conn z = None) ∧
  (∃ id ci, Leader a' = (id, ci, None, true)) ∧
  (∀ c, set c = a → fetched (Reload w c) = [] ∨ fetched (Reload w c) = [None]).
Proof.
  intros Hr.
  destruct (refresh_success _ _ _ Hr) as (leader & res & cfg & _ & _ & _ & _ & ->).
  split; [by eexists|]. split; [by do 2 eexists|].
  intros c <-. unfold Reload. rewrite Hr. unfold Leader. simpl.
  destruct (_ && _); [by left|].
  destruct (loadState w None); by right.
Qed.

End WithState.

(** *** A three-agent agency *)

Definition agents : gmap string Connection :=
  <["A" := "http://a:8529"]> (<["B" := "http://b:8529"]> {["C" := "http://c:8529"]}).

Definition configOf (leader : string) (ci : N) (active : list string) (me : string)
  : agencyConfig :=
  {| LeaderId := Some leader; CommitIndex := ci; ConfigurationID := me;
     Pool := ∅; Active := active |}.

(** A leads at index [ci] with active list [active]; B follows; C is down.
    A state read answers with the document [doc]. *)
Definition world3 (ci : N) (active : list string) (doc : string) : @World string :=
  {| getAgencyConfig := λ conn,
       if String.eqb conn "http://a:8529" then Ok (configOf "A" ci active "A")
       else if String.eqb conn "http://b:8529" then Ok (configOf "A" ci active "B")
       else Err "connection refused";
     rangeOrder := ["C"; "B"; "A"];
     loadState := λ _, Ok doc |}.

(** No agent knows a leader. *)
Definition worldNoLeader : @World string :=
  {| getAgencyConfig := λ conn,
       Ok {| LeaderId := None; CommitIndex := 7; ConfigurationID := conn;
             Pool := ∅; Active := [] |};
     rangeOrder := ["A"; "B"; "C"];
     loadState := λ _, Ok "unreachable" |}.

Definition cacheAt (ci : N) (doc : string) : @cache string :=
  {| valid := true; commitIndex := ci; data := doc;
     set := {| clients := agents; health := ∅; result_ := None |} |}.

Example Reload_42_42 :
  Reload (world3 42 ["A"; "B"; "C"] "new") (cacheAt 42 "old") =
  {| after := {| valid := true; commitIndex := 42; data := "old";
                 set := (refresh (world3 42 ["A"; "B"; "C"] "new") (set (cacheAt 42 "old"))).1 |};
     index := 42; failure := None; fetched := [] |}.
Proof. vm_compute. reflexivity. Qed.

Example Reload_43_42 :
  let o := Reload (world3 43 ["A"; "B"; "C"] "new") (cacheAt 42 "old") in
  (Data (after o), commitIndex (after o), index o, failure o, fetched o)
  = (("new", true), 43%N, 43%N, None, [None]).
Proof. vm_compute. reflexivity. Qed.

(** C1, counterexample: the leader answers with index 41 while the valid
    cache holds index 42; the older index is fetched and stored all the
    same, so the rule with "strictly greater" fails. *)
Lemma Reload_older_index_replaces :
  ¬ replaced_only_when_newer (world3 41 ["A"; "B"; "C"] "new") (cacheAt 42 "old").
Proof.
  intros [_ Hkeep].
  specialize (Hkeep 41%N). 
  assert (Hobs : observed (world3 41 ["A"; "B"; "C"] "new") (cacheAt 42 "old") = Some 41%N)
    by (vm_compute; reflexivity).
  specialize (Hkeep Hobs).
  assert (Hd : data (after (Reload (world3 41 ["A"; "B"; "C"] "new") (cacheAt 42 "old"))) = "new")
    by (vm_compute; reflexivity).
  rewrite Hd in Hkeep. simpl in Hkeep.
  assert ("new" = "old") as Habs by (apply Hkeep; [lia|reflexivity]).
  discriminate Habs.
Qed.

(** C2, witness: three agents, leader A at index 42, valid cache at 42. *)
Lemma Reload_same_index_is_noop_witness :
  let w := world3 42 ["A"; "B"; "C"] "new" in
  let c := cacheAt 42 "old" in
  fetched (Reload w c) = [] ∧ Data (after (Reload w c)) = Data c ∧
  commitIndex (after (Reload w c)) = commitIndex c ∧
  index (Reload w c) = commitIndex c ∧ failure (Reload w c) = None.
Proof.
  apply (Reload_same_index_is_noop (world3 42 ["A"; "B"; "C"] "new") (cacheAt 42 "old")).
  - vm_compute. reflexivity.
  - reflexivity.
Defined.

(** C4, witness: three agents that all answer without a leaderId. *)
Lemma Reload_no_leader_keeps_data_witness :
  failure (Reload worldNoLeader (cacheAt 42 "old")) = Some "NoLeader in Agency" ∧
  index (Reload worldNoLeader (cacheAt 42 "old")) = 0%N ∧
  fetched (Reload worldNoLeader (cacheAt 42 "old")) = [] ∧
  data (after (Reload worldNoLeader (cacheAt 42 "old"))) = "old" ∧
  valid (after (Reload worldNoLeader (cacheAt 42 "old"))) = true ∧
  Data (after (Reload worldNoLeader (cacheAt 42 "old"))) = ("old", true).
Proof.
  apply (Reload_no_leader_keeps_data worldNoLeader (cacheAt 42 "old")).
  intros id conn cfg _ Hcfg. simpl in Hcfg. injection Hcfg as <-. reflexivity.
Defined.

Definition set3 : agentSet := {| clients := agents; health := ∅; result_ := None |}.

Example refresh_leader_unlisted :
  Health (refresh (world3 42 ["B"; "C"] "doc") set3).1 =
  <["B" := true]> {["A" := true]}.
Proof. vm_compute. reflexivity. Qed.

(** C7, counterexample: the leader A lists only B and C as active; A is
    marked healthy although the leader's active-peer list does not name
    it. *)
Lemma refresh_marks_unlisted_leader :
  ¬ healthy_iff_responded_and_active (world3 42 ["B"; "C"] "doc") set3.
Proof.
  intros Hclaim.
  set (a' := (refresh (world3 42 ["B"; "C"] "doc") set3).1).
  assert (Hr : refresh (world3 42 ["B"; "C"] "doc") set3 = (a', None))
    by (vm_compute; reflexivity).
  assert (Hz : result_ a' = Some {| asr_id := "A";
                                    asr_result := configOf "A" 42 ["B"; "C"] "A";
                                    asr_conn := None |})
    by (vm_compute; reflexivity).
  assert (Hh : Health a' !! "A" = Some true) by (vm_compute; reflexivity).
  apply (Hclaim a' _ Hr Hz "A") in Hh as [_ Hin].
  simpl in Hin.
  repeat (apply elem_of_cons in Hin as [Hin|Hin]; [discriminate Hin|]).
  by apply elem_of_nil in Hin.
Qed.

(** C7, witness: the same agency; the unlisted leader A is healthy. *)
Lemma refresh_health_iff_witness :
  Health (refresh (world3 42 ["B"; "C"] "doc") set3).1 !! "A" = Some true ↔
  (responded (world3 42 ["B"; "C"] "doc") set3 "A" ∧
   ("A" = "A" ∨ "A" ∈ ["B"; "C"])).
Proof.
  apply (refresh_health_iff (world3 42 ["B"; "C"] "doc") set3
           (refresh (world3 42 ["B"; "C"] "doc") set3).1
           {| asr_id := "A"; asr_result := configOf "A" 42 ["B"; "C"] "A";
              asr_conn := None |}).
  - vm_compute. reflexivity.
  - vm_compute. reflexivity.
Defined.

(** C10, witness: the three-agent agency with leader A. *)
Lemma refresh_leader_connection_nil_witness :
  (∃ z, result_ (refresh (world3 42 ["A"; "B"; "C"] "doc") set3).1 = Some z
        ∧ asr_conn z = None) ∧
  (∃ id ci, Leader (refresh (world3 42 ["A"; "B"; "C"] "doc") set3).1
            = (id, ci, None, true)) ∧
  (∀ c : @cache string, set c = set3 →
     fetched (Reload (world3 42 ["A"; "B"; "C"] "doc") c) = [] ∨
     fetched (Reload (world3 42 ["A"; "B"; "C"] "doc") c) = [None]).
Proof.
  apply (refresh_leader_connection_nil (world3 42 ["A"; "B"; "C"] "doc") set3).
  vm_compute. reflexivity.
Defined.

End Agency.

(** * pkg/util/arangod/conn *)
Module Conn.

(** driver.Request, driver.Response and driver.Authentication, as far as
    the wrapper looks at them. *)
Record Request := { Method : string; Path : string }.
Record Response := { StatusCode : Z; Body : string }.
Definition Authentication := string.

(** http.StatusUnauthorized *)
Definition StatusUnauthorized : Z := 401.

(** authenticate: [base] is the connection that was wrapped, [conn] the
    one currently used; the [auth] closure lives in the network below. *)
Record authenticate := { base : Connection; conn : Connection }.

(** WrapAuthentication *)
Definition WrapAuthentication (c : Connection) : authenticate :=
  {| base := c; conn := c |}.

(** Calls that leave the wrapper. *)
Inductive event :=
| EvDo (c : Connection) (req : Request)
| EvAuth
| EvSetAuthentication (c : Connection) (auth : Authentication).

Definition isDo (e : event) : bool := match e with EvDo _ _ => true | _ => false end.
Definition isAuth (e : event) : bool := match e with EvAuth => true | _ => false end.

Section WithNetwork.

(** The peers are a state machine of their own: every call may change
    what the next one is answered. *)
Context {W : Type}.

Record Network := {
  netDo : Connection -> Request -> W -> result Response * W;
  netAuth : W -> result Authentication * W;
  netSetAuthentication : Connection -> Authentication -> W -> result Connection * W
}.

Context (net : Network).

(** Computations that talk to the network and log what they called. *)
Definition Net (A : Type) : Type := W -> A * W * list event.

Definition ret {A} (x : A) : Net A := λ w, (x, w, []).

Definition bind {A B} (m : Net A) (f : A -> Net B) : Net B :=
  λ w, let '(x, w1, l1) := m w in
       let '(y, w2, l2) := f x w1 in
       (y, w2, (l1 ++ l2)%list).

Notation "'let*' x ':=' m 'in' k" := (bind m (λ x, k))
  (at level 10, x pattern, m at level 100, k at level 200, only parsing).

Definition callDo (c : Connection) (req : Request) : Net (result Response) :=
  λ w, let '(r, w') := netDo net c req w in (r, w', [EvDo c req]).

Definition callAuth : Net (result Authentication) :=
  λ w, let '(r, w') := netAuth net w in (r, w', [EvAuth]).

Definition callSetAuthentication (c : Connection) (auth : Authentication)
  : Net (result Connection) :=
  λ w, let '(r, w') := netSetAuthentication net c auth w in
       (r, w', [EvSetAuthentication c auth]).

(** authenticate.Reauthenticate; the wrapper is returned as it is after
    the call, the error as [Some]. *)
Definition Reauthenticate (a : authenticate) : Net (option error * authenticate) :=
  let* r := callAuth in
  match r with
  | Err err => ret (Some (Wrap err "Unable to refresh auth"), a)
  | Ok auth =>
      let* r' := callSetAuthentication (base a) auth in
      match r' with
      | Err err => ret (Some (Wrap err "Unable to set auth"), a)
      | Ok c => ret (None, {| base := base a; conn := c |})
      end
  end.

(** authenticate.Do *)
Definition Do (a : authenticate) (req : Request) : Net (result Response * authenticate) :=
  let* r := callDo (conn a) req in
  match r with
  | Err err => ret (Err err, a)
  | Ok resp =>
      if negb (StatusCode resp =? StatusUnauthorized)%Z then ret (Ok resp, a)
      else
        let* (rerr, a') := Reauthenticate a in
        match rerr with
        | Some err => ret (Err err, a')
        | None =>
            let* r2 := callDo (conn a') req in
            ret (r2, a')
        end
  end.

(** How often a log refreshed the authentication, and how many requests it
    sent. *)
Definition authCalls (l : list event) : nat := length (List.filter isAuth l).
Definition doCalls (l : list event) : nat := length (List.filter isDo l).

(** *** Facts about [Reauthenticate] and [Do] *)

(** One refresh asks for credentials once and sends no request. *)
Lemma Reauthenticate_calls (a : authenticate) (w : W) :
  authCalls (Reauthenticate a w).2 = 1 ∧ doCalls (Reauthenticate a w).2 = 0.
Proof.
  unfold Reauthenticate, bind, callAuth, callSetAuthentication, ret.
  destruct (netAuth net w) as [[auth|e] w1]; simpl; [|done].
  destruct (netSetAuthentication net (base a) auth w1) as [[c|e] w2]; done.
Qed.

(** The wrapped connection is never replaced; only [conn] moves. *)
Lemma Reauthenticate_base (a : authenticate) (w : W) :
  base (Reauthenticate a w).1.1.2 = base a.
Proof.
  unfold Reauthenticate, bind, callAuth, callSetAuthentication, ret.
  destruct (netAuth net w) as [[auth|e] w1]; simpl; [|done].
  destruct (netSetAuthentication net (base a) auth w1) as [[c|e] w2]; done.
Qed.

Lemma Do_first_error (a : authenticate) (req : Request) (w w1 : W) (e : error) :
  netDo net (conn a) req w = (Err e, w1) →
  Do a req w = ((Err e, a), w1, [EvDo (conn a) req]).
Proof. intros H. unfold Do, bind, callDo, ret. by rewrite H. Qed.


End WithNetwork.

(** *** A server behind bearer authentication *)

(** The world counts the credentials handed out so far.  A refreshed
    connection carries the token in its name; the server accepts it only
    when [accept] is set. *)
Definition tokenNet (accept : bool) : @Network nat :=
  {| netDo := λ c req n,
       ((if String.eqb c "arangod+jwt" && accept
         then Ok {| StatusCode := 200; Body := "ok" |}
         else Ok {| StatusCode := 401; Body := "" |}), n);
     netAuth := λ n, (Ok "jwt", S n);
     netSetAuthentication := λ b auth n, (Ok (b +:+ "+" +:+ auth), n) |}.

Definition getVersion : Request := {| Method := "GET"; Path := "/_api/version" |}.

Example Do_refreshes :
  Do (tokenNet true) (WrapAuthentication "arangod") getVersion 0 =
  ((Ok {| StatusCode := 200; Body := "ok" |}, {| base := "arangod"; conn := "arangod+jwt" |}), 1,
   [EvDo "arangod" getVersion; EvAuth; EvSetAuthentication "arangod" "jwt";
    EvDo "arangod+jwt" getVersion]).
Proof. vm_compute. reflexivity. Qed.

Example Do_second_401_returned :
  Do (tokenNet false) (WrapAuthentication "arangod") getVersion 0 =
  ((Ok {| StatusCode := 401; Body := "" |}, {| base := "arangod"; conn := "arangod+jwt" |}), 1,
   [EvDo "arangod" getVersion; EvAuth; EvSetAuthentication "arangod" "jwt";
    EvDo "arangod+jwt" getVersion]).
Proof. vm_compute. reflexivity. Qed.


End Conn.

(** * pkg/deployment/reconcile *)
Module Reconcile.

(** api.ActionType and time.Duration (nanoseconds). *)
Abbreviation ActionType := string (only parsing).
Abbreviation Duration := Z (only parsing).

(** api.Timeouts: the per-action overrides of the deployment spec. *)
Record Timeouts := { Actions : gmap ActionType Duration }.

(** api.DeploymentSpec, as far as the timeouts read it; [Timeouts] is a
    pointer. *)
Record DeploymentSpec := { SpecTimeouts : option Timeouts }.

Section ActionTimeouts.

(** The table filled by [registerAction] at start-up and the global
    default timeout. *)
Context (actionTimeouts : gmap ActionType Duration).
Context (defaultTimeout : Duration).

(** getActionTimeout *)
Definition getActionTimeout (spec : DeploymentSpec) (t : ActionType) : option Duration :=
  match
    match SpecTimeouts spec with
    | Some timeouts => Actions timeouts !! t
    | None => None
    end
  with
  | Some d => Some d
  | None =>
      match actionTimeouts !! t with
      | Some d => Some d
      | None => None
      end
  end.

(** GetActionTimeout *)
Definition GetActionTimeout (spec : DeploymentSpec) (t : ActionType) : Duration :=
  match getActionTimeout spec t with
  | Some d => d
  | None =>
      match getActionTimeout spec "default" with
      | Some d => d
      | None => defaultTimeout
      end
  end.

(** The override the spec sets for [t], if any. *)
Definition specOverride (spec : DeploymentSpec) (t : ActionType) : option Duration :=
  timeouts ← SpecTimeouts spec; Actions timeouts !! t.

(** The precedence as the specification words it: the spec's override for
    [t], else the timeout registered for [t], else the spec's "default"
    entry, else the global default. *)
Definition timeoutBySpecification (spec : DeploymentSpec) (t : ActionType) : Duration :=
  match specOverride spec t with
  | Some d => d
  | None =>
      match actionTimeouts !! t with
      | Some d => d
      | None =>
          match specOverride spec "default" with
          | Some d => d
          | None => defaultTimeout
          end
      end
  end.

Lemma getActionTimeout_cases (spec : DeploymentSpec) (t : ActionType) :
  getActionTimeout spec t =
  match specOverride spec t with
  | Some d => Some d
  | None => actionTimeouts !! t
  end.
Proof.
  unfold getActionTimeout, specOverride.
  destruct (SpecTimeouts spec) as [timeouts|]; simpl.
  - destruct (Actions timeouts !! t); [done|]. by destruct (actionTimeouts !! t).
  - by destruct (actionTimeouts !! t).
Qed.

(** The precedence of the code, whatever is registered: a timeout
    registered under the name "default" is consulted after the spec's
    "default" entry and before the global default. *)
Lemma GetActionTimeout_cases (spec : DeploymentSpec) (t : ActionType) :
  GetActionTimeout spec t =
  default
    (default
       (default (default defaultTimeout (actionTimeouts !! "default"))
                (specOverride spec "default"))
       (actionTimeouts !! t))
    (specOverride spec t).
Proof.
  unfold GetActionTimeout. rewrite !getActionTimeout_cases.
  destruct (specOverride spec t); simpl; [done|].
  destruct (actionTimeouts !! t); simpl; [done|].
  destruct (specOverride spec "default"); simpl; [done|].
  by destruct (actionTimeouts !! "default").
Qed.

(** C8: provided no action is registered under the name "default",
    GetActionTimeout returns the spec's override for [t] when set, otherwise
    the timeout registered for [t], otherwise the spec's "default" entry,
    otherwise the global default; in particular a spec override for [t]
    wins over the registered timeout of [t]. *)
Theorem GetActionTimeout_precedence (spec : DeploymentSpec) (t : ActionType) :
  actionTimeouts !! "default" = None →
  GetActionTimeout spec t = timeoutBySpecification spec t ∧
  (∀ d, specOverride spec t = Some d → GetActionTimeout spec t = d).
Proof.
  intros Hreg. unfold GetActionTimeout, timeoutBySpecification.
  rewrite !getActionTimeout_cases, Hreg.
  destruct (specOverride spec t) as [d|] eqn:Ht.
  - split; [done|]. by intros d' [= <-].
  - split; [|done]. destruct (actionTimeouts !! t); [done|].
    by destruct (specOverride spec "default").
Qed.

End ActionTimeouts.

(** *** A registry with two action types *)

Definition minute : Duration := 60000000000.

Definition registered : gmap ActionType Duration :=
  <["AddMember" := (10 * minute)%Z]> {["RuntimeContainerImageUpdate" := (10 * minute)%Z]}.

Definition specWith (l : list (ActionType * Duration)) : DeploymentSpec :=
  {| SpecTimeouts := Some {| Actions := list_to_map l |} |}.

Example timeout_override :
  GetActionTimeout registered (10 * minute)
    (specWith [("AddMember", minute); ("default", (2 * minute)%Z)]) "AddMember" = minute.
Proof. vm_compute. reflexivity. Qed.

Example timeout_registered :
  GetActionTimeout registered (15 * minute)
    (specWith [("default", (2 * minute)%Z)]) "AddMember" = (10 * minute)%Z.
Proof. vm_compute. reflexivity. Qed.

Example timeout_spec_default :
  GetActionTimeout registered (15 * minute)
    (specWith [("default", (2 * minute)%Z)]) "Unknown" = (2 * minute)%Z.
Proof. vm_compute. reflexivity. Qed.

Example timeout_global_default :
  GetActionTimeout registered (15 * minute) {| SpecTimeouts := None |} "Unknown"
  = (15 * minute)%Z.
Proof. vm_compute. reflexivity. Qed.

(** C8, witness: the registry above has no "default" entry. *)
Lemma GetActionTimeout_precedence_witness :
  GetActionTimeout registered (15 * minute)
    (specWith [("AddMember", minute)]) "AddMember"
  = timeoutBySpecification registered (15 * minute)
      (specWith [("AddMember", minute)]) "AddMember" ∧
  (∀ d, specOverride (specWith [("AddMember", minute)]) "AddMember" = Some d →
        GetActionTimeout registered (15 * minute)
          (specWith [("AddMember", minute)]) "AddMember" = d).
Proof.
  apply (GetActionTimeout_precedence registered (15 * minute)
           (specWith [("AddMember", minute)]) "AddMember").
  vm_compute. reflexivity.
Defined.

(** ** RuntimeContainerImageUpdate *)

(** core.Container and core.Pod, as far as the action reads them. *)
Record Container := { Name : string; Image : string }.
Record Pod := { PodName_ : string; Containers : list Container }.

(** The pod template stored in an ArangoMember: [Spec.Template] and
    [Status.Template] are pointers, and so is their [PodSpec]. *)
Record ArangoMemberPodTemplate := { PodSpec : option (list Container) }.
Record ArangoMember := {
  MemberName : string;
  SpecTemplate : option ArangoMemberPodTemplate;
  StatusTemplate : option ArangoMemberPodTemplate
}.

(** api.MemberStatus *)
Record MemberStatus := {
  ID : string;
  ClusterID : string;
  Phase : string;
  PodName : string
}.

(** api.Action *)
Record Action := {
  Type_ : ActionType;
  MemberID : string;
  Group : string;
  Params : gmap string string
}.

(** One cluster's resource cache: pods and ArangoMembers by name. *)
Record ClusterCacheT := {
  Pods : gmap string Pod;
  ArangoMembers : gmap string ArangoMember
}.

(** ActionContext: the members of the deployment status, the caches by
    cluster id, the cache of the current cluster and the answer of the API
    server to a pod Update. *)
Record ActionContext := {
  GetName : string;
  Members : gmap string MemberStatus;
  ClusterCaches : gmap string ClusterCacheT;
  CurrentClusterCache : ClusterCacheT;
  PodsUpdate : Pod -> option error
}.

(** What [Start] returns, and the pods it sent to Update. *)
Record StartOutcome := {
  ready : bool;
  err : option error;
  updates : list Pod
}.

Section RuntimeContainerImageUpdate.

(** rotation.ContainerName and rotation.ContainerImage (the parameter
    keys), MemberPhase.IsReady and MemberStatus.ArangoMemberName. *)
Context (ContainerName ContainerImage : string).
Context (IsReady : string -> bool).
Context (ArangoMemberName : MemberStatus -> string -> string -> string).

(** Action.GetParam *)
Definition GetParam (a : Action) (key : string) : option string := Params a !! key.

(** actionRuntimeContainerImageUpdate.getContainerDetails *)
Definition getContainerDetails (a : Action) : option (string * string) :=
  match GetParam a ContainerName with
  | None => None
  | Some container =>
      match GetParam a ContainerImage with
      | None => None
      | Some image => Some (container, image)
      end
  end.

Definition neqb (x y : string) : bool := negb (String.eqb x y).

(** The [for id := range pod.Spec.Containers] loop up to its first
    container that passes the three name tests; the three slices have the
    same length when it runs. *)
Fixpoint firstNamed (name : string) (pod spec status : list Container) (id : nat)
  : option (nat * Container) :=
  match pod, spec, status with
  | pc :: pod', sc :: spec', tc :: status' =>
      if neqb (Name pc) (Name sc) || neqb (Name pc) (Name tc) || neqb (Name pc) name
      then firstNamed name pod' spec' status' (S id)
      else Some (id, pc)
  | _, _, _ => None
  end.

(** pod.Spec.Containers[id].Image = image *)
Definition setImage (pod : Pod) (id : nat) (image : string) : Pod :=
  {| PodName_ := PodName_ pod;
     Containers := alter (λ c, {| Name := Name c; Image := image |}) id (Containers pod) |}.

Definition done_ (r : bool) (e : option error) : StartOutcome :=
  {| ready := r; err := e; updates := [] |}.

(** actionRuntimeContainerImageUpdate.Start *)
Definition Start (ctx : ActionContext) (a : Action) : StartOutcome :=
  match Members ctx !! MemberID a with
  | None => done_ true None
  | Some m =>
  match ClusterCaches ctx !! ClusterID m with
  | None => done_ true (Some "Client is not ready")
  | Some cache =>
  match getContainerDetails a with
  | None => done_ true None
  | Some (name, image) =>
  if negb (IsReady (Phase m)) then done_ true None else
  match ArangoMembers (CurrentClusterCache ctx) !! ArangoMemberName m (GetName ctx) (Group a) with
  | None => done_ false (Some "ArangoMember not found")
  | Some member =>
  match Pods cache !! PodName m with
  | None => done_ true None
  | Some pod =>
  match SpecTemplate member ≫= PodSpec with
  | None => done_ true None
  | Some spec =>
  match StatusTemplate member ≫= PodSpec with
  | None => done_ true None
  | Some status =>
  if negb (Nat.eqb (length (Containers pod)) (length spec)) then done_ true None else
  if negb (Nat.eqb (length (Containers pod)) (length status)) then done_ true None else
  match firstNamed name (Containers pod) spec status 0 with
  | None => done_ true None
  | Some (id, pc) =>
      if neqb (Image pc) image then
        let pod' := setImage pod id image in
        match PodsUpdate ctx pod' with
        | Some e => {| ready := true; err := Some e; updates := [pod'] |}
        | None => {| ready := false; err := None; updates := [pod'] |}
        end
      else done_ true None
  end end end end end end end end.

(** "The target state is already satisfied": the member, its cluster
    cache, the container details and the pod are there, the pod has a
    container of the requested name, and every such container runs the
    requested image. *)
Definition imageApplied (ctx : ActionContext) (a : Action) : Prop :=
  ∃ m cache name image pod,
    Members ctx !! MemberID a = Some m ∧
    ClusterCaches ctx !! ClusterID m = Some cache ∧
    getContainerDetails a = Some (name, image) ∧
    Pods cache !! PodName m = Some pod ∧
    (∃ c, c ∈ Containers pod ∧ Name c = name) ∧
    (∀ c, c ∈ Containers pod → Name c = name → Image c = image).

(** The member's ArangoMember object is in the current cluster's cache. *)
Definition arangoMemberFound (ctx : ActionContext) (a : Action) (m : MemberStatus) : Prop :=
  is_Some (ArangoMembers (CurrentClusterCache ctx) !! ArangoMemberName m (GetName ctx) (Group a)).

(** The idempotence rule as the specification words it. *)
Definition shortCircuitsWhenApplied (ctx : ActionContext) (a : Action) : Prop :=
  imageApplied ctx a →
  ready (Start ctx a) = true ∧ err (Start ctx a) = None ∧ updates (Start ctx a) = [].

Lemma neqb_false (x y : string) : neqb x y = false ↔ x = y.
Proof. unfold neqb. rewrite negb_false_iff. apply String.eqb_eq. Qed.

(** The container the loop stops at belongs to the pod and has the
    requested name. *)
Lemma firstNamed_some name (pod spec status : list Container) id i pc :
  firstNamed name pod spec status id = Some (i, pc) → pc ∈ pod ∧ Name pc = name.
Proof.
  revert spec status id.
  induction pod as [|c pod IH]; intros [|sc spec] [|tc status] id; simpl; try done.
  destruct (neqb (Name c) (Name sc) || neqb (Name c) (Name tc) || neqb (Name c) name)
    eqn:Htest.
  - intros H. apply IH in H as [Hin Hname]. split; [by right|done].
  - intros [= <- <-]. apply orb_false_iff in Htest as [_ Hname].
    apply neqb_false in Hname. split; [by left|done].
Qed.

(** C5 (as amended): when the pod's container named in the action
    parameters already runs the requested image, Start sends no pod Update;
    it returns ready=true without error whenever the member is not in a
    ready phase or its ArangoMember object is found, and ready=false with
    the error "ArangoMember not found" when the member is ready and that
    object is missing. *)
Theorem Start_when_image_applied (ctx : ActionContext) (a : Action) :
  imageApplied ctx a →
  updates (Start ctx a) = [] ∧
  (∀ m, Members ctx !! MemberID a = Some m →
        IsReady (Phase m) = false ∨ arangoMemberFound ctx a m →
        Start ctx a = done_ true None) ∧
  (∀ m, Members ctx !! MemberID a = Some m →
        IsReady (Phase m) = true → ¬ arangoMemberFound ctx a m →
        Start ctx a = done_ false (Some "ArangoMember not found")).
Proof.
  intros (m & cache & name & image & pod & Hm & Hcache & Hdet & Hpod & _ & Himg).
  assert (Hcore : ∀ member,
    ArangoMembers (CurrentClusterCache ctx) !! ArangoMemberName m (GetName ctx) (Group a)
      = Some member →
    IsReady (Phase m) = true → Start ctx a = done_ true None).
  { intros member Hmember Hready. unfold Start.
    rewrite Hm, Hcache, Hdet, Hready, Hmember, Hpod. simpl.
    destruct (SpecTemplate member ≫= PodSpec) as [spec|]; [|done].
    destruct (StatusTemplate member ≫= PodSpec) as [status|]; [|done].
    destruct (negb (Nat.eqb _ (length spec))); [done|].
    destruct (negb (Nat.eqb _ (length status))); [done|].
    destruct (firstNamed _ _ _ _ _) as [[i pc]|] eqn:Hfirst; [|done].
    apply firstNamed_some in Hfirst as [Hin Hname].
    assert (neqb (Image pc) image = false) as -> by (apply neqb_false; auto).
    done. }
  assert (Hnotready : IsReady (Phase m) = false → Start ctx a = done_ true None).
  { intros Hready. unfold Start. by rewrite Hm, Hcache, Hdet, Hready. }
  assert (Hmissing : IsReady (Phase m) = true → ¬ arangoMemberFound ctx a m →
                     Start ctx a = done_ false (Some "ArangoMember not found")).
  { intros Hready Hnone. unfold Start. rewrite Hm, Hcache, Hdet, Hready. simpl.
    unfold arangoMemberFound in Hnone.
    destruct (ArangoMembers _ !! _); [|done]. destruct Hnone. eauto. }
  split; [|split].
  - destruct (IsReady (Phase m)) eqn:Hready; [|by rewrite Hnotready].
    destruct (ArangoMembers (CurrentClusterCache ctx)
                !! ArangoMemberName m (GetName ctx) (Group a)) as [member|] eqn:Hmember.
    + by rewrite (Hcore member).
    + rewrite Hmissing; [done..|]. unfold arangoMemberFound. rewrite Hmember.
      by intros [? ?].
  - intros m' Hm' [Hready|[member Hmember]]; simplify_eq.
    + auto.
    + destruct (IsReady (Phase m)) eqn:Hready; eauto.
  - intros m' Hm' Hready Hnone; simplify_eq. auto.
Qed.

End RuntimeContainerImageUpdate.

(** *** A db-server whose pod already runs the new image *)

Definition server : Container := {| Name := "server"; Image := "arangodb:3.9.1" |}.

Definition pod1 : Pod := {| PodName_ := "depl-prmr-1"; Containers := [server] |}.

Definition member1 : MemberStatus :=
  {| ID := "PRMR-1"; ClusterID := ""; Phase := "Created"; PodName := "depl-prmr-1" |}.

Definition arangoMember1 : ArangoMember :=
  {| MemberName := "depl-prmr-1";
     SpecTemplate := Some {| PodSpec := Some [server] |};
     StatusTemplate := Some {| PodSpec := Some [server] |} |}.

Definition updateImage (image : string) : Action :=
  {| Type_ := "RuntimeContainerImageUpdate"; MemberID := "PRMR-1"; Group := "dbserver";
     Params := <["name" := "server"]> {["image" := image]} |}.

Definition phaseCreated (phase : string) : bool := String.eqb phase "Created".

Definition memberName (m : MemberStatus) (depl group : string) : string :=
  PodName m.

(** The deployment as the action sees it; [known] says whether the
    ArangoMember object is in the cache. *)
Definition deployment (known : bool) : ActionContext :=
  let cache := {| Pods := {["depl-prmr-1" := pod1]};
                  ArangoMembers := if known then {["depl-prmr-1" := arangoMember1]} else ∅ |} in
  {| GetName := "depl"; Members := {["PRMR-1" := member1]};
     ClusterCaches := {["" := cache]}; CurrentClusterCache := cache;
     PodsUpdate := λ _, None |}.

Example Start_applied :
  Start "name" "image" phaseCreated memberName (deployment true) (updateImage "arangodb:3.9.1")
  = done_ true None.
Proof. vm_compute. reflexivity. Qed.

Example Start_updates :
  Start "name" "image" phaseCreated memberName (deployment true) (updateImage "arangodb:3.9.2")
  = {| ready := false; err := None;
       updates := [{| PodName_ := "depl-prmr-1";
                      Containers := [{| Name := "server"; Image := "arangodb:3.9.2" |}] |}] |}.
Proof. vm_compute. reflexivity. Qed.

Lemma deployment_applied known :
  imageApplied "name" "image" (deployment known) (updateImage "arangodb:3.9.1").
Proof.
  exists member1, (CurrentClusterCache (deployment known)), "server", "arangodb:3.9.1", pod1.
  repeat split; try (destruct known; vm_compute; reflexivity).
  - exists server. split; [by left|done].
  - intros c Hin _. apply list_elem_of_singleton in Hin as ->. done.
Qed.

(** C5, counterexample: the pod already runs the requested image, but the
    ArangoMember object of the ready member is not in the cache; Start
    returns ready=false and an error. *)
Lemma Start_applied_without_ArangoMember :
  ¬ shortCircuitsWhenApplied "name" "image" phaseCreated memberName
      (deployment false) (updateImage "arangodb:3.9.1").
Proof.
  intros Hclaim. destruct (Hclaim (deployment_applied false)) as [Hready _].
  vm_compute in Hready. discriminate Hready.
Qed.

(** C5, witness: the same pod with the ArangoMember object in place. *)
Lemma Start_when_image_applied_witness :
  updates (Start "name" "image" phaseCreated memberName (deployment true)
             (updateImage "arangodb:3.9.1")) = [] ∧
  (∀ m, Members (deployment true) !! MemberID (updateImage "arangodb:3.9.1") = Some m →
        phaseCreated (Phase m) = false ∨
        arangoMemberFound memberName (deployment true) (updateImage "arangodb:3.9.1") m →
        Start "name" "image" phaseCreated memberName (deployment true)
          (updateImage "arangodb:3.9.1") = done_ true None) ∧
  (∀ m, Members (deployment true) !! MemberID (updateImage "arangodb:3.9.1") = Some m →
        phaseCreated (Phase m) = true →
        ¬ arangoMemberFound memberName (deployment true) (updateImage "arangodb:3.9.1") m →
        Start "name" "image" phaseCreated memberName (deployment true)
          (updateImage "arangodb:3.9.1") = done_ false (Some "ArangoMember not found")).
Proof.
  apply (Start_when_image_applied "name" "image" phaseCreated memberName (deployment true)
           (updateImage "arangodb:3.9.1")).
  exact (deployment_applied true).
Defined.

End Reconcile.

(** * pkg/util/k8sutil/inspector/throttle *)
Module Throttle.

(** Component: the twelve resource kinds (the constants of throttle.go). *)
Inductive Component :=
| ArangoClusterSynchronization | ArangoMember | ArangoTask | Node
| PersistentVolumeClaim | Pod | PodDisruptionBudget | Secret
| Service | ServiceAccount | ServiceMonitor | Endpoints.

#[global] Instance Component_eq_dec : EqDecision Component.
Proof. solve_decision. Defined.

(** AllComponents *)
Definition AllComponents : list Component :=
  [ArangoClusterSynchronization; ArangoMember; ArangoTask; Node;
   PersistentVolumeClaim; Pod; PodDisruptionBudget; Secret;
   Service; ServiceAccount; ServiceMonitor; Endpoints].

(** A time.Time in nanoseconds since the epoch; [None] is the zero Time. *)
Definition Time := option Z.

(** The two implementations of the Throttle interface.  A Throttle value
    is a pointer, so the objects live in a heap and are shared by whoever
    holds the reference. *)
Inductive object :=
| alwaysThrottle (count : Z)
| throttle (delay : Z) (next : Time) (count : Z).

Abbreviation Throttle := positive (only parsing).
Abbreviation Heap := (gmap positive object) (only parsing).

(** [count++] on a 64-bit int. *)
Definition incr (count : Z) : Z := ((count + 1 + 2 ^ 63) mod 2 ^ 64 - 2 ^ 63)%Z.

Definition alloc (h : Heap) (o : object) : Heap * Throttle :=
  let l := fresh (dom h) in (<[l := o]> h, l).

(** NewAlwaysThrottle and NewThrottle *)
Definition NewAlwaysThrottle (h : Heap) : Heap * Throttle := alloc h (alwaysThrottle 0).

Definition NewThrottle (h : Heap) (delay : Z) : Heap * Throttle :=
  if (delay =? 0)%Z then NewAlwaysThrottle h else alloc h (throttle delay None 0).

(** Count *)
Definition Count (h : Heap) (t : Throttle) : Z :=
  match h !! t with
  | Some (alwaysThrottle c) => c
  | Some (throttle _ _ c) => c
  | None => 0
  end.

(** Copy: an alwaysThrottle returns itself, a throttle a fresh object with
    the same fields. *)
Definition Copy (h : Heap) (t : Throttle) : Heap * Throttle :=
  match h !! t with
  | Some (throttle d n c) => alloc h (throttle d n c)
  | _ => (h, t)
  end.

(** Invalidate: [next = time.UnixMilli(0)]; nothing for an alwaysThrottle. *)
Definition Invalidate (h : Heap) (t : Throttle) : Heap :=
  match h !! t with
  | Some (throttle d _ c) => <[t := throttle d (Some 0%Z) c]> h
  | _ => h
  end.

(** Throttle(): [next.IsZero() || next.Before(now)]. *)
Definition Throttle_ (h : Heap) (t : Throttle) (now : Z) : bool :=
  match h !! t with
  | Some (throttle _ (Some n) _) => (n <? now)%Z
  | _ => true
  end.

(** Delay *)
Definition Delay (h : Heap) (t : Throttle) (now : Z) : Heap :=
  match h !! t with
  | Some (alwaysThrottle c) => <[t := alwaysThrottle (incr c)]> h
  | Some (throttle d _ c) => <[t := throttle d (Some (now + d)%Z) (incr c)]> h
  | None => h
  end.

(** throttleComponents: one Throttle per component; [Get] is the switch
    over the component. *)
Abbreviation Components := (Component -> positive) (only parsing).

Definition Get (t : Components) (c : Component) : Throttle := t c.

(** NewThrottleComponents, allocating in the order of the struct literal. *)
Definition NewThrottleComponents (h : Heap) (delays : Component -> Z) : Heap * Components :=
  foldl (λ '(h, t) c, let '(h', l) := NewThrottle h (delays c) in (h', <[c := l]> t))
        (h, λ _, 1%positive) AllComponents.

(** NewAlwaysThrottleComponents *)
Definition NewAlwaysThrottleComponents (h : Heap) : Heap * Components :=
  NewThrottleComponents h (λ _, 0%Z).

(** throttleComponents.Copy: every field of [t] copied, in the order of
    the struct literal. *)
Definition CopyComponents (h : Heap) (t : Components) : Heap * Components :=
  foldl (λ '(h, t') c, let '(h', l) := Copy h (t c) in (h', <[c := l]> t'))
        (h, t) AllComponents.

(** throttleComponents.Invalidate *)
Definition InvalidateComponents (h : Heap) (t : Components) (cs : list Component) : Heap :=
  foldl (λ h c, Invalidate h (Get t c)) h cs.

(** throttleComponents.Counts *)
Definition Counts (h : Heap) (t : Components) : list (Component * Z) :=
  (λ c, (c, Count h (Get t c))) <$> AllComponents.

Example always_shared :
  let '(h, t) := NewAlwaysThrottleComponents ∅ in
  let '(h', t') := CopyComponents h t in
  Get t' Pod = Get t Pod ∧ Count (Delay h' (Get t' Pod) 5) (Get t Pod) = 1%Z.
Proof. vm_compute. split; reflexivity. Qed.

Example timed_fresh :
  let '(h, t) := NewThrottleComponents ∅ (λ _, 30%Z) in
  let '(h', t') := CopyComponents h t in
  Get t' Pod ≠ Get t Pod ∧ Count (Delay h' (Get t' Pod) 5) (Get t Pod) = 0%Z
  ∧ Throttle_ (Delay h' (Get t' Pod) 5) (Get t' Pod) 20 = false
  ∧ Throttle_ (Delay h' (Get t' Pod) 5) (Get t Pod) 20 = true.
Proof. vm_compute. repeat split; congruence. Qed.

(** *** Sharing between a set of throttles and its copy *)

Definition timed (o : option object) : Prop := ∃ d n c, o = Some (throttle d n c).

(** Two readings of one reference that agree, or that are both an
    alwaysThrottle (which has no gate and differs in its call counter
    only). *)
Definition sameThrottle (o o' : option object) : Prop :=
  o' = o ∨ ∃ c c', o = Some (alwaysThrottle c) ∧ o' = Some (alwaysThrottle c').

(** Every object of [h] is still there in [h'], up to [sameThrottle]. *)
Definition preserves (h h' : Heap) : Prop :=
  ∀ l, is_Some (h !! l) → sameThrottle (h !! l) (h' !! l).

(** The reference [l'] is either [l] itself, and then not a timed
    throttle of [h], or new to [h]. *)
Definition sharedOrNew (h : Heap) (l l' : Throttle) : Prop :=
  (l' = l ∧ ¬ timed (h !! l)) ∨ h !! l' = None.

(** [t'] is a copy of [t] made in [h], seen in [h']. *)
Definition copyOf (h : Heap) (t : Components) (h' : Heap) (t' : Components) : Prop :=
  (∀ x, is_Some (h !! x) → h' !! x = h !! x) ∧
  ∀ c, h' !! t' c = h !! t c ∧ sharedOrNew h (t c) (t' c).

(** All references of [t] point into [h]. *)
Definition allocated (h : Heap) (t : Components) : Prop := ∀ c, is_Some (h !! t c).

Lemma alloc_spec (h h' : Heap) o l :
  alloc h o = (h', l) → h !! l = None ∧ h' = <[l := o]> h.
Proof.
  unfold alloc. intros [= <- <-]. split; [|done].
  apply not_elem_of_dom. apply is_fresh.
Qed.

Lemma Copy_spec (h h' : Heap) t l :
  Copy h t = (h', l) →
  (∀ x, is_Some (h !! x) → h' !! x = h !! x) ∧
  h' !! l = h !! t ∧ sharedOrNew h t l.
Proof.
  unfold Copy, sharedOrNew. destruct (h !! t) as [[k|d n k]|] eqn:Ht.
  - intros [= <- <-]. split; [done|]. split; [done|]. left. split; [done|].
    intros (? & ? & ? & ?). congruence.
  - intros Ha. apply alloc_spec in Ha as [Hfresh ->]. split; [|split].
    + intros x [o Hx]. rewrite lookup_insert_ne; [done|]. congruence.
    + by rewrite lookup_insert_eq.
    + by right.
  - intros [= <- <-]. split; [done|]. split; [done|]. by right.
Qed.

Lemma all_components (c : Component) : c ∈ AllComponents.
Proof.
  unfold AllComponents.
  destruct c; repeat (apply elem_of_cons; (left; reflexivity) || right).
Qed.

(** The invariant of the copy loop after the components in [seen]. *)
Definition copying (h : Heap) (t : Components) (seen : list Component)
    (h1 : Heap) (t1 : Components) : Prop :=
  (∀ x, is_Some (h !! x) → h1 !! x = h !! x) ∧
  ∀ c, h1 !! t1 c = h !! t c ∧ (c ∈ seen → sharedOrNew h (t c) (t1 c)).

Lemma copying_step (h : Heap) (t : Components) seen h1 t1 c h2 l :
  allocated h t → copying h t seen h1 t1 → Copy h1 (t c) = (h2, l) →
  copying h t (c :: seen) h2 (<[c := l]> t1).
Proof.
  intros Hwf [Hext Hinv] Hcopy.
  apply Copy_spec in Hcopy as (Hext' & Hl & Hshare).
  assert (Hsome : ∀ c', is_Some (h1 !! t1 c')).
  { intros c'. destruct (Hinv c') as [-> _]. apply Hwf. }
  assert (Hsame : h1 !! t c = h !! t c) by apply Hext, Hwf.
  split.
  - intros x Hx. rewrite Hext'; [by apply Hext|]. by rewrite Hext.
  - intros c'. destruct (Hinv c') as (Hc' & Hseen).
    destruct (decide (c = c')) as [<-|Hne].
    + rewrite fn_lookup_insert. split; [congruence|].
      intros _. destruct Hshare as [[-> Hnt]|Hnone].
      * left. split; [done|]. by rewrite <- Hsame.
      * right. destruct (h !! l) eqn:Hhl; [|done].
        rewrite Hext in Hnone by eauto. congruence.
    + rewrite fn_lookup_insert_ne by done. split.
      * rewrite Hext'; [done|]. apply Hsome.
      * intros Hin. apply Hseen. by apply elem_of_cons in Hin as [->|Hin].
Qed.

Lemma copying_loop (h : Heap) (t : Components) cs : ∀ seen h1 t1 h' t',
  allocated h t → copying h t seen h1 t1 →
  foldl (λ '(h, t') c, let '(h', l) := Copy h (t c) in (h', <[c := l]> t'))
        (h1, t1) cs = (h', t') →
  copying h t (reverse cs ++ seen) h' t'.
Proof.
  induction cs as [|c cs IH]; intros seen h1 t1 h' t' Hwf Hinv; simpl.
  - by intros [= <- <-].
  - destruct (Copy h1 (t c)) as [h2 l] eqn:Hcopy. intros Hfold.
    rewrite reverse_cons, <- app_assoc. simpl.
    eapply IH; [done| |done]. by eapply copying_step.
Qed.

Lemma CopyComponents_copyOf (h h' : Heap) (t t' : Components) :
  allocated h t → CopyComponents h t = (h', t') → copyOf h t h' t'.
Proof.
  intros Hwf Hcopy. unfold CopyComponents in Hcopy.
  apply (copying_loop h t AllComponents [] h t h' t' Hwf) in Hcopy as [Hext Hinv].
  - split; [done|]. intros c. destruct (Hinv c) as (Hc & Hseen).
    split; [done|]. apply Hseen. rewrite app_nil_r, elem_of_reverse.
    apply all_components.
  - split; [done|]. intros c. split; [done|].
    intros Hin. by apply elem_of_nil in Hin.
Qed.

Lemma preserves_refl (h h' : Heap) :
  (∀ x, is_Some (h !! x) → h' !! x = h !! x) → preserves h h'.
Proof. intros Hext l Hl. left. by apply Hext. Qed.

(** A [Delay] on an object that the old heap knows only as an
    alwaysThrottle keeps every old object, up to [sameThrottle]. *)
Lemma Delay_preserves (h0 h : Heap) (l : Throttle) (now : Z) :
  preserves h0 h →
  (is_Some (h0 !! l) → ∃ k, h0 !! l = Some (alwaysThrottle k)) →
  preserves h0 (Delay h l now).
Proof.
  intros Hpre Halways x Hx. destruct (decide (x = l)) as [->|Hne].
  - destruct (Halways Hx) as [k Hk].
    assert (∃ k', h !! l = Some (alwaysThrottle k')) as [k' Hk'].
    { destruct (Hpre l Hx) as [Heq|(c & c' & _ & Hc')]; [|eauto].
      rewrite Heq, Hk. eauto. }
    unfold Delay. rewrite Hk', lookup_insert_eq, Hk. right. eauto.
  - assert (Delay h l now !! x = h !! x) as ->; [|by apply Hpre].
    unfold Delay. destruct (h !! l) as [[k|d n k]|]; [| |done];
      by rewrite lookup_insert_ne.
Qed.

Lemma sharedOrNew_always (h : Heap) (l l' : Throttle) :
  sharedOrNew h l l' → is_Some (h !! l') → ∃ k, h !! l' = Some (alwaysThrottle k).
Proof.
  intros [[-> Hnt]|Hnone] [o Ho]; [|congruence].
  destruct o as [k|d n k]; [eauto|]. destruct Hnt. by exists d, n, k.
Qed.

(** What [sameThrottle] leaves alone: the gate at any time, and a timed
    throttle as a whole. *)
Lemma sameThrottle_gate (h h' : Heap) (l : Throttle) (now : Z) :
  sameThrottle (h !! l) (h' !! l) → Throttle_ h' l now = Throttle_ h l now.
Proof.
  unfold Throttle_. intros [->|(c & c' & -> & ->)]; done.
Qed.

Lemma sameThrottle_timed (o o' : option object) :
  sameThrottle o o' → timed o → o' = o.
Proof.
  intros [->|(c & c' & -> & ->)]; [done|]. intros (? & ? & ? & ?). congruence.
Qed.

End Throttle.

(** * pkg/deployment/resources/inspector *)
Module Inspector.
Import Throttle.

(** inspectorStateDeploymentResult *)
Record inspectorStateDeploymentResult := {
  depl : option string;
  deplErr : option error
}.

(** strings.TrimPrefix *)
Definition TrimPrefix (s prefix : string) : string :=
  if String.prefix prefix s
  then String.substring (String.length prefix) (String.length s - String.length prefix) s
  else s.

(** The first non-nil error of a sequence of checks. *)
Fixpoint firstError (checks : list (option error)) : option error :=
  match checks with
  | [] => None
  | Some e :: _ => Some e
  | None :: rest => firstError rest
  end.

Section WithKinds.

(** The loaded listing of one resource kind (podsInspector,
    secretsInspector, ...) and its [validate] method, which accepts a nil
    receiver. *)
Context {kindInspector : Type}.
Context (validateKind : Component -> option kindInspector -> option error).

(** inspectorState: [kinds] holds the twelve per-kind pointers (pods,
    secrets, persistentVolumeClaims, ...), indexed by their component. *)
Record inspectorState := {
  namespace : string;
  deploymentName : string;
  deploymentResult : option inspectorStateDeploymentResult;
  client : string;
  last : Time;
  kinds : Component -> option kindInspector;
  throttles : Components;
  versionInfo : string;
  initialised : bool
}.

(** inspectorLoader.  A loader works on the state it is handed; what the
    API server answers to its list call is part of [Load]. *)
Record inspectorLoader := {
  LoaderName : string;
  LoaderComponent : Component;
  Load : inspectorState -> inspectorState;
  Verify : inspectorState -> option error;
  CopyTo : inspectorState -> inspectorState -> bool -> inspectorState
}.

(** What the outside answers during one refresh: the discovery call, the
    Get of the ArangoDeployment, the successive readings of the clock and
    the order in which the loader goroutines get to run. *)
Record World := {
  serverVersion : result string;
  getDeployment : inspectorStateDeploymentResult;
  clock : nat -> Z;
  schedule : list nat
}.

(** The order in which [validate] visits the kinds. *)
Definition validateOrder : list Component :=
  [Pod; Secret; ServiceAccount; PersistentVolumeClaim; Service; Node;
   PodDisruptionBudget; ServiceMonitor; ArangoMember; ArangoTask;
   ArangoClusterSynchronization; Endpoints].

(** inspectorState.validate *)
Definition validate (i : inspectorState) : option error :=
  firstError ((λ c, validateKind c (kinds i c)) <$> validateOrder).

(** inspectorState.copyCore: [last] and [initialised] start from their zero
    values, the throttles are copied. *)
Definition copyCore (h : Heap) (i : inspectorState) : Heap * inspectorState :=
  let '(h', t) := CopyComponents h (throttles i) in
  (h', {| namespace := namespace i; deploymentName := deploymentName i;
          deploymentResult := deploymentResult i; client := client i;
          last := None; kinds := kinds i; throttles := t;
          versionInfo := versionInfo i; initialised := false |}).

Definition setVersionInfo (n : inspectorState) (v : string) : inspectorState :=
  {| namespace := namespace n; deploymentName := deploymentName n;
     deploymentResult := deploymentResult n; client := client n;
     last := last n; kinds := kinds n; throttles := throttles n;
     versionInfo := v; initialised := initialised n |}.

Definition setDeploymentResult (n : inspectorState) (d : option inspectorStateDeploymentResult)
  : inspectorState :=
  {| namespace := namespace n; deploymentName := deploymentName n;
     deploymentResult := d; client := client n;
     last := last n; kinds := kinds n; throttles := throttles n;
     versionInfo := versionInfo n; initialised := initialised n |}.

(** The body of one loader goroutine, reading the clock at [k]: skipped
    when the component's throttle says so, else [Load] followed by the
    deferred [Delay] on the throttle fetched at the start. *)
Definition runLoader (w : World) (l : inspectorLoader) (st : Heap * inspectorState * nat)
  : Heap * inspectorState * nat :=
  let '(h, n, k) := st in
  let t := Get (throttles n) (LoaderComponent l) in
  if negb (Throttle_ h t (clock w k)) then (h, n, S k)
  else (Delay h t (clock w (S k)), Load l n, S (S k)).

(** The working copy once the wait group is done. *)
Definition loadAll (w : World) (loaders : list inspectorLoader) (h : Heap) (i : inspectorState)
  : Heap * inspectorState * nat :=
  let '(h1, n) := copyCore h i in
  let n := match serverVersion w with
           | Err _ => setVersionInfo n ""
           | Ok v => setVersionInfo n (TrimPrefix v "v")
           end in
  let n := setDeploymentResult n (Some (getDeployment w)) in
  foldl (λ st id, match loaders !! id with
                  | Some l => runLoader w l st
                  | None => st
                  end)
        (h1, n, 1) (schedule w).

(** What a refresh leaves behind. *)
Record RefreshOutcome := {
  heap : Heap;
  visible : inspectorState;
  err : option error
}.

(** The assignments after the Copy loop. *)
Definition swapCore (i n : inspectorState) (now : Z) : inspectorState :=
  {| namespace := namespace i; deploymentName := deploymentName i;
     deploymentResult := deploymentResult n; client := client i;
     last := Some now; kinds := kinds i; throttles := throttles n;
     versionInfo := versionInfo i; initialised := true |}.

(** inspectorState.refreshInThreads *)
Definition refreshInThreads (w : World) (loaders : list inspectorLoader)
    (h : Heap) (i : inspectorState) : RefreshOutcome :=
  let '(h', n, k) := loadAll w loaders h i in
  match firstError ((λ l, Verify l n) <$> loaders) with
  | Some e => {| heap := h'; visible := i; err := Some e |}
  | None =>
      match validate n with
      | Some e => {| heap := h'; visible := i; err := Some e |}
      | None =>
          let i' := foldl (λ to l, CopyTo l n to true) i loaders in
          {| heap := h'; visible := swapCore i' n (clock w k); err := None |}
      end
  end.

(** The working copy a refresh verifies and validates. *)
Definition working (w : World) (loaders : list inspectorLoader) (h : Heap) (i : inspectorState)
  : inspectorState := (loadAll w loaders h i).1.2.

(** Loaders fill in data; none of them replaces the throttles of the
    state it is handed. *)
Definition keepThrottles (loaders : list inspectorLoader) : Prop :=
  ∀ l n, l ∈ loaders → throttles (Load l n) = throttles n.

(** *** Facts about the refresh *)

Lemma firstError_some (checks : list (option error)) :
  is_Some (firstError checks) ↔ ∃ x, x ∈ checks ∧ is_Some x.
Proof.
  induction checks as [|[e|] rest IH]; simpl.
  - split; [by intros [? ?]|]. intros (x & Hx & _). by apply elem_of_nil in Hx.
  - split; [|by eauto]. intros _. exists (Some e). split; [by left|by eauto].
  - rewrite IH. split.
    + intros (x & Hx & Hs). exists x. split; [by right|done].
    + intros (x & Hx & Hs). apply elem_of_cons in Hx as [->|Hx].
      * by destruct Hs.
      * eauto.
Qed.

Lemma firstError_none (checks : list (option error)) :
  firstError checks = None ↔ ∀ x, x ∈ checks → x = None.
Proof.
  rewrite eq_None_not_Some, firstError_some. split.
  - intros Hno x Hx. destruct x as [e|]; [|done]. destruct Hno. eauto.
  - intros Hall (x & Hx & [e ->]). by specialize (Hall _ Hx).
Qed.

(** The goroutines touch the heap through the copied throttles only. *)
Lemma runLoaders_preserves (w : World) (loaders : list inspectorLoader)
    (h : Heap) (tn : Components) (sched : list nat) :
  keepThrottles loaders →
  (∀ c, is_Some (h !! tn c) → ∃ k, h !! tn c = Some (alwaysThrottle k)) →
  ∀ st, preserves h st.1.1 → throttles st.1.2 = tn →
    let st' := foldl (λ st id, match loaders !! id with
                               | Some l => runLoader w l st
                               | None => st
                               end) st sched in
    preserves h st'.1.1 ∧ throttles st'.1.2 = tn.
Proof.
  intros Hkeep Hshared. induction sched as [|id sched IH]; intros st Hpre Htn; simpl.
  - done.
  - apply IH.
    + destruct (loaders !! id) as [l|]; [|done].
      destruct st as [[h1 n] k]. simpl in *. unfold runLoader.
      destruct (negb _); simpl; [done|].
      apply Delay_preserves; [done|]. unfold Get. rewrite Htn. apply Hshared.
    + destruct (loaders !! id) as [l|] eqn:Hl; [|done].
      destruct st as [[h1 n] k]. simpl in *. unfold runLoader.
      destruct (negb _); simpl; [done|].
      rewrite Hkeep; [done|]. apply list_elem_of_lookup. eauto.
Qed.

Lemma loadAll_preserves (w : World) (loaders : list inspectorLoader)
    (h : Heap) (i : inspectorState) :
  allocated h (throttles i) → keepThrottles loaders →
  preserves h (loadAll w loaders h i).1.1.
Proof.
  intros Hwf Hkeep. unfold loadAll, copyCore.
  destruct (CopyComponents h (throttles i)) as [h1 tn] eqn:Hcopy.
  apply CopyComponents_copyOf in Hcopy as [Hext Hcopy]; [|done].
  eapply (runLoaders_preserves w loaders h tn); [done| | |].
  - intros c Hc. eapply sharedOrNew_always; [|done]. apply Hcopy.
  - simpl. by apply preserves_refl.
  - by destruct (serverVersion w).
Qed.

(** "Some per-kind load fails verification or the assembled state fails
    validation." *)
Definition rejected (loaders : list inspectorLoader) (n : inspectorState) : Prop :=
  (∃ l, l ∈ loaders ∧ is_Some (Verify l n)) ∨ is_Some (validate n).

Lemma refresh_error_iff (w : World) (loaders : list inspectorLoader)
    (h : Heap) (i : inspectorState) :
  is_Some (err (refreshInThreads w loaders h i)) ↔
  rejected loaders (working w loaders h i).
Proof.
  unfold working, refreshInThreads, rejected.
  destruct (loadAll w loaders h i) as [[h' n] k]. simpl.
  destruct (firstError _) as [e|] eqn:Hverify; simpl.
  - split; [|by eauto]. intros _. left.
    assert (is_Some (firstError ((λ l, Verify l n) <$> loaders))) as Hs
      by (rewrite Hverify; eauto).
    apply firstError_some in Hs as (x & Hx & Hsome).
    apply list_elem_of_fmap in Hx as (l & -> & Hl). eauto.
  - assert (Hall : ∀ l, l ∈ loaders → Verify l n = None).
    { intros l Hl. eapply firstError_none; [exact Hverify|].
      by apply (list_elem_of_fmap_2 (λ l, Verify l n)). }
    destruct (validate n) as [e|] eqn:Hvalid; simpl.
    + split; [by right; eauto|by eauto].
    + split; [by intros [? ?]|]. intros [(l & Hl & Hs)|Hs].
      * rewrite (Hall l Hl) in Hs. by destruct Hs.
      * by destruct Hs.
Qed.

Lemma refresh_error_visible (w : World) (loaders : list inspectorLoader)
    (h : Heap) (i : inspectorState) :
  is_Some (err (refreshInThreads w loaders h i)) →
  visible (refreshInThreads w loaders h i) = i ∧
  heap (refreshInThreads w loaders h i) = (loadAll w loaders h i).1.1.
Proof.
  unfold refreshInThreads.
  destruct (loadAll w loaders h i) as [[h' n] k]. simpl.
  destruct (firstError _); simpl; [done|].
  destruct (validate n); simpl; [done|]. by intros [? ?].
Qed.

(** C3: a refresh returns an error exactly when the Verify of some loader
    or the validation of the working copy fails; in that case the visible
    snapshot is the state it was (per-kind data, deployment result,
    throttles, last refresh time and initialised flag included) and every
    throttle it refers to keeps its gate.  So the snapshot changes only
    after every loader has verified and the working copy has validated. *)
Theorem refresh_swaps_only_after_validation (w : World) (loaders : list inspectorLoader)
    (h : Heap) (i : inspectorState) :
  allocated h (throttles i) → keepThrottles loaders →
  let n := working w loaders h i in
  let out := refreshInThreads w loaders h i in
  (rejected loaders n ↔ is_Some (err out)) ∧
  (is_Some (err out) →
     visible out = i ∧
     ∀ c, sameThrottle (h !! Get (throttles i) c) (heap out !! Get (throttles i) c)) ∧
  (visible out ≠ i →
     err out = None ∧ (∀ l, l ∈ loaders → Verify l n = None) ∧ validate n = None).
Proof.
  intros Hwf Hkeep n out.
  pose proof (loadAll_preserves w loaders h i Hwf Hkeep) as Hpre.
  pose proof (refresh_error_iff w loaders h i) as Hiff.
  pose proof (refresh_error_visible w loaders h i) as Hvis.
  fold n out in Hiff, Hvis.
  split; [done|]. split.
  - intros Herr. destruct (Hvis Herr) as [Hi Hh]. split; [done|].
    intros c. rewrite Hh. apply Hpre, Hwf.
  - intros Hchanged.
    assert (Hok : err out = None).
    { destruct (err out) eqn:He; [|done]. destruct Hchanged. apply Hvis. eauto. }
    split; [done|].
    assert (Hnot : ¬ rejected loaders n).
    { intros Hrej. apply Hiff in Hrej as [e He]. congruence. }
    split.
    + intros l Hl. destruct (Verify l n) eqn:Hv; [|done].
      destruct Hnot. left. exists l. rewrite Hv. eauto.
    + destruct (validate n) eqn:Hv; [|done]. destruct Hnot. right. eauto.
Qed.

End WithKinds.

(** *** Twelve loaders over listings of names *)

(** A loaded kind: the names listed, or the error of the list call. *)
Definition listing : Type := result (list string).

(** A nil inspector and a listing with a repeated name are both invalid. *)
Definition validateListing (c : Component) (o : option listing) : option error :=
  match o with
  | None => Some "inspector is nil"
  | Some (Err _) => None
  | Some (Ok names) => if bool_decide (NoDup names) then None else Some "duplicated name"
  end.

Definition setKind (n : @inspectorState listing) (c : Component) (v : option listing)
  : @inspectorState listing :=
  {| namespace := namespace n; deploymentName := deploymentName n;
     deploymentResult := deploymentResult n; client := client n;
     last := last n; kinds := <[c := v]> (kinds n); throttles := throttles n;
     versionInfo := versionInfo n; initialised := initialised n |}.

(** The loader of component [c] when the API server answers [answer]. *)
Definition kindLoader (c : Component) (answer : listing) : @inspectorLoader listing :=
  {| LoaderName := "loader";
     LoaderComponent := c;
     Load := λ n, setKind n c (Some answer);
     Verify := λ n, match kinds n c with Some (Err e) => Some e | _ => None end;
     CopyTo := λ from to override,
       match kinds to c with
       | Some _ => if override then setKind to c (kinds from c) else to
       | None => setKind to c (kinds from c)
       end |}.

Definition loadersFor (answer : Component -> listing) : list (@inspectorLoader listing) :=
  (λ c, kindLoader c (answer c)) <$> AllComponents.

(** NewInspector with the default (always) throttles. *)
Definition NewInspector (ns name : string) : Heap * @inspectorState listing :=
  let '(h, t) := NewAlwaysThrottleComponents ∅ in
  (h, {| namespace := ns; deploymentName := name; deploymentResult := None;
         client := "kube"; last := None; kinds := λ _, None; throttles := t;
         versionInfo := ""; initialised := false |}).

Definition world0 : World :=
  {| serverVersion := Ok "v1.21.3";
     getDeployment := {| depl := Some "depl"; deplErr := None |};
     clock := λ k, (1000 + Z.of_nat k)%Z;
     schedule := reverse (seq 0 12) |}.

Definition allFine (c : Component) : listing := Ok ["a"; "b"].

Definition podsFail (c : Component) : listing :=
  if decide (c = Pod) then Err "context deadline exceeded" else Ok ["a"; "b"].

Definition secretsTwice (c : Component) : listing :=
  if decide (c = Secret) then Ok ["a"; "a"] else Ok ["a"; "b"].

Example refresh_ok :
  let '(h, i) := NewInspector "ns" "depl" in
  let out := refreshInThreads validateListing world0 (loadersFor allFine) h i in
  (err out, initialised (visible out), last (visible out), kinds (visible out) Pod,
   deploymentResult (visible out), Count (heap out) (Get (throttles (visible out)) Pod))
  = (None, true, Some 1025%Z, Some (Ok ["a"; "b"]),
     Some {| depl := Some "depl"; deplErr := None |}, 1%Z).
Proof. vm_compute. reflexivity. Qed.

Example refresh_verify_fails :
  let '(h, i) := NewInspector "ns" "depl" in
  let out := refreshInThreads validateListing world0 (loadersFor podsFail) h i in
  (err out, initialised (visible out), last (visible out), kinds (visible out) Secret,
   deploymentResult (visible out))
  = (Some "context deadline exceeded", false, None, None, None).
Proof. vm_compute. reflexivity. Qed.

Example refresh_validate_fails :
  let '(h, i) := NewInspector "ns" "depl" in
  let out := refreshInThreads validateListing world0 (loadersFor secretsTwice) h i in
  (err out, initialised (visible out), last (visible out), kinds (visible out) Secret,
   deploymentResult (visible out))
  = (Some "duplicated name", false, None, None, None).
Proof. vm_compute. reflexivity. Qed.

(** An alwaysThrottle is shared with the working copy: its call counter
    moves even when the refresh fails (its gate has no state to move). *)
Example refresh_failure_counts :
  let '(h, i) := NewInspector "ns" "depl" in
  let out := refreshInThreads validateListing world0 (loadersFor podsFail) h i in
  (Count h (Get (throttles i) Pod), Count (heap out) (Get (throttles i) Pod)) = (0%Z, 1%Z).
Proof. vm_compute. reflexivity. Qed.

Lemma NewInspector_allocated ns name :
  allocated (NewInspector ns name).1 (throttles (NewInspector ns name).2).
Proof. intros c. destruct c; vm_compute; eauto. Qed.

Lemma loadersFor_keepThrottles answer : keepThrottles (loadersFor answer).
Proof.
  intros l n Hl. unfold loadersFor in Hl.
  apply list_elem_of_fmap in Hl as (c & -> & _). reflexivity.
Qed.

(** C3, witness: a fresh inspector whose pod listing times out. *)
Lemma refresh_swaps_only_after_validation_witness :
  let h := (NewInspector "ns" "depl").1 in
  let i := (NewInspector "ns" "depl").2 in
  let n := working world0 (loadersFor podsFail) h i in
  let out := refreshInThreads validateListing world0 (loadersFor podsFail) h i in
  (rejected validateListing (loadersFor podsFail) n ↔ is_Some (err out)) ∧
  (is_Some (err out) →
     visible out = i ∧
     ∀ c, sameThrottle (h !! Get (throttles i) c) (heap out !! Get (throttles i) c)) ∧
  (visible out ≠ i →
     err out = None ∧ (∀ l, l ∈ loadersFor podsFail → Verify l n = None) ∧
     validate validateListing n = None).
Proof.
  apply (refresh_swaps_only_after_validation validateListing world0 (loadersFor podsFail)
           (NewInspector "ns" "depl").1 (NewInspector "ns" "depl").2).
  - exact (NewInspector_allocated "ns" "depl").
  - exact (loadersFor_keepThrottles podsFail).
Defined.

End Inspector.

(** * The spec-acceptance check on immutable fields *)
Module Immutable.

(** api.DeploymentSpec: the three fields that are immutable after creation
    (as tests/immutable_test.go exercises them) and the rest of the spec. *)
Record DeploymentSpec := {
  StorageEngine : string;
  EncryptionKeySecretName : string;
  Mode : string;
  Rest : string
}.

#[global] Instance DeploymentSpec_eq_dec : EqDecision DeploymentSpec.
Proof. solve_decision. Defined.


Inductive ConditionType := SpecAccepted | UpToDate.

Section WithChecksum.

(** The content hash of a spec. *)
Context {Hash : Type} `{EqDecision Hash}.
Context (checksum : DeploymentSpec -> Hash).

(** One managed cluster: the spec as stored on the platform (external
    actors write it), the status owned by the core, what the member state
    tracker reports, and the log of condition transitions. *)
Record Cluster := {
  spec : DeploymentSpec;
  lastAccepted : option DeploymentSpec;
  AcceptedSpecVersion : option Hash;
  AppliedVersion : option Hash;
  Plan : list string;
  Reachable : bool;
  PendingMember : bool;
  condSpecAccepted : bool;
  condUpToDate : bool;
  conditionLog : list (ConditionType * bool)
}.

(** What planner, executor and member state tracker leave behind in one
    tick: applied version, plan, reachability, pending restart or resize. *)
Context (work : Cluster -> option Hash * list string * bool * bool).

(** An external actor replaces the stored spec. *)
Definition externalUpdate (s : DeploymentSpec) (c : Cluster) : Cluster :=
  {| spec := s; lastAccepted := lastAccepted c;
     AcceptedSpecVersion := AcceptedSpecVersion c; AppliedVersion := AppliedVersion c;
     Plan := Plan c; Reachable := Reachable c; PendingMember := PendingMember c;
     condSpecAccepted := condSpecAccepted c; condUpToDate := condUpToDate c;
     conditionLog := conditionLog c |}.

(** Modelled from the spec: the reset of immutable fields, which is not
    among the sources.  "The core rewrites the field back to its
    last-accepted value rather than accepting or erroring." *)
Definition ResetImmutableFields (accepted current : DeploymentSpec) : DeploymentSpec :=
  {| StorageEngine := StorageEngine accepted;
     EncryptionKeySecretName := EncryptionKeySecretName accepted;
     Mode := Mode accepted;
     Rest := Rest current |}.

(** Modelled from the spec: the spec-acceptance check of a tick, which is
    not among the sources.  Changes to immutable fields are "detected during
    spec-acceptance check" and reverted in the stored spec; what remains is
    accepted and its hash recorded as [AcceptedSpecVersion]. *)
Definition acceptSpec (c : Cluster) : Cluster :=
  let s := match lastAccepted c with
           | Some a => ResetImmutableFields a (spec c)
           | None => spec c
           end in
  {| spec := s; lastAccepted := Some s;
     AcceptedSpecVersion := Some (checksum s); AppliedVersion := AppliedVersion c;
     Plan := Plan c; Reachable := Reachable c; PendingMember := PendingMember c;
     condSpecAccepted := condSpecAccepted c; condUpToDate := condUpToDate c;
     conditionLog := conditionLog c |}.

Definition doWork (c : Cluster) : Cluster :=
  let '(applied, plan, reachable, pending) := work c in
  {| spec := spec c; lastAccepted := lastAccepted c;
     AcceptedSpecVersion := AcceptedSpecVersion c; AppliedVersion := applied;
     Plan := plan; Reachable := reachable; PendingMember := pending;
     condSpecAccepted := condSpecAccepted c; condUpToDate := condUpToDate c;
     conditionLog := conditionLog c |}.

(** Modelled from the spec: the derived conditions of section 4.6, which
    are not among the sources.  "SpecAccepted: true iff currentChecksum ==
    AcceptedSpecVersion." *)
Definition wantSpecAccepted (c : Cluster) : bool :=
  bool_decide (Some (checksum (spec c)) = AcceptedSpecVersion c).

(** Modelled from the spec (section 4.6, not among the sources):
    "UpToDate: true iff Plan is empty AND AppliedVersion ==
    AcceptedSpecVersion AND SpecAccepted AND Reachable AND no member has a
    pending-restart or pending-PVC-resize condition." *)
Definition wantUpToDate (c : Cluster) : bool :=
  bool_decide (Plan c = []) && bool_decide (AppliedVersion c = AcceptedSpecVersion c)
  && condSpecAccepted c && Reachable c && negb (PendingMember c).

(** Modelled from the spec (section 4.6, not among the sources): "if
    multiple conditions would change, only the first detected change is
    applied"; every transition is appended to the condition log. *)
Definition recompute (c : Cluster) : Cluster :=
  if negb (Bool.eqb (condSpecAccepted c) (wantSpecAccepted c)) then
    {| spec := spec c; lastAccepted := lastAccepted c;
       AcceptedSpecVersion := AcceptedSpecVersion c; AppliedVersion := AppliedVersion c;
       Plan := Plan c; Reachable := Reachable c; PendingMember := PendingMember c;
       condSpecAccepted := wantSpecAccepted c; condUpToDate := condUpToDate c;
       conditionLog := (conditionLog c ++ [(SpecAccepted, wantSpecAccepted c)])%list |}
  else if negb (Bool.eqb (condUpToDate c) (wantUpToDate c)) then
    {| spec := spec c; lastAccepted := lastAccepted c;
       AcceptedSpecVersion := AcceptedSpecVersion c; AppliedVersion := AppliedVersion c;
       Plan := Plan c; Reachable := Reachable c; PendingMember := PendingMember c;
       condSpecAccepted := condSpecAccepted c; condUpToDate := wantUpToDate c;
       conditionLog := (conditionLog c ++ [(UpToDate, wantUpToDate c)])%list |}
  else c.

(** Modelled from the spec: one reconciliation tick (section 2, not among
    the sources): the spec is checked, the plan is worked on, the conditions
    are recomputed. *)
Definition tick (c : Cluster) : Cluster := recompute (doWork (acceptSpec c)).









End WithChecksum.

(** *** The cluster of tests/immutable_test.go *)

Definition created : DeploymentSpec :=
  {| StorageEngine := "RocksDB";
     EncryptionKeySecretName := "test.encryption.keySecretName";
     Mode := "Cluster"; Rest := "" |}.

(** A running, up-to-date cluster; nothing is left to plan. *)
Definition running : @Cluster DeploymentSpec :=
  {| spec := created; lastAccepted := Some created;
     AcceptedSpecVersion := Some created; AppliedVersion := Some created;
     Plan := []; Reachable := true; PendingMember := false;
     condSpecAccepted := true; condUpToDate := true; conditionLog := [] |}.

Definition idle (c : @Cluster DeploymentSpec) : option DeploymentSpec * list string * bool * bool :=
  (AppliedVersion c, Plan c, true, false).

Definition withEngine (e : string) : DeploymentSpec :=
  {| StorageEngine := e; EncryptionKeySecretName := EncryptionKeySecretName created;
     Mode := Mode created; Rest := Rest created |}.

Definition withKey (k : string) : DeploymentSpec :=
  {| StorageEngine := StorageEngine created; EncryptionKeySecretName := k;
     Mode := Mode created; Rest := Rest created |}.

Definition withMode (m : string) : DeploymentSpec :=
  {| StorageEngine := StorageEngine created;
     EncryptionKeySecretName := EncryptionKeySecretName created;
     Mode := m; Rest := Rest created |}.

Example engine_back :
  spec (tick id idle (externalUpdate (withEngine "MMFiles") running)) = created.
Proof. vm_compute. reflexivity. Qed.

Example key_back :
  spec (tick id idle (externalUpdate (withKey "foobarbaz") running)) = created.
Proof. vm_compute. reflexivity. Qed.

Example mode_back :
  spec (tick id idle (externalUpdate (withMode "Single") running)) = created.
Proof. vm_compute. reflexivity. Qed.

(** A cluster that has settled on its spec while its UpToDate condition
    has not been raised yet: the tick before raised SpecAccepted, the one
    transition of that tick. *)
Definition settling : @Cluster DeploymentSpec :=
  {| spec := created; lastAccepted := Some created;
     AcceptedSpecVersion := Some created; AppliedVersion := Some created;
     Plan := []; Reachable := true; PendingMember := false;
     condSpecAccepted := true; condUpToDate := false;
     conditionLog := [(SpecAccepted, true)] |}.

(** The same cluster one tick earlier, with neither condition raised. *)
Definition accepting : @Cluster DeploymentSpec :=
  {| spec := created; lastAccepted := Some created;
     AcceptedSpecVersion := Some created; AppliedVersion := Some created;
     Plan := []; Reachable := true; PendingMember := false;
     condSpecAccepted := false; condUpToDate := false; conditionLog := [] |}.

Example settling_reached : tick id idle accepting = settling.
Proof. vm_compute. reflexivity. Qed.

Example settling_logs_UpToDate :
  conditionLog (tick id idle (externalUpdate (withEngine "MMFiles") settling))
  = [(SpecAccepted, true); (UpToDate, true)].
Proof. vm_compute. reflexivity. Qed.



Example running_logs_nothing :
  conditionLog (tick id idle (tick id idle (externalUpdate (withEngine "MMFiles") running)))
  = [].
Proof. vm_compute. reflexivity. Qed.

End Immutable.

(** * pkg/deployment/agency: the rest of the agent set and of the cache *)
Module AgentSet.
Import Agency.

(** agentSet.Size *)
Definition Size (a : agentSet) : nat := size (clients a).

(** agentSet.Agent *)
Definition Agent (a : agentSet) (id : string) : option Connection * bool :=
  match clients a !! id with
  | Some c => (Some c, true)
  | None => (None, false)
  end.

Section Healthy.

(** utils.StringList.Has, from pkg/handlers/utils. *)
Context (Has : list string -> string -> bool).

(** Health.Healthy: the loop over the map, counting the entries that are
    true and not excepted. *)
Definition Healthy (h : gmap string bool) (except : list string) : nat :=
  map_fold (λ n v z, if negb (Has except n) && v then S z else z) 0 h.

End Healthy.

(** What GetConnection answers for an agent id, and the ids it was asked
    for, in call order. *)
Record SetMembersOutcome := {
  members : agentSet;
  setErr : option error;
  asked : list string
}.

(** The [for _, id := range agency.IDs] loop of SetMembers. *)
Fixpoint addMembers (getConnection : string -> result Connection) (ids : list string)
    (cs : gmap string Connection) : gmap string Connection * option error * list string :=
  match ids with
  | [] => (cs, None, [])
  | id :: rest =>
      match cs !! id with
      | Some _ => addMembers getConnection rest cs
      | None =>
          match getConnection id with
          | Err e => (cs, Some e, [id])
          | Ok c =>
              let '(cs', e, calls) := addMembers getConnection rest (<[id := c]> cs) in
              (cs', e, id :: calls)
          end
      end
  end.

(** agentSet.SetMembers; [agency] is [status.Agency], a pointer to the list
    of agent ids. *)
Definition SetMembers (getConnection : string -> result Connection)
    (agency : option (list string)) (a : agentSet) : SetMembersOutcome :=
  match agency with
  | None => {| members := a; setErr := None; asked := [] |}
  | Some ids =>
      let '(cs, e, calls) := addMembers getConnection ids (clients a) in
      {| members := {| clients := cs; health := health a; result_ := result_ a |};
         setErr := e; asked := calls |}
  end.

(** *** Facts about SetMembers *)

Lemma addMembers_spec getConnection ids : ∀ cs cs' e calls,
  addMembers getConnection ids cs = (cs', e, calls) →
  cs ⊆ cs' ∧
  NoDup calls ∧
  (∀ id, id ∈ calls → cs !! id = None ∧ id ∈ ids) ∧
  (∀ id, is_Some (cs' !! id) → is_Some (cs !! id) ∨ id ∈ calls) ∧
  (e = None → ∀ id, id ∈ ids → is_Some (cs' !! id)).
Proof.
  induction ids as [|id rest IH]; intros cs cs' e calls; simpl.
  - intros [= <- <- <-]. split; [done|]. split; [constructor|].
    split; [by intros id Hin; apply elem_of_nil in Hin|].
    split; [by left|]. intros _ id Hin. by apply elem_of_nil in Hin.
  - destruct (cs !! id) as [c|] eqn:Hid.
    + intros H. apply IH in H as (Hsub & Hnd & Hcalls & Hdom & Hok).
      split; [done|]. split; [done|]. split; [|split; [done|]].
      * intros id' Hin. destruct (Hcalls id' Hin). split; [done|by right].
      * intros -> id' Hin. apply elem_of_cons in Hin as [->|Hin]; [|by apply Hok].
        eapply lookup_weaken_is_Some; [|done]. eauto.
    + destruct (getConnection id) as [c|err].
      * destruct (addMembers getConnection rest (<[id:=c]> cs)) as [[cs1 e1] calls1] eqn:Hrec.
        intros [= <- <- <-]. apply IH in Hrec as (Hsub & Hnd & Hcalls & Hdom & Hok).
        split; [|split; [|split; [|split]]].
        -- etrans; [|done]. by apply insert_subseteq.
        -- constructor; [|done]. intros Hin. destruct (Hcalls id Hin) as [Hnone _].
           by rewrite lookup_insert_eq in Hnone.
        -- intros id' Hin. apply elem_of_cons in Hin as [->|Hin]; [split; [done|by left]|].
           destruct (Hcalls id' Hin) as [Hnone Hrest]. split; [|by right].
           destruct (decide (id = id')) as [->|Hne];
             [by rewrite lookup_insert_eq in Hnone|by rewrite lookup_insert_ne in Hnone].
        -- intros id' Hsome. destruct (Hdom id' Hsome) as [Hs|Hin]; [|right; by right].
           destruct (decide (id = id')) as [->|Hne]; [right; by left|].
           left. by rewrite lookup_insert_ne in Hs.
        -- intros -> id' Hin. apply elem_of_cons in Hin as [->|Hin]; [|by apply Hok].
           eapply lookup_weaken_is_Some; [|done]. rewrite lookup_insert_eq. eauto.
      * intros [= <- <- <-]. split; [done|]. split; [apply NoDup_singleton|].
        split; [|split; [by left|done]].
        intros id' Hin. apply list_elem_of_singleton in Hin as ->. split; [done|by left].
Qed.

Lemma addMembers_known getConnection ids (cs : gmap string Connection) :
  (∀ id, id ∈ ids → is_Some (cs !! id)) →
  addMembers getConnection ids cs = (cs, None, []).
Proof.
  induction ids as [|id rest IH]; intros Hknown; simpl; [done|].
  destruct (Hknown id) as [c ->]; [by left|].
  apply IH. intros id' Hin. apply Hknown. by right.
Qed.

(** X1: SetMembers never replaces or drops a connection it already has, also
    when it fails half way; it asks GetConnection only for ids it does not
    know yet, once each, and leaves health and leader alone. *)
Theorem SetMembers_keeps_known getConnection agency (a : agentSet) :
  let out := SetMembers getConnection agency a in
  (∀ id c, clients a !! id = Some c → clients (members out) !! id = Some c) ∧
  NoDup (asked out) ∧
  (∀ id, id ∈ asked out → clients a !! id = None) ∧
  (∀ id, is_Some (clients (members out) !! id) →
         is_Some (clients a !! id) ∨ id ∈ asked out) ∧
  health (members out) = health a ∧ result_ (members out) = result_ a.
Proof.
  unfold SetMembers. destruct agency as [ids|]; simpl.
  - destruct (addMembers getConnection ids (clients a)) as [[cs e] calls] eqn:Hadd.
    apply addMembers_spec in Hadd as (Hsub & Hnd & Hcalls & Hdom & _). simpl.
    split; [|split; [done|split; [|done]]].
    + intros id c Hc. by eapply lookup_weaken.
    + intros id Hin. by destruct (Hcalls id Hin).
  - split; [done|]. split; [constructor|]. split; [|split; [by left|done]].
    intros id Hin. by apply elem_of_nil in Hin.
Qed.

(** X2: After a SetMembers without error every listed agent has a connection,
    and a second SetMembers for the same status asks for no connection and
    changes nothing, whatever GetConnection would answer by then. *)
Theorem SetMembers_idempotent getConnection getConnection' ids (a : agentSet) :
  setErr (SetMembers getConnection (Some ids) a) = None →
  let a1 := members (SetMembers getConnection (Some ids) a) in
  (∀ id, id ∈ ids → is_Some (clients a1 !! id)) ∧
  SetMembers getConnection' (Some ids) a1 =
    {| members := a1; setErr := None; asked := [] |}.
Proof.
  unfold SetMembers.
  destruct (addMembers getConnection ids (clients a)) as [[cs e] calls] eqn:Hadd.
  simpl. intros ->.
  apply addMembers_spec in Hadd as (_ & _ & _ & _ & Hok).
  specialize (Hok eq_refl). split; [done|].
  by rewrite addMembers_known.
Qed.

(** X3: A SetMembers that fails has stopped at the first unknown id that could
    not be connected: that id is the last one asked for and it is still
    without connection, while the ids connected before it stay. *)
Theorem SetMembers_failure getConnection ids (a : agentSet) e :
  setErr (SetMembers getConnection (Some ids) a) = Some e →
  ∃ id before,
    asked (SetMembers getConnection (Some ids) a) = (before ++ [id])%list ∧
    getConnection id = Err e ∧
    clients (members (SetMembers getConnection (Some ids) a)) !! id = None ∧
    ∀ id', id' ∈ before →
      ∃ c, getConnection id' = Ok c ∧
           clients (members (SetMembers getConnection (Some ids) a)) !! id' = Some c.
Proof.
  unfold SetMembers.
  destruct (addMembers getConnection ids (clients a)) as [[cs e'] calls] eqn:Hadd.
  simpl. intros ->. revert Hadd. generalize (clients a). clear a.
  revert cs calls. induction ids as [|id rest IH]; intros cs calls cs0; simpl; [done|].
  destruct (cs0 !! id) as [c|] eqn:Hid; [by apply IH|].
  destruct (getConnection id) as [c|err] eqn:Hget.
  - destruct (addMembers getConnection rest (<[id:=c]> cs0)) as [[cs1 e1] calls1] eqn:Hrec.
    intros [= <- -> <-].
    pose proof (addMembers_spec _ _ _ _ _ _ Hrec) as (Hsub & _ & _ & _ & _).
    apply IH in Hrec as (idf & before & -> & Hf & Hnone & Hbefore).
    exists idf, (id :: before). split; [done|]. split; [done|]. split; [done|].
    intros id' Hin. apply elem_of_cons in Hin as [->|Hin]; [|by apply Hbefore].
    exists c. split; [done|]. eapply lookup_weaken; [|done]. by rewrite lookup_insert_eq.
  - intros [= <- <- <-]. exists id, []. split; [done|]. split; [congruence|].
    split; [done|]. intros id' Hin. by apply elem_of_nil in Hin.
Qed.

(** *** Facts about Healthy *)

Section HealthyFacts.

Context (Has : list string -> string -> bool).
Context (Has_spec : ∀ l x, Has l x = true ↔ x ∈ l).

(** The count does not depend on the order in which the map is ranged
    over: it is the number of entries that are true and not excepted. *)
Lemma Healthy_size (h : gmap string bool) (except : list string) :
  Healthy Has h except =
  size (filter (λ kv : string * bool, (fst kv ∉ except) ∧ snd kv = true) h).
Proof.
  unfold Healthy.
  apply (map_fold_weak_ind
           (λ r m, r = size (filter (λ kv : string * bool, (fst kv ∉ except) ∧ snd kv = true) m))).
  - by rewrite map_filter_empty, map_size_empty.
  - intros i x m r Hi ->.
    destruct (negb (Has except i) && x) eqn:Htest.
    + apply andb_true_iff in Htest as [Hex ->]. apply negb_true_iff in Hex.
      rewrite map_filter_insert_True.
      * rewrite map_size_insert_None; [done|].
        apply map_lookup_filter_None. by left.
      * split; [|done]. simpl. intros Hin. apply Has_spec in Hin. congruence.
    + rewrite map_filter_insert_not'.
      * done.
      * simpl. intros [Hnin ->]. rewrite andb_true_r in Htest.
        apply negb_false_iff, Has_spec in Htest. done.
      * intros y Hy. congruence.
Qed.

Lemma Healthy_le_size (h : gmap string bool) (except : list string) :
  (Healthy Has h except ≤ size h)%nat.
Proof. rewrite Healthy_size. apply map_subseteq_size, map_filter_subseteq. Qed.

End HealthyFacts.

(** *** Facts about refresh and Reload *)

Section RefreshFacts.

Context {State : Type}.
Implicit Types (w : @World State) (a : agentSet) (c : @cache State).

(** The agent [k] answered without error and names [l] as the leader. *)
Definition names w a (k l : string) : Prop :=
  ∃ conn cfg, clients a !! k = Some conn ∧ getAgencyConfig w conn = Ok cfg ∧
              LeaderId cfg = Some l.

Lemma findLeader_names w a order l :
  findLeader (getAgencyConfigResults w (clients a)) order = Some l →
  ∃ k, k ∈ order ∧ names w a k l.
Proof.
  induction order as [|k rest IH]; simpl; [done|].
  rewrite lookup_results.
  destruct (clients a !! k) as [conn|] eqn:Hk; simpl.
  - unfold getAgencyConfigResult.
    destruct (getAgencyConfig w conn) as [cfg|e] eqn:Hcfg; simpl.
    + destruct (LeaderId cfg) as [l'|] eqn:Hl.
      * intros [= ->]. exists k. split; [by left|]. by exists conn, cfg.
      * intros H. destruct (IH H) as (k' & Hin & Hn). exists k'. split; [by right|done].
    + intros H. destruct (IH H) as (k' & Hin & Hn). exists k'. split; [by right|done].
  - intros H. destruct (IH H) as (k' & Hin & Hn). exists k'. split; [by right|done].
Qed.

Lemma findLeader_nobody w a order :
  findLeader (getAgencyConfigResults w (clients a)) order = None →
  ∀ k l, k ∈ order → ¬ names w a k l.
Proof.
  induction order as [|k rest IH]; simpl.
  - intros _ k l Hin. by apply elem_of_nil in Hin.
  - rewrite lookup_results. intros H k' l Hin (conn & cfg & Hc & Hcfg & Hl).
    apply elem_of_cons in Hin as [->|Hin].
    + rewrite Hc in H. simpl in H. unfold getAgencyConfigResult in H.
      rewrite Hcfg in H. simpl in H. by rewrite Hl in H.
    + assert (findLeader (getAgencyConfigResults w (clients a)) rest = None) as Hrest.
      { destruct (clients a !! k) as [conn'|]; simpl in H; [|done].
        unfold getAgencyConfigResult in H.
        destruct (getAgencyConfig w conn') as [cfg'|]; simpl in H; [|done].
        by destruct (LeaderId cfg'). }
      by eapply (IH Hrest k' l Hin); exists conn, cfg.
Qed.

(** A refresh reads the connections of the set and nothing else of it. *)
Lemma refresh_reads_clients w a1 a2 :
  clients a1 = clients a2 → refresh w a1 = refresh w a2.
Proof. intros H. unfold refresh. by rewrite H. Qed.

Lemma refresh_clients w a : clients (refresh w a).1 = clients a.
Proof.
  unfold refresh.
  repeat (match goal with
          | |- context [match ?x with _ => _ end] => destruct x
          end; simpl); done.
Qed.

Lemma markActive_true r (l : list string) (h : gmap string bool) :
  (∀ id v, h !! id = Some v → v = true) →
  ∀ id v, foldl (markActive r) h l !! id = Some v → v = true.
Proof.
  revert h. induction l as [|z l IH]; intros h Hh; simpl; [done|].
  apply IH. intros id v. unfold markActive.
  destruct (r !! z) as [q|]; [|by apply Hh].
  destruct (acr_err q); [by apply Hh|].
  destruct (decide (z = id)) as [->|Hne].
  - rewrite lookup_insert_eq. congruence.
  - rewrite lookup_insert_ne by done. apply Hh.
Qed.

(** After a successful refresh every entry of the health map is true, and
    belongs to an agent of the set that answered. *)
Lemma health_entries w a a' :
  refresh w a = (a', None) →
  ∀ id v, Health a' !! id = Some v → v = true ∧ responded w a id.
Proof.
  intros Hr id v Hv.
  destruct (refresh_success _ _ _ Hr) as (leader & res & cfg & _ & Hres & Herr & _ & ->).
  unfold Health in Hv. simpl in Hv.
  assert (v = true) as ->.
  { eapply markActive_true; [|exact Hv]. intros id' v'.
    destruct (decide (leader = id')) as [->|Hne].
    - rewrite lookup_insert_eq. congruence.
    - by rewrite lookup_insert_ne. }
  split; [done|]. apply markActive_healthy in Hv as [Hl|[_ Hq]].
  - destruct (decide (leader = id)) as [->|Hne].
    + apply no_error_responded. eauto.
    + by rewrite lookup_insert_ne in Hl.
  - by apply no_error_responded.
Qed.

(** X4: After a successful refresh, Healthy without exceptions counts every
    entry of the health map; that number is at least one (the leader) and at
    most Size; excepting the leader gives one less. *)
Theorem Healthy_after_refresh (Has : list string -> string -> bool) w a a' z :
  (∀ l x, Has l x = true ↔ x ∈ l) →
  refresh w a = (a', None) → result_ a' = Some z →
  Healthy Has (Health a') [] = size (Health a') ∧
  (1 ≤ size (Health a') ≤ Size a')%nat ∧
  Healthy Has (Health a') [asr_id z] = (size (Health a') - 1)%nat.
Proof.
  intros HHas Hr Hz.
  pose proof (health_entries w a a' Hr) as Hent.
  assert (Hleader : Health a' !! asr_id z = Some true).
  { destruct (refresh_success _ _ _ Hr) as (leader & res & cfg & _ & _ & _ & _ & ->).
    simpl in Hz. injection Hz as <-. unfold Health. simpl.
    apply markActive_healthy. left. by rewrite lookup_insert_eq. }
  split; [|split; [split|]].
  - rewrite (Healthy_size Has HHas). f_equal. apply map_filter_id.
    intros id v Hv. simpl. split; [by intros Hin; apply elem_of_nil in Hin|].
    by destruct (Hent id v Hv).
  - assert (size (Health a') ≠ 0); [|lia].
    apply map_size_non_empty_iff. intros Hempty.
    by rewrite Hempty, lookup_empty in Hleader.
  - unfold Size. rewrite <- !(size_dom (D := gset string)).
    apply subseteq_size. intros id Hid.
    apply elem_of_dom in Hid as [v Hv]. destruct (Hent id v Hv) as [_ (conn & cfg & Hc & _)].
    apply elem_of_dom. apply (f_equal fst) in Hr. simpl in Hr.
    rewrite <- Hr, refresh_clients. eauto.
  - rewrite (Healthy_size Has HHas).
    assert (filter (λ kv : string * bool, (fst kv ∉ [asr_id z]) ∧ snd kv = true) (Health a')
            = delete (asr_id z) (Health a')) as ->.
    { apply map_eq. intros id. apply option_eq. intros v.
      rewrite map_lookup_filter_Some. simpl. rewrite list_elem_of_singleton.
      destruct (decide (asr_id z = id)) as [<-|Hne].
      - rewrite lookup_delete_eq. split; [by intros (_ & Hn & _)|done].
      - rewrite lookup_delete_ne by done. split; [by intros [? _]|].
        intros Hv. split; [done|]. split; [congruence|]. by destruct (Hent id v Hv). }
    rewrite map_size_delete_Some by eauto. lia.
Qed.

(** X5: A refresh that fails, for whatever reason, leaves an empty health map
    and no leader, also when the set had both from an earlier refresh; the
    connections stay. *)
Theorem refresh_failure_forgets w a a' e :
  refresh w a = (a', Some e) →
  Health a' = ∅ ∧ Leader a' = ("", 0%N, None, false) ∧ clients a' = clients a ∧
  ∀ Has except, Healthy Has (Health a') except = 0.
Proof.
  intros Hr. apply refresh_failure in Hr as ->. unfold Health, Leader. simpl.
  split; [done|]. split; [done|]. split; [done|].
  intros Has except. unfold Healthy. apply map_fold_empty.
Qed.

(** X6: The leader a successful refresh stores is an agent of the set whose own
    config request succeeded; the stored config and commit index are the
    ones that agent returned itself, not those of the agent that named it;
    and some agent visited by the range loop did name it. *)
Theorem refresh_leader_is_known_agent w a a' z :
  refresh w a = (a', None) → result_ a' = Some z →
  (∃ conn, clients a !! asr_id z = Some conn ∧
           getAgencyConfig w conn = Ok (asr_result z)) ∧
  (∃ k, k ∈ rangeOrder w ∧ names w a k (asr_id z)) ∧
  Leader a' = (asr_id z, CommitIndex (asr_result z), None, true).
Proof.
  intros Hr Hz.
  destruct (refresh_success _ _ _ Hr) as (leader & res & cfg & Hfind & Hres & Herr & Hcfg & ->).
  simpl in *. injection Hz as <-. simpl. split; [|split; [|done]].
  - rewrite lookup_results in Hres.
    destruct (clients a !! leader) as [conn|]; simpl in Hres; [|done].
    injection Hres as <-. exists conn. split; [done|]. by apply result_config.
  - by apply findLeader_names.
Qed.

(** X7: When the agents that answer agree on who leads, the order in which Go
    ranges over the result map does not matter: two worlds that differ in
    that order only give the same refresh. *)
Theorem refresh_order_irrelevant w1 w2 a (L : string) :
  getAgencyConfig w1 = getAgencyConfig w2 →
  rangeOrder w1 ≡ₚ rangeOrder w2 →
  (∀ k l, names w1 a k l → l = L) →
  refresh w1 a = refresh w2 a.
Proof.
  intros Hcfg Hperm Hagree.
  assert (Hr : getAgencyConfigResults w2 (clients a) = getAgencyConfigResults w1 (clients a)).
  { unfold getAgencyConfigResults, getAgencyConfigResult. by rewrite Hcfg. }
  assert (Hn : ∀ k l, names w2 a k l ↔ names w1 a k l).
  { intros k l. unfold names. by rewrite Hcfg. }
  assert (findLeader (getAgencyConfigResults w1 (clients a)) (rangeOrder w1)
          = findLeader (getAgencyConfigResults w2 (clients a)) (rangeOrder w2)) as Hsame.
  { destruct (findLeader _ (rangeOrder w1)) as [l1|] eqn:H1;
      destruct (findLeader _ (rangeOrder w2)) as [l2|] eqn:H2; [| | |done].
    - apply findLeader_names in H1 as (k1 & _ & Hn1).
      apply findLeader_names in H2 as (k2 & _ & Hn2). apply Hn in Hn2.
      by rewrite (Hagree _ _ Hn1), (Hagree _ _ Hn2).
    - apply findLeader_names in H1 as (k1 & Hin & Hn1).
      destruct (findLeader_nobody _ _ _ H2 k1 l1); [by rewrite <- Hperm|by apply Hn].
    - apply findLeader_names in H2 as (k2 & Hin & Hn2).
      destruct (findLeader_nobody _ _ _ H1 k2 l2); [by rewrite Hperm|by apply Hn]. }
  unfold refresh. by rewrite Hsame, Hr.
Qed.

Lemma observed_after_refresh w w' c :
  observed w' (after (Reload w c)) = observed w' c.
Proof.
  unfold observed.
  assert (clients (set (after (Reload w c))) = clients (set c)) as Hc.
  { unfold Reload. pose proof (refresh_clients w (set c)) as Hcl.
    destruct (refresh w (set c)) as [s [e|]]; simpl in *; [done|].
    destruct (Leader s) as [[[? ci] conn] ok]. destruct (negb ok); [done|].
    destruct (_ && _); [done|]. by destruct (loadState w conn). }
  by rewrite (refresh_reads_clients w' _ _ Hc).
Qed.

(** X8: When the state fetch fails, Reload returns the discovered index with
    the error, keeps the old data and the old cached index and marks the
    cache invalid; the next Reload that finds a leader then fetches again,
    whatever index it observes. *)
Theorem Reload_fetch_failure w c ci e :
  observed w c = Some ci →
  (ci =? commitIndex c)%N && valid c = false →
  loadState w None = Err e →
  index (Reload w c) = ci ∧ failure (Reload w c) = Some e ∧
  fetched (Reload w c) = [None] ∧
  Data (after (Reload w c)) = (data c, false) ∧
  commitIndex (after (Reload w c)) = commitIndex c ∧
  ∀ w' ci', observed w' (after (Reload w c)) = Some ci' →
            fetched (Reload w' (after (Reload w c))) = [None].
Proof.
  intros Hobs Hdiff Hload.
  assert (Hre : Reload w c =
    {| after := {| valid := false; commitIndex := commitIndex c; data := data c;
                   set := (refresh w (set c)).1 |};
       index := ci; failure := Some e; fetched := [None] |}).
  { apply observed_some in Hobs as (s & id & Hr & Hl).
    unfold Reload. rewrite Hr, Hl. simpl. by rewrite Hdiff, Hload. }
  rewrite Hre. simpl. repeat (split; [done|]).
  intros w' ci' Hobs'. apply observed_some in Hobs' as (s' & id' & Hr' & Hl').
  simpl in Hr'. unfold Reload. simpl. rewrite Hr', Hl'. simpl.
  rewrite andb_false_r. by destruct (loadState w' None).
Qed.

(** X9: A Reload that returned without error is not repeated by a second
    Reload against the same answers: the second one fetches nothing and
    returns the same index with the same data. *)
Theorem Reload_twice w c :
  failure (Reload w c) = None →
  fetched (Reload w (after (Reload w c))) = [] ∧
  failure (Reload w (after (Reload w c))) = None ∧
  index (Reload w (after (Reload w c))) = index (Reload w c) ∧
  Data (after (Reload w (after (Reload w c)))) = Data (after (Reload w c)) ∧
  valid (after (Reload w c)) = true ∧
  commitIndex (after (Reload w c)) = index (Reload w c).
Proof.
  intros Hok.
  assert (∃ ci, observed w c = Some ci ∧ index (Reload w c) = ci ∧
                valid (after (Reload w c)) = true ∧
                commitIndex (after (Reload w c)) = ci) as (ci & Hobs & Hidx & Hv & Hci).
  { unfold Reload, observed in *.
    destruct (refresh w (set c)) as [s [e|]] eqn:Hr; [done|].
    destruct (refresh_success _ _ _ Hr) as (leader & res & cfg & _ & _ & _ & _ & ->).
    unfold Leader in *. simpl in *. exists (CommitIndex cfg). split; [done|].
    destruct ((CommitIndex cfg =? commitIndex c)%N && valid c) eqn:Hsame; simpl.
    - apply andb_true_iff in Hsame as [Heq Hv]. apply N.eqb_eq in Heq. done.
    - destruct (loadState w None); [done|]. simpl in Hok. done. }
  pose proof (observed_after_refresh w w c) as Hobs2. rewrite Hobs, <- Hci in Hobs2.
  rewrite (Reload_same_index w _ Hobs2 Hv). simpl.
  rewrite Hidx, Hci. done.
Qed.

End RefreshFacts.

(** *** The three-agent agency again *)

Definition hasString (l : list string) (x : string) : bool := bool_decide (x ∈ l).

Lemma hasString_spec (l : list string) (x : string) : hasString l x = true ↔ x ∈ l.
Proof. unfold hasString. apply bool_decide_eq_true. Qed.

Example Healthy_three :
  let h := Health (refresh (world3 42 ["A"; "B"; "C"] "doc") set3).1 in
  (Healthy hasString h [], Healthy hasString h ["A"], Healthy hasString h ["A"; "B"])
  = (2, 1, 0).
Proof. vm_compute. reflexivity. Qed.

Definition connect (id : string) : result Connection := Ok ("http://" +:+ id +:+ ":8529").

Definition connectButB (id : string) : result Connection :=
  if String.eqb id "B" then Err "no endpoint" else connect id.

Definition noAgents : agentSet := {| clients := ∅; health := ∅; result_ := None |}.

Example SetMembers_partial :
  let out := SetMembers connectButB (Some ["A"; "B"; "C"]) noAgents in
  (setErr out, asked out, clients (members out))
  = (Some "no endpoint", ["A"; "B"], {["A" := "http://A:8529"]}).
Proof. vm_compute. reflexivity. Qed.

(** X2, witness. *)
Lemma SetMembers_idempotent_witness :
  (∀ id, id ∈ ["A"; "B"] →
         is_Some (clients (members (SetMembers connect (Some ["A"; "B"]) noAgents)) !! id)) ∧
  SetMembers connectButB (Some ["A"; "B"])
    (members (SetMembers connect (Some ["A"; "B"]) noAgents)) =
    {| members := members (SetMembers connect (Some ["A"; "B"]) noAgents);
       setErr := None; asked := [] |}.
Proof.
  apply (SetMembers_idempotent connect connectButB ["A"; "B"] noAgents).
  vm_compute. reflexivity.
Defined.

(** X3, witness. *)
Lemma SetMembers_failure_witness :
  ∃ id before,
    asked (SetMembers connectButB (Some ["A"; "B"; "C"]) noAgents) = (before ++ [id])%list ∧
    connectButB id = Err "no endpoint" ∧
    clients (members (SetMembers connectButB (Some ["A"; "B"; "C"]) noAgents)) !! id = None ∧
    ∀ id', id' ∈ before →
      ∃ c, connectButB id' = Ok c ∧
           clients (members (SetMembers connectButB (Some ["A"; "B"; "C"]) noAgents)) !! id'
           = Some c.
Proof.
  apply (SetMembers_failure connectButB ["A"; "B"; "C"] noAgents "no endpoint").
  vm_compute. reflexivity.
Defined.

(** X4, witness. *)
Lemma Healthy_after_refresh_witness :
  Healthy hasString (Health (refresh (world3 42 ["A"; "B"; "C"] "doc") set3).1) []
    = size (Health (refresh (world3 42 ["A"; "B"; "C"] "doc") set3).1) ∧
  (1 ≤ size (Health (refresh (world3 42 ["A"; "B"; "C"] "doc") set3).1)
     ≤ Size (refresh (world3 42 ["A"; "B"; "C"] "doc") set3).1)%nat ∧
  Healthy hasString (Health (refresh (world3 42 ["A"; "B"; "C"] "doc") set3).1) ["A"]
    = (size (Health (refresh (world3 42 ["A"; "B"; "C"] "doc") set3).1) - 1)%nat.
Proof.
  apply (Healthy_after_refresh hasString (world3 42 ["A"; "B"; "C"] "doc") set3
           (refresh (world3 42 ["A"; "B"; "C"] "doc") set3).1
           {| asr_id := "A"; asr_result := configOf "A" 42 ["A"; "B"; "C"] "A";
              asr_conn := None |}).
  - exact hasString_spec.
  - vm_compute. reflexivity.
  - vm_compute. reflexivity.
Defined.

(** A set that had found leader A and then meets an agency without
    leader. *)
Definition set3Led : agentSet := (refresh (world3 42 ["A"; "B"; "C"] "doc") set3).1.

(** X5, witness. *)
Lemma refresh_failure_forgets_witness :
  Health (refresh (@worldNoLeader) set3Led).1 = ∅ ∧
  Leader (refresh (@worldNoLeader) set3Led).1 = ("", 0%N, None, false) ∧
  clients (refresh (@worldNoLeader) set3Led).1 = clients set3Led ∧
  ∀ Has except, Healthy Has (Health (refresh (@worldNoLeader) set3Led).1) except = 0.
Proof.
  apply (refresh_failure_forgets worldNoLeader set3Led
           (refresh worldNoLeader set3Led).1 "NoLeader in Agency").
  vm_compute. reflexivity.
Defined.

(** X6, witness. *)
Lemma refresh_leader_is_known_agent_witness :
  (∃ conn, clients set3 !! "A" = Some conn ∧
           getAgencyConfig (world3 42 ["B"; "C"] "doc") conn
           = Ok (configOf "A" 42 ["B"; "C"] "A")) ∧
  (∃ k, k ∈ rangeOrder (world3 42 ["B"; "C"] "doc") ∧
        names (world3 42 ["B"; "C"] "doc") set3 k "A") ∧
  Leader (refresh (world3 42 ["B"; "C"] "doc") set3).1 = ("A", 42%N, None, true).
Proof.
  apply (refresh_leader_is_known_agent (world3 42 ["B"; "C"] "doc") set3
           (refresh (world3 42 ["B"; "C"] "doc") set3).1
           {| asr_id := "A"; asr_result := configOf "A" 42 ["B"; "C"] "A";
              asr_conn := None |}).
  - vm_compute. reflexivity.
  - vm_compute. reflexivity.
Defined.

(** The same agency ranged over in another order. *)
Definition world3' (ci : N) (active : list string) (doc : string) : @World string :=
  {| getAgencyConfig := getAgencyConfig (world3 ci active doc);
     rangeOrder := ["B"; "C"; "A"];
     loadState := loadState (world3 ci active doc) |}.

(** X7, witness. *)
Lemma refresh_order_irrelevant_witness :
  refresh (world3 42 ["A"; "B"; "C"] "doc") set3
  = refresh (world3' 42 ["A"; "B"; "C"] "doc") set3.
Proof.
  apply (refresh_order_irrelevant (world3 42 ["A"; "B"; "C"] "doc")
           (world3' 42 ["A"; "B"; "C"] "doc") set3 "A").
  - reflexivity.
  - simpl. apply perm_swap.
  - intros k l (conn & cfg & _ & Hcfg & Hl). simpl in Hcfg.
    destruct (String.eqb conn "http://a:8529");
      [|destruct (String.eqb conn "http://b:8529"); [|discriminate Hcfg]];
      injection Hcfg as <-; simpl in Hl; congruence.
Defined.

(** The agency is found, but the state read fails. *)
Definition world3NoState (ci : N) : @World string :=
  {| getAgencyConfig := getAgencyConfig (world3 ci ["A"; "B"; "C"] "doc");
     rangeOrder := ["C"; "B"; "A"];
     loadState := λ _, Err "503" |}.

(** X8, witness. *)
Lemma Reload_fetch_failure_witness :
  index (Reload (world3NoState 43) (cacheAt 42 "old")) = 43%N ∧
  failure (Reload (world3NoState 43) (cacheAt 42 "old")) = Some "503" ∧
  fetched (Reload (world3NoState 43) (cacheAt 42 "old")) = [None] ∧
  Data (after (Reload (world3NoState 43) (cacheAt 42 "old"))) = ("old", false) ∧
  commitIndex (after (Reload (world3NoState 43) (cacheAt 42 "old"))) = 42%N ∧
  ∀ (w' : @World string) ci',
    observed w' (after (Reload (world3NoState 43) (cacheAt 42 "old"))) = Some ci' →
    fetched (Reload w' (after (Reload (world3NoState 43) (cacheAt 42 "old")))) = [None].
Proof.
  apply (Reload_fetch_failure (world3NoState 43) (cacheAt 42 "old") 43%N "503").
  - vm_compute. reflexivity.
  - reflexivity.
  - reflexivity.
Defined.

(** X9, witness. *)
Lemma Reload_twice_witness :
  let w := world3 43 ["A"; "B"; "C"] "new" in
  let c := cacheAt 42 "old" in
  fetched (Reload w (after (Reload w c))) = [] ∧
  failure (Reload w (after (Reload w c))) = None ∧
  index (Reload w (after (Reload w c))) = index (Reload w c) ∧
  Data (after (Reload w (after (Reload w c)))) = Data (after (Reload w c)) ∧
  valid (after (Reload w c)) = true ∧
  commitIndex (after (Reload w c)) = index (Reload w c).
Proof.
  apply (Reload_twice (world3 43 ["A"; "B"; "C"] "new") (cacheAt 42 "old")).
  vm_compute. reflexivity.
Defined.

End AgentSet.

(** * pkg/util/arangod/conn: what the wrapper never does *)
Module ConnFacts.
Import Conn.

Section WithNetwork.

Context {W : Type}.
Context (net : @Network W).

(** authenticate.SetAuthentication *)
Definition SetAuthentication (a : authenticate) (auth : Authentication)
  : Net (option error * authenticate) :=
  λ w, let '(r, w', l) := callSetAuthentication net (base a) auth w in
       match r with
       | Err e => ((Some e, a), w', l)
       | Ok z => ((None, {| base := base a; conn := z |}), w', l)
       end.

Definition setsOn (b : Connection) (e : event) : Prop :=
  match e with
  | EvSetAuthentication c _ => c = b
  | _ => True
  end.

Definition sends (req : Request) (c1 c2 : Connection) (e : event) : Prop :=
  match e with
  | EvDo c r => r = req ∧ (c = c1 ∨ c = c2)
  | _ => True
  end.

Lemma Reauthenticate_log (a : authenticate) (w : W) :
  Forall (λ e, setsOn (base a) e ∧ isDo e = false) (Reauthenticate net a w).2.
Proof.
  unfold Reauthenticate, bind, callAuth, callSetAuthentication, ret.
  destruct (netAuth net w) as [[auth|e] w1]; simpl.
  - destruct (netSetAuthentication net (base a) auth w1) as [[c|e] w2]; simpl;
      repeat constructor.
  - repeat constructor.
Qed.

(** X10: Whatever the peers answer, one Do sends the request it was given and
    nothing else, once or twice, the first time on the current connection;
    it asks for credentials at most once, applies them to the wrapped base
    connection only and never replaces that base; without a refresh the
    wrapper is unchanged. *)
Theorem Do_discipline (a : authenticate) (req : Request) (w : W) :
  let a' := (Do net a req w).1.1.2 in
  let log := (Do net a req w).2 in
  base a' = base a ∧
  (1 ≤ doCalls log ≤ 2)%nat ∧ (authCalls log ≤ 1)%nat ∧
  head log = Some (EvDo (conn a) req) ∧
  Forall (setsOn (base a)) log ∧
  Forall (sends req (conn a) (conn a')) log ∧
  (authCalls log = 0%nat → a' = a).
Proof.
  unfold Do, bind, callDo, ret.
  destruct (netDo net (conn a) req w) as [[resp|e] w1]; simpl.
  - destruct (negb (StatusCode resp =? StatusUnauthorized)%Z); simpl.
    + repeat split; try lia; repeat constructor; auto.
    + pose proof (Reauthenticate_calls net a w1) as [Hauth Hdo].
      pose proof (Reauthenticate_base net a w1) as Hbase.
      pose proof (Reauthenticate_log a w1) as Hlog.
      destruct (Reauthenticate net a w1) as [[[rerr a1] w2] alog]. simpl in *.
      assert (Hsets : Forall (setsOn (base a)) alog)
        by (eapply List.Forall_impl; [|exact Hlog]; by intros ? [? ?]).
      assert (Hsends : Forall (sends req (conn a) (conn a1)) alog).
      { eapply List.Forall_impl; [|exact Hlog]. intros [c r| |c au] [_ Hd]; simpl in *; done. }
      unfold authCalls, doCalls in *.
      destruct rerr as [err|]; simpl.
      * rewrite app_nil_r, Hauth, Hdo.
        repeat split; try lia; try done; constructor; simpl; auto.
      * destruct (netDo net (conn a1) req w2) as [r2 w3]; simpl.
        rewrite !List.filter_app, !length_app, Hauth, Hdo. simpl.
        repeat split; try lia; try done.
        -- constructor; [done|]. apply Forall_app. split; [done|]. repeat constructor.
        -- constructor; [simpl; auto|]. apply Forall_app. split; [done|].
           constructor; [simpl; split; [done|by right]|constructor].
  - repeat split; try lia; repeat constructor; auto.
Qed.

Lemma Reauthenticate_ignores_current (a1 a2 : authenticate) (w : W) :
  base a1 = base a2 →
  (Reauthenticate net a1 w).1.1.1 = (Reauthenticate net a2 w).1.1.1 ∧
  (Reauthenticate net a1 w).1.2 = (Reauthenticate net a2 w).1.2 ∧
  (Reauthenticate net a1 w).2 = (Reauthenticate net a2 w).2 ∧
  ((Reauthenticate net a1 w).1.1.1 = None →
     (Reauthenticate net a1 w).1.1.2 = (Reauthenticate net a2 w).1.1.2).
Proof.
  intros Hb. unfold Reauthenticate, bind, callAuth, callSetAuthentication, ret.
  rewrite Hb.
  destruct (netAuth net w) as [[auth|e] w1]; simpl.
  - destruct (netSetAuthentication net (base a2) auth w1) as [[c|e] w2]; simpl.
    + repeat split; done.
    + repeat split; done.
  - repeat split; done.
Qed.

(** X11: SetAuthentication applies the credentials to the wrapped base
    connection and keeps that base.  The credentials set this way do not
    survive the next refresh: Reauthenticate builds the connection from the
    base and the fresh credentials alone, so it gives the same answer, world
    and calls as if SetAuthentication had not happened, and on success the
    same wrapper. *)
Theorem SetAuthentication_then_Reauthenticate (a : authenticate) (auth : Authentication)
    (w w' : W) :
  let a1 := (SetAuthentication a auth w).1.1.2 in
  base a1 = base a ∧
  (SetAuthentication a auth w).2 = [EvSetAuthentication (base a) auth] ∧
  (Reauthenticate net a1 w').1.1.1 = (Reauthenticate net a w').1.1.1 ∧
  (Reauthenticate net a1 w').1.2 = (Reauthenticate net a w').1.2 ∧
  (Reauthenticate net a1 w').2 = (Reauthenticate net a w').2 ∧
  ((Reauthenticate net a1 w').1.1.1 = None →
     (Reauthenticate net a1 w').1.1.2 = (Reauthenticate net a w').1.1.2).
Proof.
  assert (Hb : base (SetAuthentication a auth w).1.1.2 = base a).
  { unfold SetAuthentication, callSetAuthentication.
    by destruct (netSetAuthentication net (base a) auth w) as [[z|e] w1]. }
  split; [done|]. split.
  - unfold SetAuthentication, callSetAuthentication.
    by destruct (netSetAuthentication net (base a) auth w) as [[z|e] w1].
  - by apply Reauthenticate_ignores_current.
Qed.

End WithNetwork.

Example SetAuthentication_overridden :
  let a1 := (SetAuthentication (tokenNet true) (WrapAuthentication "arangod") "manual" 0).1.1.2 in
  (conn a1, conn (Reauthenticate (tokenNet true) a1 0).1.1.2)
  = ("arangod+manual", "arangod+jwt").
Proof. vm_compute. reflexivity. Qed.

End ConnFacts.

(** * pkg/util/k8sutil/inspector/throttle: the gate *)
Module ThrottleFacts.
Import Throttle.

(** What NewThrottle allocates for a delay. *)
Definition newObject (delay : Z) : object :=
  if (delay =? 0)%Z then alwaysThrottle 0 else throttle delay None 0.

Lemma NewThrottle_alloc (h : Heap) (delay : Z) :
  NewThrottle h delay = alloc h (newObject delay).
Proof. unfold NewThrottle, NewAlwaysThrottle, newObject. by destruct (delay =? 0)%Z. Qed.

Lemma incr_next (c : Z) : (- 2 ^ 63 <= c < 2 ^ 63 - 1)%Z → incr c = (c + 1)%Z.
Proof.
  intros Hc. unfold incr.
  rewrite Z.mod_small; lia.
Qed.

(** A timed throttle that was just delayed at [now] lets nothing through
    until strictly after [now + delay]; its counter went up by one (below
    the 64-bit limit) and no other throttle of the heap was touched. *)
Theorem Delay_closes_gate (h : Heap) (t : Throttle) (d c now : Z) (n : Time) :
  h !! t = Some (throttle d n c) →
  (∀ now', Throttle_ (Delay h t now) t now' = true ↔ (now + d < now')%Z) ∧
  Count (Delay h t now) t = incr c ∧
  ((0 <= c < 2 ^ 63 - 1)%Z → Count (Delay h t now) t = (Count h t + 1)%Z) ∧
  (∀ t2, t2 ≠ t → Delay h t now !! t2 = h !! t2).
Proof.
  intros Ht. unfold Delay, Throttle_, Count. rewrite Ht.
  split; [|split; [|split]].
  - intros now'. rewrite lookup_insert_eq. apply Z.ltb_lt.
  - by rewrite lookup_insert_eq.
  - intros Hc. rewrite lookup_insert_eq. apply incr_next. lia.
  - intros t2 Hne. by rewrite lookup_insert_ne.
Qed.

(** Invalidate opens a timed throttle again for every time after the
    epoch, whatever delay was pending, and keeps its delay and counter. *)
Theorem Invalidate_opens_gate (h : Heap) (t : Throttle) (d c now : Z) (n : Time) :
  h !! t = Some (throttle d n c) → (0 < now)%Z →
  Throttle_ (Invalidate h t) t now = true ∧
  Invalidate h t !! t = Some (throttle d (Some 0%Z) c) ∧
  Count (Invalidate h t) t = Count h t.
Proof.
  intros Ht Hnow. unfold Invalidate, Throttle_, Count. rewrite Ht, lookup_insert_eq.
  split; [by apply Z.ltb_lt|done].
Qed.

(** An alwaysThrottle never throttles: it is open before and after any
    Delay or Invalidate, Invalidate does not change it, its Copy is the
    object itself, and Delay only counts. *)
Theorem alwaysThrottle_never_closes (h : Heap) (t : Throttle) (c now now' : Z) :
  h !! t = Some (alwaysThrottle c) →
  Throttle_ h t now' = true ∧
  Throttle_ (Delay h t now) t now' = true ∧
  Invalidate h t = h ∧
  Copy h t = (h, t) ∧
  Delay h t now !! t = Some (alwaysThrottle (incr c)).
Proof.
  intros Ht. unfold Throttle_, Delay, Invalidate, Copy. rewrite Ht.
  by rewrite lookup_insert_eq.
Qed.

(** X12: The Copy of a timed throttle is a new object with the same delay, next
    time and counter; from then on the two are independent: a Delay or an
    Invalidate on one leaves the other as it was. *)
Theorem Copy_is_independent (h h' : Heap) (t t' : Throttle) (d c : Z) (n : Time) :
  h !! t = Some (throttle d n c) → Copy h t = (h', t') →
  t' ≠ t ∧ h !! t' = None ∧
  h' !! t' = Some (throttle d n c) ∧ h' !! t = Some (throttle d n c) ∧
  (∀ now, Delay h' t' now !! t = h !! t ∧ Invalidate h' t' !! t = h !! t) ∧
  (∀ now, Delay h' t now !! t' = Some (throttle d n c) ∧
          Invalidate h' t !! t' = Some (throttle d n c)).
Proof.
  intros Ht Hcopy. unfold Copy in Hcopy. rewrite Ht in Hcopy.
  apply alloc_spec in Hcopy as [Hfresh ->].
  assert (Hne : t' ≠ t) by congruence.
  assert (H1 : <[t':=throttle d n c]> h !! t' = Some (throttle d n c))
    by by rewrite lookup_insert_eq.
  assert (H2 : <[t':=throttle d n c]> h !! t = Some (throttle d n c))
    by by rewrite lookup_insert_ne.
  split; [done|]. split; [done|]. split; [done|]. split; [done|]. split.
  - intros now. unfold Delay, Invalidate. rewrite H1.
    by rewrite !lookup_insert_ne, Ht by done.
  - intros now. unfold Delay, Invalidate. rewrite H2.
    split; (rewrite lookup_insert_ne by congruence); exact H1.
Qed.

(** *** A set of throttles *)

Lemma AllComponents_NoDup : NoDup AllComponents.
Proof. apply (bool_decide_unpack _). vm_compute. exact I. Qed.

(** The invariant of the allocation loop of NewThrottleComponents. *)
Definition allocating (h : Heap) (delays : Component → Z) (seen : list Component)
    (h1 : Heap) (t1 : Components) : Prop :=
  (∀ x, is_Some (h !! x) → h1 !! x = h !! x) ∧
  (∀ c, c ∈ seen → h1 !! t1 c = Some (newObject (delays c)) ∧ h !! t1 c = None) ∧
  (∀ c1 c2, c1 ∈ seen → c2 ∈ seen → t1 c1 = t1 c2 → c1 = c2).

Lemma allocating_loop (h : Heap) (delays : Component → Z) cs :
  NoDup cs → ∀ seen h1 t1 h' t',
  (∀ c, c ∈ cs → c ∉ seen) →
  allocating h delays seen h1 t1 →
  foldl (λ '(h, t) c, let '(h', l) := NewThrottle h (delays c) in (h', <[c := l]> t))
        (h1, t1) cs = (h', t') →
  allocating h delays (reverse cs ++ seen)%list h' t'.
Proof.
  induction 1 as [|c cs Hnin Hnd IH]; intros seen h1 t1 h' t' Hnew Hinv; simpl.
  - by intros [= <- <-].
  - rewrite NewThrottle_alloc.
    destruct (alloc h1 (newObject (delays c))) as [h2 l] eqn:Halloc. intros Hfold.
    rewrite reverse_cons, <- app_assoc. simpl.
    eapply IH; [| |exact Hfold].
    + intros c' Hin Hseen. apply elem_of_cons in Hseen as [->|Hseen]; [done|].
      eapply Hnew; [|done]. by right.
    + apply alloc_spec in Halloc as [Hfresh ->].
      destruct Hinv as (Hext & Hobj & Hinj).
      assert (Hl : ∀ c', c' ∈ seen → t1 c' ≠ l).
      { intros c' Hin Heq. destruct (Hobj c' Hin) as [Hsome _]. congruence. }
      assert (Hc : c ∉ seen) by (apply Hnew; by left).
      split; [|split].
      * intros x Hx. rewrite lookup_insert_ne; [by apply Hext|].
        intros <-. rewrite Hext in Hfresh by done. by destruct Hx; congruence.
      * intros c' Hin. apply elem_of_cons in Hin as [->|Hin].
        -- rewrite fn_lookup_insert, lookup_insert_eq. split; [done|].
           destruct (h !! l) eqn:Hhl; [|done]. rewrite Hext in Hfresh by eauto. congruence.
        -- assert (c ≠ c') by congruence.
           rewrite fn_lookup_insert_ne by done.
           rewrite lookup_insert_ne by (apply not_eq_sym, Hl; done). by apply Hobj.
      * intros c1 c2 H1 H2.
        apply elem_of_cons in H1 as [->|H1]; apply elem_of_cons in H2 as [->|H2].
        -- done.
        -- assert (c ≠ c2) by congruence.
           rewrite fn_lookup_insert, fn_lookup_insert_ne by done.
           intros Heq. by destruct (Hl c2 H2).
        -- assert (c ≠ c1) by congruence.
           rewrite fn_lookup_insert, fn_lookup_insert_ne by done.
           intros Heq. by destruct (Hl c1 H1).
        -- assert (c ≠ c1) by congruence. assert (c ≠ c2) by congruence.
           rewrite !fn_lookup_insert_ne by done. by apply Hinj.
Qed.

(** X13: NewThrottleComponents gives every component a throttle of its own,
    new to the heap: an alwaysThrottle for delay 0 and a timed one
    otherwise, open at any time and with counter 0; what was in the heap
    stays. *)
Theorem NewThrottleComponents_fresh (h h' : Heap) (delays : Component → Z) (t : Components) :
  NewThrottleComponents h delays = (h', t) →
  (∀ x, is_Some (h !! x) → h' !! x = h !! x) ∧
  (∀ c, h' !! Get t c = Some (newObject (delays c)) ∧ h !! Get t c = None) ∧
  (∀ c1 c2, Get t c1 = Get t c2 → c1 = c2) ∧
  (∀ c now, Throttle_ h' (Get t c) now = true ∧ Count h' (Get t c) = 0%Z).
Proof.
  intros Hnew. unfold NewThrottleComponents in Hnew.
  apply (allocating_loop h delays AllComponents AllComponents_NoDup []) in Hnew
    as (Hext & Hobj & Hinj).
  - assert (Hall : ∀ c : Component, c ∈ (reverse AllComponents ++ [])%list)
      by (intros c; rewrite app_nil_r, elem_of_reverse; apply all_components).
    split; [done|]. split; [by intros c; apply Hobj|]. split.
    + intros c1 c2. by apply Hinj.
    + intros c now. destruct (Hobj c (Hall c)) as [Hc _].
      unfold Throttle_, Count, Get in *. rewrite Hc. unfold newObject.
      by destruct (delays c =? 0)%Z.
  - intros c _ Hin. by apply elem_of_nil in Hin.
  - split; [done|]. split.
    + intros c Hin. by apply elem_of_nil in Hin.
    + intros c1 c2 Hin. by apply elem_of_nil in Hin.
Qed.

(** What Invalidate does to an object. *)
Definition invalidated (o : object) : object :=
  match o with
  | throttle d _ c => throttle d (Some 0%Z) c
  | alwaysThrottle c => alwaysThrottle c
  end.

Lemma Invalidate_lookup (h : Heap) (x y : Throttle) :
  Invalidate h x !! y = if decide (x = y) then invalidated <$> h !! y else h !! y.
Proof.
  unfold Invalidate. destruct (decide (x = y)) as [->|Hne].
  - destruct (h !! y) as [[c|d n c]|] eqn:Hy; simpl; [by rewrite Hy| |by rewrite Hy].
    by rewrite lookup_insert_eq.
  - destruct (h !! x) as [[c|d n c]|]; [done| |done]. by rewrite lookup_insert_ne.
Qed.

Lemma InvalidateComponents_lookup (t : Components) cs : ∀ (h : Heap) (y : Throttle),
  InvalidateComponents h t cs !! y =
  if decide (y ∈ t <$> cs) then invalidated <$> h !! y else h !! y.
Proof.
  unfold InvalidateComponents, Get.
  induction cs as [|c cs IH]; intros h y; simpl.
  - destruct (decide (y ∈ [])) as [Hin|]; [by apply elem_of_nil in Hin|done].
  - rewrite IH, Invalidate_lookup.
    repeat case_decide; try done.
    + by destruct (h !! y) as [[?|? ? ?]|].
    + match goal with H : ¬ _ ∈ _ :: _ |- _ => destruct H end.
      apply elem_of_cons. by right.
    + match goal with H : ¬ _ ∈ _ :: _ |- _ => destruct H end.
      apply elem_of_cons. by right.
    + match goal with H : ¬ _ ∈ _ :: _ |- _ => destruct H end.
      apply elem_of_cons. by left.
    + match goal with H : _ ∈ _ :: _ |- _ => apply elem_of_cons in H as [?|?] end; done.
Qed.

(** X14: Invalidate(components...) on a set whose components have throttles of
    their own (as NewThrottleComponents makes them) touches the listed
    components only: the others keep their object, every listed timed
    throttle is open at any time after the epoch, and no counter moves. *)
Theorem InvalidateComponents_selective (h : Heap) (t : Components) (cs : list Component) :
  (∀ c1 c2, Get t c1 = Get t c2 → c1 = c2) →
  (∀ c, c ∉ cs → InvalidateComponents h t cs !! Get t c = h !! Get t c) ∧
  (∀ c now, c ∈ cs → (0 < now)%Z → is_Some (h !! Get t c) →
            Throttle_ (InvalidateComponents h t cs) (Get t c) now = true) ∧
  (∀ c, Count (InvalidateComponents h t cs) (Get t c) = Count h (Get t c)).
Proof.
  intros Hinj. unfold Get in *.
  assert (Hmem : ∀ c, t c ∈ t <$> cs ↔ c ∈ cs).
  { intros c. rewrite list_elem_of_fmap. split.
    - intros (c' & Heq & Hin). by rewrite (Hinj _ _ Heq).
    - intros Hin. by exists c. }
  split; [|split].
  - intros c Hnin. rewrite InvalidateComponents_lookup.
    destruct (decide _) as [Hin|]; [|done]. by apply Hmem in Hin.
  - intros c now Hin Hnow [o Ho]. unfold Throttle_.
    rewrite InvalidateComponents_lookup, Ho.
    destruct (decide _) as [_|Hnin]; [|by destruct Hnin; apply Hmem].
    destruct o as [k|d n k]; simpl; [done|]. by apply Z.ltb_lt.
  - intros c. unfold Count. rewrite InvalidateComponents_lookup.
    destruct (decide _); [|done]. by destruct (h !! t c) as [[?|? ? ?]|].
Qed.

(** One timed throttle, delay 30, never delayed so far. *)
Definition oneTimed : Heap := {[1%positive := throttle 30 None 0]}.

(** One alwaysThrottle. *)
Definition oneAlways : Heap := {[1%positive := alwaysThrottle 7]}.

(** Twelve timed throttles with delay 30. *)
Definition timed30 : Heap * Components := NewThrottleComponents ∅ (λ _, 30%Z).

Lemma Delay_closes_gate_witness :
  (∀ now', Throttle_ (Delay oneTimed 1 100) 1 now' = true ↔ (100 + 30 < now')%Z) ∧
  Count (Delay oneTimed 1 100) 1 = incr 0 ∧
  ((0 <= 0 < 2 ^ 63 - 1)%Z → Count (Delay oneTimed 1 100) 1 = (Count oneTimed 1 + 1)%Z) ∧
  (∀ t2, t2 ≠ 1%positive → Delay oneTimed 1 100 !! t2 = oneTimed !! t2).
Proof.
  apply (Delay_closes_gate oneTimed 1 30 0 100 None). reflexivity.
Defined.

Lemma Invalidate_opens_gate_witness :
  Throttle_ (Invalidate (Delay oneTimed 1 100) 1) 1 101 = true ∧
  Invalidate (Delay oneTimed 1 100) 1 !! 1%positive = Some (throttle 30 (Some 0%Z) (incr 0)) ∧
  Count (Invalidate (Delay oneTimed 1 100) 1) 1 = Count (Delay oneTimed 1 100) 1.
Proof.
  apply (Invalidate_opens_gate (Delay oneTimed 1 100) 1 30 (incr 0) 101 (Some 130%Z)).
  - reflexivity.
  - lia.
Defined.

Lemma alwaysThrottle_never_closes_witness :
  Throttle_ oneAlways 1 5 = true ∧
  Throttle_ (Delay oneAlways 1 100) 1 5 = true ∧
  Invalidate oneAlways 1 = oneAlways ∧
  Copy oneAlways 1 = (oneAlways, 1%positive) ∧
  Delay oneAlways 1 100 !! 1%positive = Some (alwaysThrottle (incr 7)).
Proof.
  apply (alwaysThrottle_never_closes oneAlways 1 7 100 5). reflexivity.
Defined.

(** X12, witness. *)
Lemma Copy_is_independent_witness :
  (Copy oneTimed 1).2 ≠ 1%positive ∧ oneTimed !! (Copy oneTimed 1).2 = None ∧
  (Copy oneTimed 1).1 !! (Copy oneTimed 1).2 = Some (throttle 30 None 0) ∧
  (Copy oneTimed 1).1 !! 1%positive = Some (throttle 30 None 0) ∧
  (∀ now, Delay (Copy oneTimed 1).1 (Copy oneTimed 1).2 now !! 1%positive = oneTimed !! 1%positive ∧
          Invalidate (Copy oneTimed 1).1 (Copy oneTimed 1).2 !! 1%positive
          = oneTimed !! 1%positive) ∧
  (∀ now, Delay (Copy oneTimed 1).1 1 now !! (Copy oneTimed 1).2 = Some (throttle 30 None 0) ∧
          Invalidate (Copy oneTimed 1).1 1 !! (Copy oneTimed 1).2
          = Some (throttle 30 None 0)).
Proof.
  apply (Copy_is_independent oneTimed (Copy oneTimed 1).1 1 (Copy oneTimed 1).2 30 0 None).
  - reflexivity.
  - reflexivity.
Defined.

(** X13, witness. *)
Lemma NewThrottleComponents_fresh_witness :
  (∀ x, is_Some (oneTimed !! x) →
        (NewThrottleComponents oneTimed (λ _, 0%Z)).1 !! x = oneTimed !! x) ∧
  (∀ c, (NewThrottleComponents oneTimed (λ _, 0%Z)).1
          !! Get (NewThrottleComponents oneTimed (λ _, 0%Z)).2 c = Some (newObject 0) ∧
        oneTimed !! Get (NewThrottleComponents oneTimed (λ _, 0%Z)).2 c = None) ∧
  (∀ c1 c2, Get (NewThrottleComponents oneTimed (λ _, 0%Z)).2 c1
            = Get (NewThrottleComponents oneTimed (λ _, 0%Z)).2 c2 → c1 = c2) ∧
  (∀ c now, Throttle_ (NewThrottleComponents oneTimed (λ _, 0%Z)).1
                      (Get (NewThrottleComponents oneTimed (λ _, 0%Z)).2 c) now = true ∧
            Count (NewThrottleComponents oneTimed (λ _, 0%Z)).1
                  (Get (NewThrottleComponents oneTimed (λ _, 0%Z)).2 c) = 0%Z).
Proof.
  apply (NewThrottleComponents_fresh oneTimed
           (NewThrottleComponents oneTimed (λ _, 0%Z)).1 (λ _, 0%Z)
           (NewThrottleComponents oneTimed (λ _, 0%Z)).2).
  by destruct (NewThrottleComponents oneTimed (λ _, 0%Z)).
Defined.

(** X14, witness. *)
Lemma InvalidateComponents_selective_witness :
  (∀ c, c ∉ [Pod; Secret] →
        InvalidateComponents (Delay timed30.1 (Get timed30.2 Node) 100) timed30.2 [Pod; Secret]
          !! Get timed30.2 c
        = Delay timed30.1 (Get timed30.2 Node) 100 !! Get timed30.2 c) ∧
  (∀ c now, c ∈ [Pod; Secret] → (0 < now)%Z →
            is_Some (Delay timed30.1 (Get timed30.2 Node) 100 !! Get timed30.2 c) →
            Throttle_ (InvalidateComponents (Delay timed30.1 (Get timed30.2 Node) 100)
                         timed30.2 [Pod; Secret])
                      (Get timed30.2 c) now = true) ∧
  (∀ c, Count (InvalidateComponents (Delay timed30.1 (Get timed30.2 Node) 100)
                 timed30.2 [Pod; Secret]) (Get timed30.2 c)
        = Count (Delay timed30.1 (Get timed30.2 Node) 100) (Get timed30.2 c)).
Proof.
  apply (InvalidateComponents_selective (Delay timed30.1 (Get timed30.2 Node) 100)
           timed30.2 [Pod; Secret]).
  intros c1 c2. destruct c1, c2; vm_compute; congruence.
Defined.

End ThrottleFacts.

(** * pkg/deployment/resources/inspector: registry, owner references *)
Module InspectorFacts.
Import Throttle Inspector.

Section Registry.

Context {kindInspector : Type}.
Implicit Types (i : @inspectorLoader kindInspector)
               (l : list (@inspectorLoader kindInspector)).

(** The [for id, k := range i] loop of inspectorLoaders.Get, started at
    index [id]. *)
Fixpoint getFrom l (name : string) (id : Z) : Z :=
  match l with
  | [] => -1
  | k :: rest => if String.eqb (LoaderName k) name then id else getFrom rest name (id + 1)
  end.

(** inspectorLoaders.Get *)
Definition LoadersGet l (name : string) : Z := getFrom l name 0.

(** registerInspectorLoader on the list of registered loaders. *)
Definition registerInspectorLoader l i : list inspectorLoader * bool :=
  if negb (LoadersGet l (LoaderName i) =? -1)%Z then (l, false)
  else ((l ++ [i])%list, true).

(** requireRegisterInspectorLoader; [None] is the panic. *)
Definition requireRegisterInspectorLoader l i : option (list inspectorLoader) :=
  match registerInspectorLoader l i with
  | (l', true) => Some l'
  | (_, false) => None
  end.

Lemma getFrom_range l name id :
  getFrom l name id = (-1)%Z ∨ (id <= getFrom l name id < id + Z.of_nat (length l))%Z.
Proof.
  revert id. induction l as [|k rest IH]; intros id; simpl; [by left|].
  destruct (String.eqb (LoaderName k) name); [right; lia|].
  destruct (IH (id + 1)%Z) as [->|?]; [by left|right; lia].
Qed.

Lemma getFrom_missing l name id :
  (0 <= id)%Z → getFrom l name id = (-1)%Z ↔ name ∉ LoaderName <$> l.
Proof.
  revert id. induction l as [|k rest IH]; intros id Hid; simpl.
  - split; [|done]. intros _ Hin. by apply elem_of_nil in Hin.
  - destruct (String.eqb (LoaderName k) name) eqn:Heq.
    + apply String.eqb_eq in Heq. split; [lia|]. intros Hn. destruct Hn.
      rewrite Heq. by left.
    + apply String.eqb_neq in Heq. rewrite IH by lia. split.
      * intros Hn Hin. apply elem_of_cons in Hin as [?|?]; [congruence|done].
      * intros Hn Hin. apply Hn. by right.
Qed.

Lemma getFrom_found l name id n :
  (0 <= id)%Z → (0 <= n)%Z → getFrom l name id = (id + n)%Z →
  ∃ k, l !! Z.to_nat n = Some k ∧ LoaderName k = name ∧
       ∀ m k', (m < Z.to_nat n)%nat → l !! m = Some k' → LoaderName k' ≠ name.
Proof.
  revert id n. induction l as [|k rest IH]; intros id n Hid Hn; simpl.
  - lia.
  - destruct (String.eqb (LoaderName k) name) eqn:Heq.
    + intros Hget. assert (n = 0%Z) as -> by lia. exists k. simpl.
      split; [done|]. split; [by apply String.eqb_eq|]. intros m k' Hm. lia.
    + intros Hget. destruct (getFrom_range rest name (id + 1)) as [Hm|Hr]; [lia|].
      destruct (IH (id + 1)%Z (n - 1)%Z) as (k0 & Hk0 & Hname & Hfirst); [lia|lia|lia|].
      exists k0. replace (Z.to_nat n) with (S (Z.to_nat (n - 1))) by lia.
      split; [done|]. split; [done|].
      intros [|m] k' Hm; simpl.
      * intros [= <-]. by apply String.eqb_neq.
      * apply Hfirst. lia.
Qed.

Lemma getFrom_app l l' name id :
  getFrom l name id ≠ (-1)%Z → getFrom (l ++ l') name id = getFrom l name id.
Proof.
  revert id. induction l as [|k rest IH]; intros id; simpl; [done|].
  destruct (String.eqb (LoaderName k) name); [done|]. apply IH.
Qed.

Lemma getFrom_app_missing l i id :
  (0 <= id)%Z → getFrom l (LoaderName i) id = (-1)%Z →
  getFrom (l ++ [i]) (LoaderName i) id = (id + Z.of_nat (length l))%Z.
Proof.
  revert id. induction l as [|k rest IH]; intros id Hid; simpl.
  - rewrite String.eqb_refl. lia.
  - destruct (String.eqb (LoaderName k) (LoaderName i)); [lia|].
    intros H. rewrite IH by (done || lia). lia.
Qed.

(** X15: Get answers -1 exactly for a name that is not registered, and otherwise
    the position of the first loader of that name. *)
Theorem LoadersGet_first l (name : string) :
  (LoadersGet l name = (-1)%Z ↔ name ∉ LoaderName <$> l) ∧
  (LoadersGet l name ≠ (-1)%Z →
     (0 <= LoadersGet l name < Z.of_nat (length l))%Z ∧
     ∃ k, l !! Z.to_nat (LoadersGet l name) = Some k ∧ LoaderName k = name ∧
          ∀ m k', (m < Z.to_nat (LoadersGet l name))%nat → l !! m = Some k' →
                  LoaderName k' ≠ name).
Proof.
  unfold LoadersGet. split; [by apply getFrom_missing|].
  intros Hne. destruct (getFrom_range l name 0) as [?|Hr]; [done|].
  split; [lia|]. apply (getFrom_found l name 0); lia.
Qed.

(** X16: Registering keeps the names of the registry distinct: a loader whose
    name is taken is refused and the registry is unchanged; a new one goes
    to the end, where Get finds it, and every loader registered before keeps
    its index. *)
Theorem registerInspectorLoader_unique l i :
  NoDup (LoaderName <$> l) →
  let l' := (registerInspectorLoader l i).1 in
  let ok := (registerInspectorLoader l i).2 in
  NoDup (LoaderName <$> l') ∧
  (ok = true ↔ LoaderName i ∉ LoaderName <$> l) ∧
  (ok = false → l' = l ∧ requireRegisterInspectorLoader l i = None) ∧
  (ok = true → l' = (l ++ [i])%list ∧
               LoadersGet l' (LoaderName i) = Z.of_nat (length l) ∧
               requireRegisterInspectorLoader l i = Some l') ∧
  (∀ n, LoadersGet l n ≠ (-1)%Z → LoadersGet l' n = LoadersGet l n).
Proof.
  intros Hnd. unfold requireRegisterInspectorLoader, registerInspectorLoader.
  destruct (LoadersGet l (LoaderName i) =? -1)%Z eqn:Hget; simpl.
  - apply Z.eqb_eq in Hget.
    assert (Hnew : LoaderName i ∉ LoaderName <$> l) by by apply getFrom_missing in Hget.
    split; [|split; [done|split; [done|split]]].
    + rewrite fmap_app. apply list.NoDup_app. split; [done|].
      split; [|apply NoDup_singleton].
      intros x Hx Hin. apply list_elem_of_singleton in Hin as ->. done.
    + intros _. split; [done|]. split; [|done]. unfold LoadersGet.
      rewrite getFrom_app_missing by (done || lia). lia.
    + intros n Hn. by apply getFrom_app.
  - apply Z.eqb_neq in Hget.
    split; [done|]. split; [|split; [done|split; [done|done]]].
    split; [done|]. intros Hn. by apply (getFrom_missing l _ 0) in Hn.
Qed.

End Registry.

(** ** Owner references *)

(** meta.OwnerReference and schema.GroupVersionKind *)
Record OwnerReference := { APIVersion : string; OwnerKind : string }.
Record GroupVersionKind := { Group : string; Version : string; Kind : string }.

(** core.GroupName *)
Definition GroupName : string := "".

(** The text before and after the first "/", if there is one. *)
Fixpoint cut (s : string) : option (string * string) :=
  match s with
  | EmptyString => None
  | String c rest =>
      if Ascii.eqb c "/"%char then Some (EmptyString, rest)
      else match cut rest with
           | Some (a, b) => Some (String c a, b)
           | None => None
           end
  end.

(** strings.SplitN(s, "/", 2) *)
Definition SplitN2 (s : string) : list string :=
  match cut s with
  | Some (a, b) => [a; b]
  | None => [s]
  end.

(** extractGVKFromOwnerReference; [None] is the index panic of the
    default branch on a slice without second element. *)
Definition extractGVKFromOwnerReference (o : OwnerReference) : option GroupVersionKind :=
  let z := SplitN2 (APIVersion o) in
  match length z with
  | 1 => match z with
         | z0 :: _ => Some {| Group := GroupName; Version := z0; Kind := OwnerKind o |}
         | [] => None
         end
  | 2 => match z with
         | z0 :: z1 :: _ => Some {| Group := z0; Version := z1; Kind := OwnerKind o |}
         | _ => None
         end
  | _ => match z with
         | _ :: z1 :: _ => Some {| Group := GroupName; Version := z1; Kind := APIVersion o |}
         | _ => None
         end
  end.

Definition hasSlash (s : string) : Prop := "/"%char ∈ String.list_ascii_of_string s.

Lemma cut_none (s : string) : cut s = None ↔ ¬ hasSlash s.
Proof.
  unfold hasSlash. induction s as [|c rest IH]; simpl.
  - split; [|done]. intros _ Hin. by apply elem_of_nil in Hin.
  - destruct (Ascii.eqb c "/"%char) eqn:Hc.
    + apply Ascii.eqb_eq in Hc as ->. split; [done|]. intros Hn. destruct Hn. by left.
    + apply Ascii.eqb_neq in Hc. destruct (cut rest) as [[a b]|].
      * split; [done|]. intros Hn.
        assert (Some (a, b) = None) as Habs
          by (apply IH; intros Hin; apply Hn; by right).
        done.
      * split; [|done]. intros _ Hin. apply elem_of_cons in Hin as [?|Hin]; [congruence|].
        by apply IH.
Qed.

Lemma cut_some (s a b : string) :
  cut s = Some (a, b) → s = a +:+ "/" +:+ b ∧ ¬ hasSlash a.
Proof.
  unfold hasSlash. revert a. induction s as [|c rest IH]; intros a; simpl; [done|].
  destruct (Ascii.eqb c "/"%char) eqn:Hc.
  - apply Ascii.eqb_eq in Hc as ->. intros [= <- <-]. split; [done|].
    intros Hin. by apply elem_of_nil in Hin.
  - apply Ascii.eqb_neq in Hc. destruct (cut rest) as [[a' b']|]; [|done].
    intros [= <- <-]. destruct (IH a' eq_refl) as [-> Hn]. split; [done|].
    simpl. intros Hin. apply elem_of_cons in Hin as [?|Hin]; [congruence|done].
Qed.

(** X17: extractGVKFromOwnerReference never reaches its default branch.  An
    apiVersion without "/" is a version of the core group; otherwise group
    and version are the text before and after the first "/", so that
    group/version is the apiVersion again; the kind is the owner's. *)
Theorem extractGVK_roundtrip (o : OwnerReference) :
  ∃ gvk, extractGVKFromOwnerReference o = Some gvk ∧
    Kind gvk = OwnerKind o ∧
    (¬ hasSlash (APIVersion o) → Group gvk = "" ∧ Version gvk = APIVersion o) ∧
    (hasSlash (APIVersion o) →
       APIVersion o = Group gvk +:+ "/" +:+ Version gvk ∧ ¬ hasSlash (Group gvk)).
Proof.
  unfold extractGVKFromOwnerReference, SplitN2.
  destruct (cut (APIVersion o)) as [[a b]|] eqn:Hcut; simpl.
  - eexists. split; [done|]. simpl. split; [done|].
    split; [|by intros _; apply cut_some].
    intros Hno. apply cut_none in Hno. congruence.
  - eexists. split; [done|]. simpl. split; [done|].
    apply cut_none in Hcut. done.
Qed.

Example extractGVK_apps :
  extractGVKFromOwnerReference {| APIVersion := "apps/v1"; OwnerKind := "ReplicaSet" |}
  = Some {| Group := "apps"; Version := "v1"; Kind := "ReplicaSet" |}.
Proof. reflexivity. Qed.

Example extractGVK_core :
  extractGVKFromOwnerReference {| APIVersion := "v1"; OwnerKind := "Pod" |}
  = Some {| Group := ""; Version := "v1"; Kind := "Pod" |}.
Proof. reflexivity. Qed.

(** ** The visible snapshot after a refresh *)

Section Snapshot.

Context {kindInspector : Type}.
Context (validateKind : Component -> option kindInspector -> option error).
Implicit Types (i n : @inspectorState kindInspector)
               (loaders : list (@inspectorLoader kindInspector)).

(** inspectorState.GetCurrentArangoDeployment *)
Definition GetCurrentArangoDeployment i : option string * option error :=
  match deploymentResult i with
  | None => (None, Some "Deployment not initialised")
  | Some r => (depl r, deplErr r)
  end.

(** inspectorState.Initialised, which accepts a nil receiver. *)
Definition Initialised (i : option (@inspectorState kindInspector)) : bool :=
  match i with
  | None => false
  | Some i => initialised i
  end.

(** inspectorState.GetVersionInfo and inspectorState.LastRefresh *)
Definition GetVersionInfo i : string := versionInfo i.
Definition LastRefresh i : Time := last i.

(** Everything of a state but its per-kind data. *)
Definition core i :=
  (namespace i, deploymentName i, deploymentResult i, client i, last i,
   throttles i, versionInfo i, initialised i).

(** Loaders that load and copy per-kind data and leave the rest of the
    state they are handed alone. *)
Definition kindsOnly loaders : Prop :=
  ∀ l, l ∈ loaders →
    (∀ n, core (Load l n) = core n) ∧
    (∀ from to override, core (CopyTo l from to override) = core to).

Lemma kindsOnly_keepThrottles loaders : kindsOnly loaders → keepThrottles loaders.
Proof.
  intros Hk l n Hl. destruct (Hk l Hl) as [Hload _].
  specialize (Hload n). unfold core in Hload. congruence.
Qed.

Lemma runLoaders_core (w : World) loaders (sched : list nat) :
  kindsOnly loaders →
  ∀ st, core (foldl (λ st id, match loaders !! id with
                               | Some l => runLoader w l st
                               | None => st
                               end) st sched).1.2 = core st.1.2.
Proof.
  intros Hk. induction sched as [|id sched IH]; intros st; simpl; [done|].
  rewrite IH. destruct (loaders !! id) as [l|] eqn:Hl; [|done].
  destruct st as [[h n] k]. unfold runLoader. simpl.
  destruct (negb _); simpl; [done|].
  apply Hk. apply list_elem_of_lookup. eauto.
Qed.

Lemma CopyTo_core loaders n : kindsOnly loaders →
  ∀ ls i, (∀ l, l ∈ ls → l ∈ loaders) →
    core (foldl (λ to l, CopyTo l n to true) i ls) = core i.
Proof.
  intros Hk ls. induction ls as [|l ls IH]; intros i Hin; simpl; [done|].
  rewrite IH by (intros l' Hl'; apply Hin; by right).
  apply Hk. apply Hin. by left.
Qed.

(** The server version a refresh sees. *)
Definition seenVersion (w : World) : string :=
  match serverVersion w with
  | Err _ => ""
  | Ok v => TrimPrefix v "v"
  end.

Lemma working_core (w : World) loaders (h : Heap) i :
  kindsOnly loaders →
  core (working w loaders h i) =
  (namespace i, deploymentName i, Some (getDeployment w), client i, None,
   (CopyComponents h (throttles i)).2, seenVersion w, false).
Proof.
  intros Hk. unfold working, loadAll, copyCore, seenVersion.
  destruct (CopyComponents h (throttles i)) as [h1 tn]. simpl.
  rewrite runLoaders_core by done. simpl. by destruct (serverVersion w).
Qed.

(** X18: A refresh that returns no error leaves an initialised snapshot with the
    time of the swap, the answer of the deployment Get (which
    GetCurrentArangoDeployment then returns) and the throttles of the
    working copy; namespace, name and client are never touched. *)
Theorem refresh_success_state (w : World) loaders (h : Heap) i :
  kindsOnly loaders →
  err (refreshInThreads validateKind w loaders h i) = None →
  let out := visible (refreshInThreads validateKind w loaders h i) in
  Initialised (Some out) = true ∧
  (∃ k, LastRefresh out = Some (clock w k)) ∧
  deploymentResult out = Some (getDeployment w) ∧
  GetCurrentArangoDeployment out = (depl (getDeployment w), deplErr (getDeployment w)) ∧
  throttles out = (CopyComponents h (throttles i)).2 ∧
  (namespace out, deploymentName out, client out) = (namespace i, deploymentName i, client i).
Proof.
  intros Hk. pose proof (working_core w loaders h i Hk) as Hcore.
  unfold working, refreshInThreads in *.
  destruct (loadAll w loaders h i) as [[h' n] k]. simpl in *.
  destruct (firstError _); simpl; [done|].
  destruct (validate validateKind n); simpl; [done|]. intros _.
  pose proof (CopyTo_core loaders n Hk loaders i (λ _ H, H)) as Hi.
  unfold core in *. unfold GetCurrentArangoDeployment, Initialised, LastRefresh. simpl.
  injection Hcore as H1 H2 H3 H4 H5 H6 H7 H8. injection Hi as I1 I2 I3 I4 I5 I6 I7 I8.
  split; [done|]. split; [by exists k|]. rewrite H3, H6, I1, I2, I4. done.
Qed.

(** X19: The server version read at the start of a refresh reaches the working
    copy only: whether the refresh succeeds or fails, GetVersionInfo of the
    visible snapshot answers what it answered before. *)
Theorem refresh_keeps_versionInfo (w : World) loaders (h : Heap) i :
  kindsOnly loaders →
  GetVersionInfo (visible (refreshInThreads validateKind w loaders h i)) = GetVersionInfo i ∧
  GetVersionInfo (working w loaders h i) = seenVersion w.
Proof.
  intros Hk. pose proof (working_core w loaders h i Hk) as Hcore.
  split; [|unfold core in Hcore; unfold GetVersionInfo; congruence].
  unfold working, refreshInThreads in *.
  destruct (loadAll w loaders h i) as [[h' n] k]. simpl in *.
  destruct (firstError _); simpl; [done|].
  destruct (validate validateKind n); simpl; [done|].
  pose proof (CopyTo_core loaders n Hk loaders i (λ _ H, H)) as Hi.
  unfold core in Hi. unfold GetVersionInfo. simpl. congruence.
Qed.

Lemma runLoaders_all_throttled (w : World) loaders (h1 : Heap) n (sched : list nat) :
  (∀ l k, l ∈ loaders →
     Throttle_ h1 (Get (throttles n) (LoaderComponent l)) (clock w k) = false) →
  ∀ k, ∃ k', foldl (λ st id, match loaders !! id with
                              | Some l => runLoader w l st
                              | None => st
                              end) (h1, n, k) sched = (h1, n, k').
Proof.
  intros Hclosed. induction sched as [|id sched IH]; intros k; simpl; [by eexists|].
  destruct (loaders !! id) as [l|] eqn:Hl; [|apply IH].
  unfold runLoader. rewrite Hclosed by (apply list_elem_of_lookup; eauto). simpl.
  apply IH.
Qed.

(** X20: While the throttle of every loader's component is closed at all
    readings of the clock, a refresh runs no loader: the working copy holds
    the per-kind data of the visible snapshot, and the heap is the one the
    copy of the throttles left, so no counter moved and no delay was
    restarted. *)
Theorem refresh_respects_throttles (w : World) loaders (h : Heap) i :
  allocated h (throttles i) →
  (∀ l k, l ∈ loaders →
     Throttle_ h (Get (throttles i) (LoaderComponent l)) (clock w k) = false) →
  kinds (working w loaders h i) = kinds i ∧
  (loadAll w loaders h i).1.1 = (CopyComponents h (throttles i)).1 ∧
  ∀ c, (loadAll w loaders h i).1.1 !! Get (throttles i) c = h !! Get (throttles i) c.
Proof.
  intros Hwf Hclosed. unfold working, loadAll, copyCore.
  destruct (CopyComponents h (throttles i)) as [h1 tn] eqn:Hcopy.
  apply CopyComponents_copyOf in Hcopy as [Hext Hsame]; [|done].
  assert (Hgate : ∀ l k, l ∈ loaders →
            Throttle_ h1 (Get tn (LoaderComponent l)) (clock w k) = false).
  { intros l k Hl. specialize (Hclosed l k Hl).
    unfold Throttle_, Get in *. destruct (Hsame (LoaderComponent l)) as [-> _]. done. }
  destruct (serverVersion w) as [v|e];
    match goal with
    | |- context [foldl ?f (h1, ?n0, 1) (schedule w)] =>
        destruct (runLoaders_all_throttled w loaders h1 n0 (schedule w) Hgate 1)
          as [k' Hrun]
    end; rewrite Hrun; simpl; (split; [done|]); (split; [done|]);
    intros c; apply Hext, Hwf.
Qed.

End Snapshot.

(** *** Two refreshes within the delay *)

(** NewInspector with a delay of one second for every kind. *)
Definition NewThrottledInspector : Heap * @inspectorState listing :=
  let '(h, t) := NewThrottleComponents ∅ (λ _, 1000000000%Z) in
  (h, {| namespace := "ns"; deploymentName := "depl"; deploymentResult := None;
         client := "kube"; last := None; kinds := λ _, None; throttles := t;
         versionInfo := ""; initialised := false |}).

Definition firstRefresh : @RefreshOutcome listing :=
  refreshInThreads validateListing world0 (loadersFor allFine)
    NewThrottledInspector.1 NewThrottledInspector.2.

(** A little later, the listing of secrets would now show a duplicate. *)
Definition worldSoon : World :=
  {| serverVersion := Ok "v1.21.3";
     getDeployment := {| depl := Some "depl"; deplErr := None |};
     clock := λ _, 5000%Z;
     schedule := seq 0 12 |}.

Example second_refresh_is_throttled :
  let out := refreshInThreads validateListing worldSoon (loadersFor secretsTwice)
               (heap firstRefresh) (visible firstRefresh) in
  (err firstRefresh, err out, kinds (visible out) Secret,
   Count (heap out) (Get (throttles (visible out)) Secret))
  = (None, None, Some (Ok ["a"; "b"]), 1%Z).
Proof. vm_compute. reflexivity. Qed.

Lemma loadersFor_kindsOnly answer : kindsOnly (loadersFor answer).
Proof.
  intros l Hl. unfold loadersFor in Hl.
  apply list_elem_of_fmap in Hl as (c & -> & _). split.
  - reflexivity.
  - intros from to override. simpl. by destruct (kinds to c), override.
Qed.

(** X18, witness. *)
Lemma refresh_success_state_witness :
  Initialised (Some (visible firstRefresh)) = true ∧
  (∃ k, LastRefresh (visible firstRefresh) = Some (clock world0 k)) ∧
  deploymentResult (visible firstRefresh) = Some (getDeployment world0) ∧
  GetCurrentArangoDeployment (visible firstRefresh)
    = (depl (getDeployment world0), deplErr (getDeployment world0)) ∧
  throttles (visible firstRefresh)
    = (CopyComponents NewThrottledInspector.1 (throttles NewThrottledInspector.2)).2 ∧
  (namespace (visible firstRefresh), deploymentName (visible firstRefresh),
   client (visible firstRefresh))
  = (namespace NewThrottledInspector.2, deploymentName NewThrottledInspector.2,
     client NewThrottledInspector.2).
Proof.
  apply (refresh_success_state validateListing world0 (loadersFor allFine)
           NewThrottledInspector.1 NewThrottledInspector.2).
  - exact (loadersFor_kindsOnly allFine).
  - vm_compute. reflexivity.
Defined.

(** X19, witness. *)
Lemma refresh_keeps_versionInfo_witness :
  GetVersionInfo (visible firstRefresh) = GetVersionInfo NewThrottledInspector.2 ∧
  GetVersionInfo (working world0 (loadersFor allFine)
                    NewThrottledInspector.1 NewThrottledInspector.2)
  = seenVersion world0.
Proof.
  apply (refresh_keeps_versionInfo validateListing world0 (loadersFor allFine)
           NewThrottledInspector.1 NewThrottledInspector.2).
  exact (loadersFor_kindsOnly allFine).
Defined.

Example versionInfo_stale :
  (GetVersionInfo (visible firstRefresh), seenVersion world0) = ("", "1.21.3").
Proof. vm_compute. reflexivity. Qed.

(** X20, witness. *)
Lemma refresh_respects_throttles_witness :
  kinds (working worldSoon (loadersFor secretsTwice) (heap firstRefresh) (visible firstRefresh))
    = kinds (visible firstRefresh) ∧
  (loadAll worldSoon (loadersFor secretsTwice) (heap firstRefresh) (visible firstRefresh)).1.1
    = (CopyComponents (heap firstRefresh) (throttles (visible firstRefresh))).1 ∧
  ∀ c, (loadAll worldSoon (loadersFor secretsTwice) (heap firstRefresh)
          (visible firstRefresh)).1.1 !! Get (throttles (visible firstRefresh)) c
       = heap firstRefresh !! Get (throttles (visible firstRefresh)) c.
Proof.
  apply (refresh_respects_throttles worldSoon (loadersFor secretsTwice)
           (heap firstRefresh) (visible firstRefresh)).
  - intros c. destruct c; vm_compute; eauto.
  - intros l k Hl. unfold loadersFor in Hl.
    apply list_elem_of_fmap in Hl as (c & -> & _). destruct c; vm_compute; reflexivity.
Defined.

(** X16, witness. *)
Lemma registerInspectorLoader_unique_witness :
  let l := [kindLoader Pod (Ok ["a"])] in
  let i := kindLoader Pod (Ok []) in
  NoDup (LoaderName <$> (registerInspectorLoader l i).1) ∧
  ((registerInspectorLoader l i).2 = true ↔ LoaderName i ∉ LoaderName <$> l) ∧
  ((registerInspectorLoader l i).2 = false →
     (registerInspectorLoader l i).1 = l ∧ requireRegisterInspectorLoader l i = None) ∧
  ((registerInspectorLoader l i).2 = true →
     (registerInspectorLoader l i).1 = (l ++ [i])%list ∧
     LoadersGet (registerInspectorLoader l i).1 (LoaderName i) = Z.of_nat (length l) ∧
     requireRegisterInspectorLoader l i = Some (registerInspectorLoader l i).1) ∧
  (∀ n, LoadersGet l n ≠ (-1)%Z →
        LoadersGet (registerInspectorLoader l i).1 n = LoadersGet l n).
Proof.
  apply (registerInspectorLoader_unique [kindLoader Pod (Ok ["a"])] (kindLoader Pod (Ok []))).
  simpl. apply NoDup_singleton.
Defined.

End InspectorFacts.

(** * pkg/deployment/reconcile: the rest of the image update action *)
Module ReconcileFacts.
Import Reconcile.

Section StartFacts.

Context (ContainerName ContainerImage : string).
Context (IsReady : string -> bool).
Context (ArangoMemberName : MemberStatus -> string -> string -> string).

Lemma neqb_true (x y : string) : neqb x y = true ↔ x ≠ y.
Proof. unfold neqb. rewrite negb_true_iff. apply String.eqb_neq. Qed.

Lemma firstNamed_index name (pod spec status : list Container) id0 i pc :
  firstNamed name pod spec status id0 = Some (i, pc) →
  (id0 ≤ i)%nat ∧ pod !! (i - id0)%nat = Some pc.
Proof.
  revert spec status id0.
  induction pod as [|c pod IH]; intros [|sc spec] [|tc status] id0; simpl; try done.
  destruct (neqb (Name c) (Name sc) || neqb (Name c) (Name tc) || neqb (Name c) name).
  - intros H. apply IH in H as [Hle Hpc]. split; [lia|].
    replace (i - id0)%nat with (S (i - S id0)) by lia. done.
  - intros [= <- <-]. split; [done|]. by rewrite Nat.sub_diag.
Qed.

(** X21: Start sends at most one pod to Update.  The pod it sends is the cached
    pod of the member in which one container, named as the action asks and
    running another image, has got the requested image; every other
    container is as it was.  Start then answers ready=false when the Update
    went through and ready=true with the error when it did not. *)
Theorem Start_update_shape (ctx : ActionContext) (a : Action) :
  let out := Start ContainerName ContainerImage IsReady ArangoMemberName ctx a in
  updates out = [] ∨
  ∃ m cache name image pod id pc,
    Members ctx !! MemberID a = Some m ∧
    ClusterCaches ctx !! ClusterID m = Some cache ∧
    getContainerDetails ContainerName ContainerImage a = Some (name, image) ∧
    Pods cache !! PodName m = Some pod ∧
    Containers pod !! id = Some pc ∧ Name pc = name ∧ Image pc ≠ image ∧
    updates out = [setImage pod id image] ∧
    PodName_ (setImage pod id image) = PodName_ pod ∧
    length (Containers (setImage pod id image)) = length (Containers pod) ∧
    Containers (setImage pod id image) !! id = Some {| Name := name; Image := image |} ∧
    (∀ j, j ≠ id → Containers (setImage pod id image) !! j = Containers pod !! j) ∧
    (ready out, err out) =
      match PodsUpdate ctx (setImage pod id image) with
      | Some e => (true, Some e)
      | None => (false, None)
      end.
Proof.
  unfold Start.
  destruct (Members ctx !! MemberID a) as [m|] eqn:Hm; [|by left].
  destruct (ClusterCaches ctx !! ClusterID m) as [cache|] eqn:Hcache; [|by left].
  destruct (getContainerDetails _ _ a) as [[name image]|] eqn:Hdet; [|by left].
  destruct (negb (IsReady (Phase m))); [by left|].
  destruct (ArangoMembers _ !! _) as [member|]; [|by left].
  destruct (Pods cache !! PodName m) as [pod|] eqn:Hpod; [|by left].
  destruct (SpecTemplate member ≫= PodSpec) as [spec|]; [|by left].
  destruct (StatusTemplate member ≫= PodSpec) as [status|]; [|by left].
  destruct (negb (Nat.eqb _ (length spec))); [by left|].
  destruct (negb (Nat.eqb _ (length status))); [by left|].
  destruct (firstNamed _ _ _ _ _) as [[id pc]|] eqn:Hfirst; [|by left].
  destruct (neqb (Image pc) image) eqn:Himg; [|by left].
  right. exists m, cache, name, image, pod, id, pc.
  pose proof (firstNamed_some _ _ _ _ _ _ _ Hfirst) as [_ Hname].
  apply firstNamed_index in Hfirst as [_ Hid]. rewrite Nat.sub_0_r in Hid.
  apply neqb_true in Himg.
  repeat (split; [done|]).
  split; [by destruct (PodsUpdate ctx _)|]. split; [done|].
  split; [apply length_alter|].
  split; [by unfold setImage; simpl; rewrite list_lookup_alter_eq, Hid, <- Hname|].
  split; [by intros j Hj; unfold setImage; simpl; rewrite list_lookup_alter_ne|].
  by destruct (PodsUpdate ctx _).
Qed.

(** The context once the cache of cluster [cid] has seen [pod] under
    [name]; ArangoMembers are as before. *)
Definition withPod (ctx : ActionContext) (cid name : string) (pod : Pod) : ActionContext :=
  {| GetName := GetName ctx;
     Members := Members ctx;
     ClusterCaches :=
       alter (λ c, {| Pods := <[name := pod]> (Pods c); ArangoMembers := ArangoMembers c |})
             cid (ClusterCaches ctx);
     CurrentClusterCache := CurrentClusterCache ctx;
     PodsUpdate := PodsUpdate ctx |}.

Lemma firstNamed_alter name (f : Container → Container) (pod spec status : list Container)
    id0 i pc :
  (∀ c, Name (f c) = Name c) →
  firstNamed name pod spec status id0 = Some (i, pc) →
  firstNamed name (alter f (i - id0)%nat pod) spec status id0 = Some (i, f pc).
Proof.
  intros Hf. revert spec status id0.
  induction pod as [|c pod IH]; intros [|sc spec] [|tc status] id0; simpl; try done.
  destruct (neqb (Name c) (Name sc) || neqb (Name c) (Name tc) || neqb (Name c) name)
    eqn:Htest.
  - intros H. pose proof (firstNamed_index _ _ _ _ _ _ _ H) as [Hle _].
    replace (i - id0)%nat with (S (i - S id0)) by lia. simpl.
    rewrite Htest. by apply IH.
  - intros [= <- <-]. rewrite Nat.sub_diag. simpl. by rewrite Hf, Htest.
Qed.

(** X22: Once the pod that Start sent to Update is the one in the member's
    cluster cache, a second Start of the same action finds the image in
    place: it is done at once, without error and without another Update. *)
Theorem Start_twice (ctx : ActionContext) (a : Action) (m : MemberStatus) (pod' : Pod) :
  Members ctx !! MemberID a = Some m →
  updates (Start ContainerName ContainerImage IsReady ArangoMemberName ctx a) = [pod'] →
  Start ContainerName ContainerImage IsReady ArangoMemberName
    (withPod ctx (ClusterID m) (PodName m) pod') a = done_ true None.
Proof.
  intros Hm. unfold Start. simpl. rewrite Hm.
  destruct (ClusterCaches ctx !! ClusterID m) as [cache|] eqn:Hcache; [|done].
  rewrite lookup_alter_eq, Hcache. simpl.
  destruct (getContainerDetails _ _ a) as [[name image]|]; [|done].
  destruct (negb (IsReady (Phase m))); [done|].
  destruct (ArangoMembers _ !! _) as [member|]; [|done].
  destruct (Pods cache !! PodName m) as [pod|]; [|done].
  destruct (SpecTemplate member ≫= PodSpec) as [spec|]; [|done].
  destruct (StatusTemplate member ≫= PodSpec) as [status|]; [|done].
  destruct (negb (Nat.eqb _ (length spec))) eqn:Hspec; [done|].
  destruct (negb (Nat.eqb _ (length status))) eqn:Hstatus; [done|].
  destruct (firstNamed _ _ _ _ _) as [[id pc]|] eqn:Hfirst; [|done].
  destruct (neqb (Image pc) image); [|done].
  intros Hsent.
  assert (pod' = setImage pod id image) as ->
    by (by destruct (PodsUpdate ctx _); simpl in Hsent; injection Hsent).
  rewrite lookup_insert_eq. simpl. rewrite length_alter, Hspec, Hstatus.
  pose proof (firstNamed_alter name (λ c, {| Name := Name c; Image := image |})
                _ _ _ _ _ _ (λ _, eq_refl) Hfirst) as Hagain.
  rewrite Nat.sub_0_r in Hagain. rewrite Hagain. simpl.
  by rewrite (proj2 (neqb_false image image) eq_refl).
Qed.

End StartFacts.

(** X22, witness: at the db-server of [deployment] asked to move to 3.9.2. *)
Lemma Start_twice_witness :
  Start "name" "image" phaseCreated memberName
    (withPod (deployment true) "" "depl-prmr-1" (setImage pod1 0 "arangodb:3.9.2"))
    (updateImage "arangodb:3.9.2") = done_ true None.
Proof.
  apply (Start_twice "name" "image" phaseCreated memberName (deployment true)
           (updateImage "arangodb:3.9.2") member1 (setImage pod1 0 "arangodb:3.9.2")).
  - vm_compute. reflexivity.
  - vm_compute. reflexivity.
Defined.

(** ** CheckProgress *)

(** core.ContainerStateTerminated, as far as CheckProgress reads it;
    [FinishedAt] in nanoseconds since the epoch. *)
Record ContainerStateTerminated := {
  ExitCode : Z;
  Reason : string;
  Message : string;
  FinishedAt : Z
}.

(** core.ContainerState: three pointers; of [Waiting] and [Running] only
    whether they are set is read. *)
Record ContainerState := {
  Waiting : bool;
  Running : bool;
  Terminated : option ContainerStateTerminated
}.

(** core.ContainerStatus *)
Record ContainerStatus := {
  StatusImage : string;
  State : ContainerState;
  LastTerminationState : ContainerState
}.

(** time.Second and core.RestartPolicyAlways *)
Definition Second : Z := 1000000000.
Definition RestartPolicyAlways : string := "Always".

(** The two errors of CheckProgress. *)
Definition failedMsg (name : string) (s : ContainerStateTerminated) : error :=
  "Container " +:+ name +:+ " failed during image replacement: (" +:+ pretty (ExitCode s)
  +:+ ") " +:+ Reason s +:+ ": " +:+ Message s.

Definition continuouslyFailedMsg (name : string) (s : ContainerStateTerminated) : error :=
  "Container " +:+ name +:+ " continuously failed during image replacement: ("
  +:+ pretty (ExitCode s) +:+ ") " +:+ Reason s +:+ ": " +:+ Message s.

(** What CheckProgress returns: ready, abort, error. *)
Record Progress := { isReady : bool; abort : bool; failure : option error }.

Definition retry : Progress := {| isReady := false; abort := false; failure := None |}.
Definition finished : Progress := {| isReady := true; abort := false; failure := None |}.
Definition failed (e : error) : Progress :=
  {| isReady := true; abort := false; failure := Some e |}.

Section CheckProgress.

Context (ContainerName ContainerImage : string).

(** pod.Spec.RestartPolicy and the container statuses of the pod are read
    through k8sutil.GetContainerByName and
    k8sutil.GetContainerStatusByName, which are not part of the package. *)
Context (RestartPolicy : Pod → string).
Context (GetContainerByName : Pod → string → option Container).
Context (GetContainerStatusByName : Pod → string → option ContainerStatus).

(** actionRuntimeContainerImageUpdate.CheckProgress, at the instant [now]. *)
Definition CheckProgress (now : Z) (ctx : ActionContext) (a : Action) : Progress :=
  match Members ctx !! MemberID a with
  | None => finished
  | Some m =>
  match ClusterCaches ctx !! ClusterID m with
  | None => retry
  | Some cache =>
  match Pods cache !! PodName m with
  | None => finished
  | Some pod =>
  match getContainerDetails ContainerName ContainerImage a with
  | None => finished
  | Some (name, image) =>
  match GetContainerByName pod name with
  | None => finished
  | Some cspec =>
  match GetContainerStatusByName pod name with
  | None => finished
  | Some cstatus =>
  if neqb (Image cspec) image then finished else
  match Terminated (State cstatus) with
  | Some s =>
      if neqb (Image cspec) (StatusImage cstatus) then retry
      else failed (failedMsg name s)
  | None =>
      if Waiting (State cstatus) then
        if String.eqb (RestartPolicy pod) RestartPolicyAlways then
          match Terminated (LastTerminationState cstatus) with
          | Some lastTermination =>
              let allowedRestartPeriod := (now + Second * -20)%Z in
              if (FinishedAt lastTermination <? allowedRestartPeriod)%Z
              then failed (continuouslyFailedMsg name lastTermination)
              else retry
          | None => retry
          end
        else retry
      else if Running (State cstatus) then
        if neqb (Image cspec) (StatusImage cstatus) then retry else finished
      else retry
  end end end end end end end.

(** What CheckProgress looks at once the member, its cache, the pod, the
    details and the container are there. *)
Definition inspected (ctx : ActionContext) (a : Action)
    (pod : Pod) (name image : string) (cspec : Container) (cstatus : ContainerStatus) : Prop :=
  ∃ m cache,
    Members ctx !! MemberID a = Some m ∧
    ClusterCaches ctx !! ClusterID m = Some cache ∧
    Pods cache !! PodName m = Some pod ∧
    getContainerDetails ContainerName ContainerImage a = Some (name, image) ∧
    GetContainerByName pod name = Some cspec ∧
    GetContainerStatusByName pod name = Some cstatus.

Lemma inspected_functional ctx a pod name image cspec cstatus pod' name' image' cspec' cstatus' :
  inspected ctx a pod name image cspec cstatus →
  inspected ctx a pod' name' image' cspec' cstatus' →
  pod' = pod ∧ name' = name ∧ image' = image ∧ cspec' = cspec ∧ cstatus' = cstatus.
Proof.
  intros (m & cache & Hm & Hc & Hp & Hd & Hs & Ht) (m' & cache' & Hm' & Hc' & Hp' & Hd' & Hs' & Ht').
  simplify_eq. done.
Qed.

(** CheckProgress never asks to abort the plan, and whenever it reports
    an error it also reports the action as ready: a failed image
    replacement ends the action, it is never retried. *)
Theorem CheckProgress_never_aborts (now : Z) (ctx : ActionContext) (a : Action) :
  abort (CheckProgress now ctx a) = false ∧
  (is_Some (failure (CheckProgress now ctx a)) → isReady (CheckProgress now ctx a) = true).
Proof.
  unfold CheckProgress.
  repeat (match goal with
          | |- context [match ?x with _ => _ end] => destruct x
          end; try (split; [done|]; simpl; by intros [? ?]); try done).
Qed.

(** The states in which CheckProgress gives up on the container. *)
Definition givesUp (now : Z) (pod : Pod) (name image : string) (cstatus : ContainerStatus)
    (e : error) : Prop :=
  (∃ s, Terminated (State cstatus) = Some s ∧ StatusImage cstatus = image ∧
        e = failedMsg name s) ∨
  (∃ s, Terminated (State cstatus) = None ∧ Waiting (State cstatus) = true ∧
        RestartPolicy pod = "Always" ∧
        Terminated (LastTerminationState cstatus) = Some s ∧
        (FinishedAt s + 20 * Second < now)%Z ∧
        e = continuouslyFailedMsg name s).

Lemma CheckProgress_failure_cases (now : Z) (ctx : ActionContext) (a : Action) (e : error) :
  failure (CheckProgress now ctx a) = Some e →
  ∃ pod name image cspec cstatus,
    inspected ctx a pod name image cspec cstatus ∧ Image cspec = image ∧
    givesUp now pod name image cstatus e.
Proof.
  unfold CheckProgress.
  destruct (Members ctx !! MemberID a) as [m|] eqn:Hm; [|done].
  destruct (ClusterCaches ctx !! ClusterID m) as [cache|] eqn:Hcache; [|done].
  destruct (Pods cache !! PodName m) as [pod|] eqn:Hpod; [|done].
  destruct (getContainerDetails _ _ a) as [[name image]|] eqn:Hdet; [|done].
  destruct (GetContainerByName pod name) as [cspec|] eqn:Hcspec; [|done].
  destruct (GetContainerStatusByName pod name) as [cstatus|] eqn:Hcstatus; [|done].
  destruct (neqb (Image cspec) image) eqn:Himage; [done|].
  apply neqb_false in Himage.
  intros He. exists pod, name, image, cspec, cstatus.
  split; [by exists m, cache|]. split; [done|].
  destruct (Terminated (State cstatus)) as [s|] eqn:Hterm.
  - destruct (neqb (Image cspec) (StatusImage cstatus)) eqn:Hrun; [done|].
    apply neqb_false in Hrun. injection He as <-. left. exists s.
    split; [done|]. split; [congruence|done].
  - destruct (Waiting (State cstatus)) eqn:Hwait.
    + destruct (String.eqb (RestartPolicy pod) RestartPolicyAlways) eqn:Hpolicy; [|done].
      apply String.eqb_eq in Hpolicy.
      destruct (Terminated (LastTerminationState cstatus)) as [s|] eqn:Hlast; [|done].
      simpl in He. destruct (FinishedAt s <? now + Second * -20)%Z eqn:Hlate; [|done].
      apply Z.ltb_lt in Hlate. injection He as <-. right. exists s.
      repeat (split; [done|]). split; [lia|done].
    + destruct (Running (State cstatus)); [|done].
      by destruct (neqb (Image cspec) (StatusImage cstatus)).
Qed.

(** X23: CheckProgress reports an error in two cases only, both with the
    container's spec already on the requested image: the container is
    terminated and its status shows that same image, or it is waiting, not
    terminated, under restart policy Always, and its last termination
    finished more than twenty seconds before [now].  The error names the
    container, the exit code, the reason and the message of that
    termination. *)
Theorem CheckProgress_failure_iff (now : Z) (ctx : ActionContext) (a : Action) (e : error) :
  failure (CheckProgress now ctx a) = Some e ↔
  ∃ pod name image cspec cstatus,
    inspected ctx a pod name image cspec cstatus ∧ Image cspec = image ∧
    givesUp now pod name image cstatus e.
Proof.
  split; [apply CheckProgress_failure_cases|].
  intros (pod & name & image & cspec & cstatus & (m & cache & Hm & Hcache & Hpod & Hdet
          & Hcspec & Hcstatus) & Himage & Hcase).
  unfold CheckProgress. rewrite Hm, Hcache, Hpod, Hdet, Hcspec, Hcstatus.
  rewrite (proj2 (neqb_false _ _) Himage).
  destruct Hcase as [(s & Hterm & Hrun & ->)|(s & Hterm & Hwait & Hpolicy & Hlast & Hlate & ->)].
  - rewrite Hterm. assert (neqb (Image cspec) (StatusImage cstatus) = false) as ->; [|done].
    apply neqb_false. congruence.
  - rewrite Hterm, Hwait, Hpolicy, Hlast. simpl.
    assert ((FinishedAt s <? now + Second * -20)%Z = true) as ->; [|done].
    apply Z.ltb_lt. lia.
Qed.

(** X24: An answer of CheckProgress that ends the action does not depend on
    passing time: at any later instant, with the same pod status, it is
    the same answer.  Only "not ready yet" can turn, into the error of a
    container that keeps failing. *)
Theorem CheckProgress_ready_is_final (now later : Z) (ctx : ActionContext) (a : Action) :
  (now ≤ later)%Z →
  isReady (CheckProgress now ctx a) = true →
  CheckProgress later ctx a = CheckProgress now ctx a.
Proof.
  intros Hlater. unfold CheckProgress.
  destruct (Members ctx !! MemberID a) as [m|]; [|done].
  destruct (ClusterCaches ctx !! ClusterID m) as [cache|]; [|done].
  destruct (Pods cache !! PodName m) as [pod|]; [|done].
  destruct (getContainerDetails _ _ a) as [[name image]|]; [|done].
  destruct (GetContainerByName pod name) as [cspec|]; [|done].
  destruct (GetContainerStatusByName pod name) as [cstatus|]; [|done].
  destruct (neqb (Image cspec) image); [done|].
  destruct (Terminated (State cstatus)) as [s|]; [done|].
  destruct (Waiting (State cstatus)); [|done].
  destruct (String.eqb (RestartPolicy pod) RestartPolicyAlways); [|done].
  destruct (Terminated (LastTerminationState cstatus)) as [s|]; [|done].
  simpl.
  destruct (FinishedAt s <? now + Second * -20)%Z eqn:Hnow; [|done].
  intros _. apply Z.ltb_lt in Hnow.
  assert ((FinishedAt s <? later + Second * -20)%Z = true) as ->; [|done].
  apply Z.ltb_lt. lia.
Qed.

(** A waiting container is given twenty seconds after its last
    termination: while [now] is within that window, CheckProgress reports
    no error for a container that is not terminated. *)
Theorem CheckProgress_grace (now : Z) (ctx : ActionContext) (a : Action)
    pod name image cspec cstatus :
  inspected ctx a pod name image cspec cstatus →
  Terminated (State cstatus) = None →
  (∀ s, Terminated (LastTerminationState cstatus) = Some s →
        (now ≤ FinishedAt s + 20 * Second)%Z) →
  failure (CheckProgress now ctx a) = None.
Proof.
  intros Hseen Hterm Hgrace.
  destruct (failure (CheckProgress now ctx a)) as [e|] eqn:He; [|done].
  apply CheckProgress_failure_cases in He
    as (pod' & name' & image' & cspec' & cstatus' & Hseen' & _ & Hcase).
  destruct (inspected_functional _ _ _ _ _ _ _ _ _ _ _ _ Hseen Hseen')
    as (-> & -> & -> & -> & ->).
  destruct Hcase as [(s & Hs & _)|(s & _ & _ & _ & Hlast & Hlate & _)].
  - congruence.
  - specialize (Hgrace s Hlast). lia.
Qed.

End CheckProgress.

(** *** The db-server while its container restarts *)

Definition byName (pod : Pod) (name : string) : option Container :=
  List.find (λ c, String.eqb (Name c) name) (Containers pod).

Definition crashed (at_ : Z) : ContainerStateTerminated :=
  {| ExitCode := 137; Reason := "Error"; Message := "killed"; FinishedAt := at_ |}.

Definition noState : ContainerState :=
  {| Waiting := false; Running := false; Terminated := None |}.

(** The container waits for its restart after a crash at [at_]. *)
Definition restarting (at_ : Z) : ContainerStatus :=
  {| StatusImage := "arangodb:3.9.1";
     State := {| Waiting := true; Running := false; Terminated := None |};
     LastTerminationState :=
       {| Waiting := false; Running := false; Terminated := Some (crashed at_) |} |}.

Definition progressAt (now : Z) (status : ContainerStatus) : Progress :=
  CheckProgress "name" "image" (λ _, "Always") byName (λ _ _, Some status) now
    (deployment true) (updateImage "arangodb:3.9.1").

Example CheckProgress_restarting :
  progressAt (30 * Second) (restarting (15 * Second)) = retry.
Proof. vm_compute. reflexivity. Qed.

Example CheckProgress_crash_loop :
  progressAt (60 * Second) (restarting (15 * Second))
  = failed "Container server continuously failed during image replacement: (137) Error: killed".
Proof. vm_compute. reflexivity. Qed.

(** X24, witness: at the crash loop seen after one minute
    and again after two. *)
Lemma CheckProgress_ready_is_final_witness :
  progressAt (120 * Second) (restarting (15 * Second))
  = progressAt (60 * Second) (restarting (15 * Second)).
Proof.
  apply (CheckProgress_ready_is_final "name" "image" (λ _, "Always") byName
           (λ _ _, Some (restarting (15 * Second))) (60 * Second) (120 * Second)
           (deployment true) (updateImage "arangodb:3.9.1")).
  - vm_compute. discriminate.
  - vm_compute. reflexivity.
Defined.

(** Fifteen seconds after the crash. *)
Lemma CheckProgress_grace_witness :
  failure (progressAt (30 * Second) (restarting (15 * Second))) = None.
Proof.
  apply (CheckProgress_grace "name" "image" (λ _, "Always") byName
           (λ _ _, Some (restarting (15 * Second))) (30 * Second)
           (deployment true) (updateImage "arangodb:3.9.1")
           pod1 "server" "arangodb:3.9.1" server (restarting (15 * Second))).
  - exists member1, (CurrentClusterCache (deployment true)).
    repeat split; vm_compute; reflexivity.
  - reflexivity.
  - intros s [= <-]. vm_compute. discriminate.
Defined.

(** ** Post *)

(** The [for id := range obj.Spec.Template.PodSpec.Spec.Containers] loop
    of the function that Post hands to UpdateStatus, up to the first
    container of the spec with the requested name. *)
Fixpoint firstSpecNamed (name : string) (spec : list Container) (id : nat)
  : option (nat * Container) :=
  match spec with
  | [] => None
  | sc :: spec' =>
      if String.eqb (Name sc) name then Some (id, sc)
      else firstSpecNamed name spec' (S id)
  end.

(** s.Template.PodSpec.Spec.Containers[id].Image = image *)
Definition setStatusImage (obj : ArangoMember) (status : list Container) (id : nat)
    (image : string) : ArangoMember :=
  {| MemberName := MemberName obj;
     SpecTemplate := SpecTemplate obj;
     StatusTemplate :=
       Some {| PodSpec := Some (alter (λ c, {| Name := Name c; Image := image |}) id status) |} |}.

(** The function that Post hands to UpdateStatus, called with the
    ArangoMember and its own status: it returns whether it changed the
    status, and the object with its status as left behind.  [None] is an
    index out of range. *)
Definition PostUpdate (name image : string) (obj : ArangoMember)
  : option (bool * ArangoMember) :=
  match SpecTemplate obj, StatusTemplate obj with
  | Some os, Some s =>
      match PodSpec os, PodSpec s with
      | Some spec, Some status =>
          if negb (Nat.eqb (length spec) (length status)) then Some (false, obj) else
          match firstSpecNamed name spec 0 with
          | None => Some (false, obj)
          | Some (id, sc) =>
              match status !! id with
              | None => None
              | Some tc =>
                  if neqb (Name tc) name then Some (false, obj) else
                  if neqb (Image sc) image then Some (false, obj) else
                  if neqb (Image tc) image
                  then Some (true, setStatusImage obj status id image)
                  else Some (false, obj)
              end
          end
      | _, _ => Some (false, obj)
      end
  | _, _ => Some (false, obj)
  end.

Lemma firstSpecNamed_index name (spec : list Container) id0 i sc :
  firstSpecNamed name spec id0 = Some (i, sc) →
  (id0 ≤ i)%nat ∧ spec !! (i - id0)%nat = Some sc ∧ Name sc = name.
Proof.
  revert id0. induction spec as [|c spec IH]; intros id0; simpl; [done|].
  destruct (String.eqb (Name c) name) eqn:Hname.
  - intros [= <- <-]. apply String.eqb_eq in Hname.
    split; [done|]. by rewrite Nat.sub_diag.
  - intros H. apply IH in H as (Hle & Hsc & Hn). split; [lia|].
    replace (i - id0)%nat with (S (i - S id0)) by lia. done.
Qed.

(** What PostUpdate does, case by case on a member whose templates are
    set. *)
Lemma PostUpdate_cases name image obj spec status :
  SpecTemplate obj = Some {| PodSpec := Some spec |} →
  StatusTemplate obj = Some {| PodSpec := Some status |} →
  length spec = length status →
  match firstSpecNamed name spec 0 with
  | None => PostUpdate name image obj = Some (false, obj)
  | Some (id, sc) =>
      ∃ tc, status !! id = Some tc ∧
        PostUpdate name image obj =
        Some (if neqb (Name tc) name then (false, obj)
              else if neqb (Image sc) image then (false, obj)
              else if neqb (Image tc) image then (true, setStatusImage obj status id image)
              else (false, obj))
  end.
Proof.
  intros Hspec Hstatus Hlen. unfold PostUpdate. rewrite Hspec, Hstatus. simpl.
  rewrite Hlen, Nat.eqb_refl. simpl.
  destruct (firstSpecNamed name spec 0) as [[id sc]|] eqn:Hfirst; [|done].
  apply firstSpecNamed_index in Hfirst as (_ & Hsc & _). rewrite Nat.sub_0_r in Hsc.
  apply lookup_lt_Some in Hsc. rewrite Hlen in Hsc.
  apply lookup_lt_is_Some_2 in Hsc as [tc Htc]. exists tc. rewrite Htc.
  split; [done|].
  destruct (neqb (Name tc) name); [done|].
  destruct (neqb (Image sc) image); [done|].
  by destruct (neqb (Image tc) image).
Qed.

(** The templates of a member, when all four pointers are set. *)
Lemma templates_cases (obj : ArangoMember) :
  (∃ spec status, SpecTemplate obj = Some {| PodSpec := Some spec |} ∧
                  StatusTemplate obj = Some {| PodSpec := Some status |}) ∨
  (∀ name image, PostUpdate name image obj = Some (false, obj)).
Proof.
  unfold PostUpdate.
  destruct (SpecTemplate obj) as [[[spec|]]|]; [| |by right].
  - destruct (StatusTemplate obj) as [[[status|]]|]; [|by right..].
    left. by exists spec, status.
  - right. intros name image. by destruct (StatusTemplate obj) as [[[status|]]|].
Qed.

(** X25: The function Post hands to UpdateStatus never indexes out of range,
    never touches the name or the spec of the ArangoMember, and answers
    "changed" exactly when the object it leaves behind differs from the
    one it was given. *)
Theorem PostUpdate_flag (name image : string) (obj : ArangoMember) :
  ∃ changed obj',
    PostUpdate name image obj = Some (changed, obj') ∧
    MemberName obj' = MemberName obj ∧
    SpecTemplate obj' = SpecTemplate obj ∧
    (changed = true ↔ obj' ≠ obj).
Proof.
  assert (Hsame : ∃ changed obj', Some (false, obj) = Some (changed, obj') ∧
            MemberName obj' = MemberName obj ∧ SpecTemplate obj' = SpecTemplate obj ∧
            (changed = true ↔ obj' ≠ obj)).
  { exists false, obj. repeat split; done. }
  destruct (templates_cases obj) as [(spec & status & Hspec & Hstatus)|Hnil];
    [|by rewrite Hnil].
  destruct (decide (length spec = length status)) as [Hlen|Hlen].
  - pose proof (PostUpdate_cases name image obj spec status Hspec Hstatus Hlen) as Hcases.
    destruct (firstSpecNamed name spec 0) as [[id sc]|]; [|by rewrite Hcases].
    destruct Hcases as (tc & Htc & ->).
    destruct (neqb (Name tc) name); [done|].
    destruct (neqb (Image sc) image); [done|].
    destruct (neqb (Image tc) image) eqn:Himage; [|done].
    exists true, (setStatusImage obj status id image).
    repeat split; try done.
    intros _ Heq. apply (f_equal StatusTemplate) in Heq. rewrite Hstatus in Heq.
    simpl in Heq. injection Heq as Heq.
    apply (f_equal (λ l, l !! id)) in Heq.
    rewrite list_lookup_alter_eq, Htc in Heq. simpl in Heq.
    injection Heq as Heq. apply neqb_true in Himage. apply Himage.
    by rewrite <- Heq.
  - assert (PostUpdate name image obj = Some (false, obj)) as ->; [|done].
    unfold PostUpdate. rewrite Hspec, Hstatus. simpl.
    apply Nat.eqb_neq in Hlen. by rewrite Hlen.
Qed.

(** X26: Running the function of Post again on the object it left behind
    changes nothing more: its second answer is "not changed". *)
Theorem PostUpdate_idempotent (name image : string) (obj obj' : ArangoMember)
    (changed : bool) :
  PostUpdate name image obj = Some (changed, obj') →
  PostUpdate name image obj' = Some (false, obj').
Proof.
  destruct (templates_cases obj) as [(spec & status & Hspec & Hstatus)|Hnil];
    [|by rewrite Hnil; intros [= <- <-]].
  destruct (decide (length spec = length status)) as [Hlen|Hlen].
  - pose proof (PostUpdate_cases name image obj spec status Hspec Hstatus Hlen) as Hcases.
    destruct (firstSpecNamed name spec 0) as [[id sc]|] eqn:Hfirst;
      [|by rewrite Hcases; intros [= <- <-]].
    destruct Hcases as (tc & Htc & ->).
    destruct (neqb (Name tc) name) eqn:Hname;
      [intros [= <- <-]; unfold PostUpdate; rewrite Hspec, Hstatus; simpl;
       by rewrite Hlen, Nat.eqb_refl, Hfirst, Htc, Hname|].
    destruct (neqb (Image sc) image) eqn:Hsc;
      [intros [= <- <-]; unfold PostUpdate; rewrite Hspec, Hstatus; simpl;
       by rewrite Hlen, Nat.eqb_refl, Hfirst, Htc, Hname, Hsc|].
    destruct (neqb (Image tc) image) eqn:Htcimage;
      [|intros [= <- <-]; unfold PostUpdate; rewrite Hspec, Hstatus; simpl;
        by rewrite Hlen, Nat.eqb_refl, Hfirst, Htc, Hname, Hsc, Htcimage].
    intros [= <- <-]. unfold PostUpdate. simpl. rewrite Hspec. simpl.
    rewrite length_alter, Hlen, Nat.eqb_refl, Hfirst. simpl.
    rewrite list_lookup_alter_eq, Htc. simpl. rewrite Hname, Hsc.
    by rewrite (proj2 (neqb_false image image) eq_refl).
  - unfold PostUpdate at 1. rewrite Hspec, Hstatus. simpl.
    apply Nat.eqb_neq in Hlen. rewrite Hlen. simpl. intros [= <- <-].
    unfold PostUpdate. rewrite Hspec, Hstatus. simpl. by rewrite Hlen.
Qed.

(** *** The ArangoMember of the db-server after its spec moved to 3.9.2 *)

Definition arangoMember2 : ArangoMember :=
  {| MemberName := "depl-prmr-1";
     SpecTemplate := Some {| PodSpec := Some [{| Name := "server"; Image := "arangodb:3.9.2" |}] |};
     StatusTemplate := Some {| PodSpec := Some [server] |} |}.

Definition arangoMember2' : ArangoMember :=
  {| MemberName := "depl-prmr-1";
     SpecTemplate := SpecTemplate arangoMember2;
     StatusTemplate := SpecTemplate arangoMember2 |}.

Example PostUpdate_sets_status :
  PostUpdate "server" "arangodb:3.9.2" arangoMember2 = Some (true, arangoMember2').
Proof. vm_compute. reflexivity. Qed.

(** X26, witness: at that ArangoMember. *)
Lemma PostUpdate_idempotent_witness :
  PostUpdate "server" "arangodb:3.9.2" arangoMember2' = Some (false, arangoMember2').
Proof.
  apply (PostUpdate_idempotent "server" "arangodb:3.9.2" arangoMember2 arangoMember2' true).
  vm_compute. reflexivity.
Defined.

End ReconcileFacts.

(** * pkg/apis/deployment/v2alpha1: the topology status *)
Module Topology.

(** TopologyStatusZone; a nil [Members] map reads as the empty map. *)
Record TopologyStatusZone := {
  ZoneID : Z;
  Labels : list string;
  Members : gmap string (list string)
}.

(** TopologyStatus *)
Record TopologyStatus := {
  ID : string;
  Size : Z;
  Zones : list TopologyStatusZone;
  Label : string
}.

(** TopologySpec, with the answer of its GetLabel. *)
Record TopologySpec := { SpecZones : Z; GetLabel : string }.

(** math.MaxInt64 *)
Definition MaxInt64 : Z := 9223372036854775807.

Section GetLeastUsedZone.

(** ServerGroup.AsRoleAbbreviated *)
Context {ServerGroup : Type} (AsRoleAbbreviated : ServerGroup → string).

(** The [for i, z := range in.Zones] loop of GetLeastUsedZone from zone
    [i] on, with the current [r] and [m]. *)
Fixpoint leastUsedLoop (role : string) (zones : list TopologyStatusZone) (i : nat) (r m : Z) : Z :=
  match zones with
  | [] => r
  | z :: zones' =>
      match Members z !! role with
      | Some n =>
          let v := Z.of_nat (length n) in
          if (v <? m)%Z then leastUsedLoop role zones' (S i) (Z.of_nat i) v
          else leastUsedLoop role zones' (S i) r m
      | None =>
          let v := 0%Z in
          if (v <? m)%Z then leastUsedLoop role zones' (S i) (Z.of_nat i) v
          else leastUsedLoop role zones' (S i) r m
      end
  end.

(** TopologyStatus.GetLeastUsedZone; [None] is the nil receiver. *)
Definition GetLeastUsedZone (in_ : option TopologyStatus) (group : ServerGroup) : Z :=
  match in_ with
  | None => (-1)%Z
  | Some t => leastUsedLoop (AsRoleAbbreviated group) (Zones t) 0 (-1) MaxInt64
  end.

(** The members a zone holds for a role. *)
Definition used (role : string) (z : TopologyStatusZone) : Z :=
  Z.of_nat (length (default [] (Members z !! role))).

(** Zone [k] is the first of [zones] with the fewest members of [role]. *)
Definition firstLeastUsed (role : string) (zones : list TopologyStatusZone) (k : nat) : Prop :=
  ∃ z, zones !! k = Some z ∧
    (∀ j z', zones !! j = Some z' → (used role z ≤ used role z')%Z) ∧
    (∀ j z', (j < k)%nat → zones !! j = Some z' → (used role z < used role z')%Z).

Lemma leastUsedLoop_step role z zones i r m :
  leastUsedLoop role (z :: zones) i r m =
  if (used role z <? m)%Z then leastUsedLoop role zones (S i) (Z.of_nat i) (used role z)
  else leastUsedLoop role zones (S i) r m.
Proof. unfold used. simpl. by destruct (Members z !! role). Qed.

(** The invariant of the loop: after the zones [seen], [r] is the first
    least used of them and [m] its count. *)
Lemma leastUsedLoop_invariant role (seen rest : list TopologyStatusZone) (k : nat) zk :
  seen !! k = Some zk →
  firstLeastUsed role seen k →
  ∃ k', leastUsedLoop role rest (length seen) (Z.of_nat k) (used role zk) = Z.of_nat k' ∧
        firstLeastUsed role (seen ++ rest)%list k'.
Proof.
  revert seen k zk. induction rest as [|z rest IH]; intros seen k zk Hk Hleast.
  - exists k. by rewrite app_nil_r.
  - rewrite leastUsedLoop_step.
    destruct Hleast as (zk' & Hk' & Hmin & Hfirst). simplify_eq.
    replace (seen ++ z :: rest)%list with ((seen ++ [z]) ++ rest)%list
      by (by rewrite <- app_assoc).
    replace (S (length seen)) with (length (seen ++ [z])%list)
      by (rewrite length_app; simpl; lia).
    destruct (used role z <? used role zk)%Z eqn:Hlt.
    + apply Z.ltb_lt in Hlt.
      apply IH.
      * by rewrite lookup_app_r, Nat.sub_diag by lia.
      * exists z. split; [by rewrite lookup_app_r, Nat.sub_diag by lia|]. split.
        -- intros j z' Hj. apply lookup_app_Some in Hj as [Hj|[Hge Hj]].
           ++ specialize (Hmin j z' Hj). lia.
           ++ apply list_lookup_singleton_Some in Hj as [_ <-]. lia.
        -- intros j z' Hlt' Hj. rewrite lookup_app_l in Hj by done.
           specialize (Hmin j z' Hj). lia.
    + apply Z.ltb_ge in Hlt.
      apply IH.
      * by apply lookup_app_l_Some.
      * exists zk. split; [by apply lookup_app_l_Some|]. split.
        -- intros j z' Hj. apply lookup_app_Some in Hj as [Hj|[Hge Hj]].
           ++ by apply (Hmin j).
           ++ by apply list_lookup_singleton_Some in Hj as [_ <-].
        -- intros j z' Hlt' Hj.
           assert (j < length seen)%nat
             by (apply lookup_lt_Some in Hk; lia).
           rewrite lookup_app_l in Hj by done. by apply (Hfirst j).
Qed.

(** X27: With at least one zone (and member lists shorter than MaxInt64, as
    every Go slice is), GetLeastUsedZone answers the index of the first
    zone that holds the fewest members of the group: no zone holds fewer,
    and every earlier zone holds strictly more. *)
Theorem GetLeastUsedZone_first_least_used (t : TopologyStatus) (group : ServerGroup) :
  Zones t ≠ [] →
  (∀ z, z ∈ Zones t → (used (AsRoleAbbreviated group) z < MaxInt64)%Z) →
  ∃ k, GetLeastUsedZone (Some t) group = Z.of_nat k ∧
       firstLeastUsed (AsRoleAbbreviated group) (Zones t) k.
Proof.
  intros Hzones Hbound. unfold GetLeastUsedZone.
  destruct (Zones t) as [|z zones]; [done|].
  rewrite leastUsedLoop_step.
  assert ((used (AsRoleAbbreviated group) z <? MaxInt64)%Z = true) as ->
    by (apply Z.ltb_lt, Hbound; by left).
  apply (leastUsedLoop_invariant _ [z] zones 0 z); [done|].
  exists z. split; [done|]. split.
  - intros j z' Hj. by apply list_lookup_singleton_Some in Hj as [_ <-].
  - intros j z' Hj. lia.
Qed.

(** GetLeastUsedZone answers -1 exactly when there is no topology or no
    zone; otherwise its answer is an index into the zones. *)
Theorem GetLeastUsedZone_range (in_ : option TopologyStatus) (group : ServerGroup) :
  (∀ t z, in_ = Some t → z ∈ Zones t → (used (AsRoleAbbreviated group) z < MaxInt64)%Z) →
  match in_ with
  | None => GetLeastUsedZone in_ group = (-1)%Z
  | Some t =>
      match Zones t with
      | [] => GetLeastUsedZone in_ group = (-1)%Z
      | _ => (0 ≤ GetLeastUsedZone in_ group < Z.of_nat (length (Zones t)))%Z
      end
  end.
Proof.
  intros Hbound. destruct in_ as [t|]; [|done].
  unfold GetLeastUsedZone.
  destruct (Zones t) as [|z zones] eqn:Hz; [done|].
  rewrite leastUsedLoop_step.
  assert ((used (AsRoleAbbreviated group) z <? MaxInt64)%Z = true) as ->
    by (apply Z.ltb_lt, (Hbound t); [done|rewrite Hz; by left]).
  destruct (leastUsedLoop_invariant (AsRoleAbbreviated group) [z] zones 0 z)
    as (k & Hloop & zk & Hk & _); [done| |].
  - exists z. split; [done|]. split.
    + intros j z' Hj. by apply list_lookup_singleton_Some in Hj as [_ <-].
    + intros j z' Hj. lia.
  - change (length [z]) with 1%nat in Hloop. rewrite Hloop. apply lookup_lt_Some in Hk. simpl in Hk. simpl. lia.
Qed.

End GetLeastUsedZone.

(** NewTopologyStatus, given the UID that uuid.NewUUID draws.  The outer
    [None] is the panic of [make] on a negative length, the inner one the
    nil status of a nil spec. *)
Definition NewTopologyStatus (uuid : string) (spec : option TopologySpec)
  : option (option TopologyStatus) :=
  match spec with
  | None => Some None
  | Some spec =>
      if (SpecZones spec <? 0)%Z then None else
      let zones :=
        (λ i, {| ZoneID := Z.of_nat i; Labels := []; Members := ∅ |})
          <$> seq 0 (Z.to_nat (SpecZones spec)) in
      Some (Some {| ID := uuid; Size := SpecZones spec; Zones := zones;
                    Label := GetLabel spec |})
  end.

(** X28: A topology made from a spec of n > 0 zones has exactly n zones,
    zone i carrying the id i, and its least used zone is zone 0 for every
    group. *)
Theorem NewTopologyStatus_zones {ServerGroup : Type} (role : ServerGroup → string)
    (uuid : string) (spec : TopologySpec) (group : ServerGroup) :
  (0 < SpecZones spec)%Z →
  ∃ t, NewTopologyStatus uuid (Some spec) = Some (Some t) ∧
       Size t = Z.of_nat (length (Zones t)) ∧
       (∀ i z, Zones t !! i = Some z → ZoneID z = Z.of_nat i) ∧
       GetLeastUsedZone role (Some t) group = 0%Z.
Proof.
  intros Hpos. unfold NewTopologyStatus.
  assert ((SpecZones spec <? 0)%Z = false) as -> by (apply Z.ltb_ge; lia).
  eexists. split; [done|]. simpl. split; [|split].
  - rewrite length_fmap, length_seq. lia.
  - intros i z Hz. apply list_lookup_fmap_Some in Hz as (j & -> & Hj).
    apply lookup_seq in Hj as [-> _]. done.
  - destruct (Z.to_nat (SpecZones spec)) as [|n] eqn:Hn; [lia|].
    simpl. clear Hn. generalize 1%nat.
    induction n as [|n IH]; intros i; simpl; [done|]. apply IH.
Qed.

(** *** Three zones *)

Definition zone (id : Z) (dbservers : list string) : TopologyStatusZone :=
  {| ZoneID := id; Labels := []; Members := {["prmr" := dbservers]} |}.

Definition threeZones : TopologyStatus :=
  {| ID := "uid"; Size := 3;
     Zones := [zone 0 ["a"; "b"]; zone 1 ["c"]; zone 2 ["d"]]; Label := "zone" |}.

Example least_used_is_first_minimum :
  GetLeastUsedZone (λ g : string, g) (Some threeZones) "prmr" = 1%Z.
Proof. vm_compute. reflexivity. Qed.

Example least_used_of_unknown_group :
  GetLeastUsedZone (λ g : string, g) (Some threeZones) "crdn" = 0%Z.
Proof. vm_compute. reflexivity. Qed.

Lemma threeZones_bound z :
  z ∈ Zones threeZones → (used "prmr" z < MaxInt64)%Z.
Proof.
  intros Hz. simpl in Hz.
  repeat (apply elem_of_cons in Hz as [->|Hz]; [vm_compute; reflexivity|]).
  by apply elem_of_nil in Hz.
Qed.

(** X27, witness: at the three zones. *)
Lemma GetLeastUsedZone_first_least_used_witness :
  ∃ k, GetLeastUsedZone (λ g : string, g) (Some threeZones) "prmr" = Z.of_nat k ∧
       firstLeastUsed "prmr" (Zones threeZones) k.
Proof.
  apply (GetLeastUsedZone_first_least_used (λ g : string, g) threeZones "prmr").
  - simpl. discriminate.
  - exact threeZones_bound.
Defined.

(** The answer for the three zones is one of their indices. *)
Lemma GetLeastUsedZone_range_witness :
  (0 ≤ GetLeastUsedZone (λ g : string, g) (Some threeZones) "prmr" < 3)%Z.
Proof.
  apply (GetLeastUsedZone_range (λ g : string, g) (Some threeZones) "prmr").
  intros t z [= <-]. exact (threeZones_bound z).
Defined.

(** X28, witness: for a spec of three zones. *)
Lemma NewTopologyStatus_zones_witness :
  ∃ t, NewTopologyStatus "uid" (Some {| SpecZones := 3; GetLabel := "zone" |}) = Some (Some t) ∧
       Size t = Z.of_nat (length (Zones t)) ∧
       (∀ i z, Zones t !! i = Some z → ZoneID z = Z.of_nat i) ∧
       GetLeastUsedZone (λ g : string, g) (Some t) "prmr" = 0%Z.
Proof.
  apply (NewTopologyStatus_zones (λ g : string, g) "uid"
           {| SpecZones := 3; GetLabel := "zone" |} "prmr").
  reflexivity.
Defined.

End Topology.

(** * pkg/util/k8sutil: the names of a deployment's services *)
Module Services.

(** CreateHeadlessServiceName *)
Definition CreateHeadlessServiceName (deploymentName : string) : string :=
  deploymentName +:+ "-int".

(** CreateDatabaseClientServiceName *)
Definition CreateDatabaseClientServiceName (deploymentName : string) : string :=
  deploymentName.

(** CreateDatabaseExternalAccessServiceName *)
Definition CreateDatabaseExternalAccessServiceName (deploymentName : string) : string :=
  deploymentName +:+ "-ea".

(** CreateSyncMasterClientServiceName *)
Definition CreateSyncMasterClientServiceName (deploymentName : string) : string :=
  deploymentName +:+ "-sync".

(** CreateExporterClientServiceName *)
Definition CreateExporterClientServiceName (deploymentName : string) : string :=
  deploymentName +:+ "-exporter".

(** CreateAgentLeaderServiceName *)
Definition CreateAgentLeaderServiceName (deploymentName : string) : string :=
  deploymentName +:+ "-agent".

(** The six service names of one deployment. *)
Definition serviceNames (deploymentName : string) : list string :=
  [CreateHeadlessServiceName deploymentName;
   CreateDatabaseClientServiceName deploymentName;
   CreateDatabaseExternalAccessServiceName deploymentName;
   CreateSyncMasterClientServiceName deploymentName;
   CreateExporterClientServiceName deploymentName;
   CreateAgentLeaderServiceName deploymentName].

Lemma append_nil_r (s : string) : s +:+ EmptyString = s.
Proof.
  induction s as [|a s IH]; [done|].
  change (String a s +:+ EmptyString) with (String a (s +:+ EmptyString)).
  by rewrite IH.
Qed.

(** X29: The six services of one deployment never share a name. *)
Theorem serviceNames_NoDup (deploymentName : string) : NoDup (serviceNames deploymentName).
Proof.
  assert (serviceNames deploymentName =
          String.append deploymentName
            <$> ["-int"; EmptyString; "-ea"; "-sync"; "-exporter"; "-agent"])
    as ->.
  { unfold serviceNames, CreateDatabaseClientServiceName.
    rewrite <- (append_nil_r deploymentName) at 2. reflexivity. }
  apply (NoDup_fmap_2 _).
  apply (bool_decide_unpack _). vm_compute. reflexivity.
Qed.

(** Across deployments the names can meet: the client service of a
    deployment called "db-int" has the name of the headless service of the
    deployment "db". *)
Example serviceNames_across_deployments :
  CreateDatabaseClientServiceName "db-int" = CreateHeadlessServiceName "db".
Proof. reflexivity. Qed.

End Services.

(** * pkg/apis/deployment/v2alpha1: the license status *)
Module License.

(** DeploymentStatusLicenseDetails *)
Record DeploymentStatusLicenseDetails := {
  Hash : string;
  Succeeded : bool;
  Error : string
}.

(** DeploymentStatusLicense; [V2] is a pointer. *)
Record DeploymentStatusLicense := { V2 : option DeploymentStatusLicenseDetails }.

(** DeploymentStatusLicenseDetails.Equal, on two pointers. *)
Definition DetailsEqual (a b : option DeploymentStatusLicenseDetails) : bool :=
  match a, b with
  | None, None => true
  | None, _ | _, None => false
  | Some a, Some b =>
      String.eqb (Hash a) (Hash b) && Bool.eqb (Succeeded a) (Succeeded b)
      && String.eqb (Error a) (Error b)
  end.

(** DeploymentStatusLicense.Equal, on two pointers. *)
Definition Equal (a b : option DeploymentStatusLicense) : bool :=
  match a, b with
  | None, None => true
  | None, _ | _, None => false
  | Some a, Some b => DetailsEqual (V2 a) (V2 b)
  end.

Lemma DetailsEqual_eq (a b : option DeploymentStatusLicenseDetails) :
  DetailsEqual a b = true ↔ a = b.
Proof.
  destruct a as [[h1 s1 e1]|], b as [[h2 s2 e2]|]; simpl; try done.
  rewrite !andb_true_iff, !String.eqb_eq, Bool.eqb_true_iff. split.
  - by intros [[-> ->] ->].
  - by intros [= -> -> ->].
Qed.

(** X30: Equal decides equality of license statuses, nil pointers at either
    level included: it answers true exactly when both are nil, or both are
    set and their details are both nil or agree on hash, success flag and
    error. *)
Theorem Equal_eq (a b : option DeploymentStatusLicense) :
  Equal a b = true ↔ a = b.
Proof.
  destruct a as [[a]|], b as [[b]|]; simpl; try done.
  rewrite DetailsEqual_eq. split; [by intros ->|by intros [= ->]].
Qed.

End License.
